(** * itrik surfers: a shallow embedding of [itrik_Surfers.py]

    The game is a single-threaded tick loop.  The embedding follows the
    source class by class: one module per Python class, one definition per
    method, with the attribute names of the source.

    Numbers.  Python [int] is [Z].  Python [float] is idealised as an exact
    rational [Q]: every statement below is about comparisons, additions of
    the source's constants and [int()] truncation, none about rounding of
    the binary representation.  [int(v)] on a number is truncation toward
    zero.  A [pygame.Rect] holds integer coordinates.

    Objects.  Obstacles, coins and power-ups are mutable objects held by
    reference in Python lists; the loops of [ItrikSurfers.update] iterate
    over a snapshot of the list, mutate the objects in place and remove
    them from the live list by identity.  The embedding keeps one typed
    store per class (a finite map from references to objects) and lists of
    references, so that mutation through an alias and removal by identity
    are what they are in the source. *)

From Stdlib Require Import ZArith QArith Qround Lqa Lia Bool.
From Stdlib Require Import Ascii DecimalZ.
From stdpp Require Import gmap list strings.

Local Open Scope Z_scope.

(** ** Numbers *)

(** [int(v)] for a real-valued [v]: truncation toward zero. *)
Definition py_int (q : Q) : Z := Z.quot (Qnum q) (Z.pos (Qden q)).

(** [round(v)] with one argument: nearest integer, ties to the even one. *)
Definition py_round (q : Q) : Z :=
  let f := Qfloor q in
  match (q - inject_Z f ?= 1 # 2)%Q with
  | Lt => f
  | Gt => f + 1
  | Eq => if Z.even f then f else f + 1
  end.

(** ** Config *)

Definition WIDTH : Z := 900.
Definition HEIGHT : Z := 500.
Definition FPS : Z := 60.
Definition GROUND_Y : Z := HEIGHT - 90.
Definition PLAYER_X : Z := 120.

(** ** pygame.Rect

    Integer rectangle [(x, y, w, h)]; [right] is [x + w], [bottom] is
    [y + h].  [colliderect] is the overlap test of pygame 2: rectangles
    with a zero side never collide, and touching edges are not an
    overlap. *)
Module Rect.

Record t : Type := mk { x : Z; y : Z; w : Z; h : Z }.

Definition right (r : t) : Z := x r + w r.
Definition bottom (r : t) : Z := y r + h r.
Definition left (r : t) : Z := x r.
Definition top (r : t) : Z := y r.

(** [r.topleft = (a, b)] *)
Definition set_topleft (r : t) (a b : Z) : t := mk a b (w r) (h r).

(** [r.x -= d] *)
Definition move_left (r : t) (d : Z) : t := mk (x r - d) (y r) (w r) (h r).

Definition colliderect (a b : t) : bool :=
  if (w a =? 0) || (h a =? 0) || (w b =? 0) || (h b =? 0) then false
  else
    (Z.min (x a) (x a + w a) <? Z.max (x b) (x b + w b))
    && (Z.min (y a) (y a + h a) <? Z.max (y b) (y b + h b))
    && (Z.min (x b) (x b + w b) <? Z.max (x a) (x a + w a))
    && (Z.min (y b) (y b + h b) <? Z.max (y a) (y a + h a)).

End Rect.

(** ** class Player *)
Module Player.

(** Attributes assigned once in [__init__] and never again are constants. *)
Definition width : Z := 48.
Definition height : Z := 64.
Definition gravity : Q := 9 # 10.
Definition jump_strength : Q := (-16) # 1.

(** The resting height [GROUND_Y - self.height]. *)
Definition floor_y : Z := GROUND_Y - height.

Record t : Type := mk {
  x : Z;
  y : Q;
  dy : Q;
  double_jump_allowed : bool;
  on_ground : bool;
  rect : Rect.t;
  shield : Z
}.

(** [Player.__init__] *)
Definition init : t :=
  {| x := PLAYER_X;
     y := inject_Z floor_y;
     dy := 0;
     double_jump_allowed := true;
     on_ground := true;
     rect := Rect.mk PLAYER_X floor_y width height;
     shield := 0 |}.

(** [Player.update] *)
Definition update (p : t) : t :=
  let dy1 := (dy p + gravity)%Q in
  let y1 := (y p + dy1)%Q in
  let landed := Qle_bool (inject_Z floor_y) y1 in
  let y2 := if landed then inject_Z floor_y else y1 in
  {| x := x p;
     y := y2;
     dy := if landed then 0%Q else dy1;
     double_jump_allowed := if landed then true else double_jump_allowed p;
     on_ground := landed;
     rect := Rect.set_topleft (rect p) (py_int (inject_Z (x p))) (py_int y2);
     shield := if 0 <? shield p then shield p - 1 else shield p |}.

(** [Player.jump] *)
Definition jump (p : t) : t :=
  if on_ground p then
    {| x := x p; y := y p;
       dy := jump_strength;
       double_jump_allowed := true;
       on_ground := false;
       rect := rect p; shield := shield p |}
  else if double_jump_allowed p then
    {| x := x p; y := y p;
       dy := (jump_strength * (9 # 10))%Q;
       double_jump_allowed := false;
       on_ground := false;
       rect := rect p; shield := shield p |}
  else p.

(** [self.player.shield = v], the one write to a player attribute made
    from outside the class (line 295). *)
Definition set_shield (v : Z) (p : t) : t :=
  {| x := x p; y := y p; dy := dy p;
     double_jump_allowed := double_jump_allowed p;
     on_ground := on_ground p; rect := rect p; shield := v |}.

(** The states a player object can be in: built by [__init__], then any
    sequence of [update], [jump] and shield pick-ups. *)
Inductive reachable : t -> Prop :=
| reach_init : reachable init
| reach_update p : reachable p -> reachable (update p)
| reach_jump p : reachable p -> reachable (jump p)
| reach_shield v p : reachable p -> reachable (set_shield v p).

End Player.

(** ** class Obstacle *)
Module Obstacle.

Record t : Type := mk {
  rect : Rect.t;
  speed : Q;
  passed : bool
}.

(** [Obstacle.__init__(x, w, h, speed)] *)
Definition init (x w h : Z) (v : Q) : t :=
  {| rect := Rect.mk x (GROUND_Y - h) w h; speed := v; passed := false |}.

(** [ob.speed = v] *)
Definition set_speed (v : Q) (o : t) : t :=
  {| rect := rect o; speed := v; passed := passed o |}.

(** [ob.passed = b] *)
Definition set_passed (b : bool) (o : t) : t :=
  {| rect := rect o; speed := speed o; passed := b |}.

(** [Obstacle.update]: [self.rect.x -= int(self.speed)] *)
Definition update (o : t) : t :=
  {| rect := Rect.move_left (rect o) (py_int (speed o));
     speed := speed o; passed := passed o |}.

End Obstacle.

(** ** class Coin *)
Module Coin.

Definition r : Z := 10.

Record t : Type := mk {
  x : Z;
  y : Z;
  speed : Q;
  rect : Rect.t;
  collected : bool
}.

(** [Coin.__init__(x, y, speed)] *)
Definition init (x0 y0 : Z) (v : Q) : t :=
  {| x := x0; y := y0; speed := v;
     rect := Rect.mk (x0 - r) (y0 - r) (r * 2) (r * 2);
     collected := false |}.

Definition set_speed (v : Q) (c : t) : t :=
  {| x := x c; y := y c; speed := v; rect := rect c;
     collected := collected c |}.

Definition set_collected (b : bool) (c : t) : t :=
  {| x := x c; y := y c; speed := speed c; rect := rect c;
     collected := b |}.

(** [Coin.update] *)
Definition update (c : t) : t :=
  let x1 := x c - py_int (speed c) in
  {| x := x1; y := y c; speed := speed c;
     rect := Rect.set_topleft (rect c) (x1 - r) (y c - r);
     collected := collected c |}.

End Coin.

(** ** class PowerUp *)
Module PowerUp.

Definition r : Z := 14.

Record t : Type := mk {
  x : Z;
  y : Z;
  speed : Q;
  kind : string;
  rect : Rect.t
}.

(** [PowerUp.__init__(x, y, speed, kind)] *)
Definition init (x0 y0 : Z) (v : Q) (k : string) : t :=
  {| x := x0; y := y0; speed := v; kind := k;
     rect := Rect.mk (x0 - r) (y0 - r) (r * 2) (r * 2) |}.

Definition set_speed (v : Q) (p : t) : t :=
  {| x := x p; y := y p; speed := v; kind := kind p; rect := rect p |}.

(** [PowerUp.update] *)
Definition update (p : t) : t :=
  let x1 := x p - py_int (speed p) in
  {| x := x1; y := y p; speed := speed p; kind := kind p;
     rect := Rect.set_topleft (rect p) (x1 - r) (y p - r) |}.

End PowerUp.

(** ** class Background

    Three parallax layers; the surface of a layer is rendering data and is
    left out, its offset, speed factor and height are kept. *)
Module Background.

Record layer : Type := mk_layer { lx : Z; lspeed : Q; ly : Z }.

Definition t : Type := list layer.

(** [Background.__init__]: layer [i] has speed [0.6 + i*0.4] and sits at
    [i * (HEIGHT // 6)]. *)
Definition init : t :=
  map (fun i : Z =>
         {| lx := 0;
            lspeed := ((6 # 10) + inject_Z i * (4 # 10))%Q;
            ly := i * (HEIGHT / 6) |})
      [0; 1; 2].

Definition update_layer (base_speed : Q) (l : layer) : layer :=
  let x1 := lx l - py_int (base_speed * lspeed l)%Q in
  {| lx := if x1 <=? - WIDTH then 0 else x1;
     lspeed := lspeed l; ly := ly l |}.

(** [Background.update(base_speed)] *)
Definition update (base_speed : Q) (b : t) : t :=
  map (update_layer base_speed) b.

End Background.

(** ** The high-score file

    The file system is the environment.  A text is the sequence of the
    code points of a Python [str].  A file is what the three system calls
    of the program answer: the text [open(HIGHSCORE_FILE, "r").read()]
    returns ([None] when it raises: no such file, no permission, a
    directory, bytes that do not decode), whether
    [open(HIGHSCORE_FILE, "w")] succeeds (it creates the file when there is
    none), and whether [os.utime] succeeds on the path (it exists, and the
    process owns it or may write it). *)
Module HighscoreFile.

Definition text : Type := list N.

(** The text of an ASCII string literal. *)
Fixpoint of_string (s : string) : text :=
  match s with
  | String a s' => N.of_nat (nat_of_ascii a) :: of_string s'
  | EmptyString => []
  end.

Record t : Type := mk {
  content : option text;
  writable : bool;
  touchable : bool
}.

(** The code points [c] with [chr(c).isspace()]: what [str.strip()]
    removes. *)
Definition spaces : list N :=
  [
    9; 10; 11; 12; 13; 28; 29; 30; 31; 32; 133; 160; 5760; 8192; 8193;
    8194; 8195; 8196; 8197; 8198; 8199; 8200; 8201; 8202; 8232; 8233; 8239;
    8287; 12288
  ]%N.

Definition is_space (c : N) : bool := existsb (N.eqb c) spaces.

(** The white space [int()] skips around a number: the same, but for the
    four ASCII separators 28..31, which [int()] leaves in place. *)
Definition is_int_space (c : N) : bool :=
  is_space c && negb ((28 <=? c)%N && (c <=? 31)%N).

Fixpoint lstrip (p : N -> bool) (s : text) : text :=
  match s with
  | c :: s' => if p c then lstrip p s' else s
  | [] => []
  end.

Fixpoint rstrip (p : N -> bool) (s : text) : text :=
  match s with
  | c :: s' =>
      match rstrip p s' with
      | [] => if p c then [] else [c]
      | t => c :: t
      end
  | [] => []
  end.

(** [text.strip()] *)
Definition strip (s : text) : text := rstrip is_space (lstrip is_space s).

(** The code points of the digit zero of each run of ten decimal digits of
    Unicode 14.0, the database of CPython 3.11: [int()] reads the digits of
    every script. *)
Definition digit_zeros : list N :=
  [
    48; 1632; 1776; 1984; 2406; 2534; 2662; 2790; 2918; 3046; 3174; 3302;
    3430; 3558; 3664; 3792; 3872; 4160; 4240; 6112; 6160; 6470; 6608; 6784;
    6800; 6992; 7088; 7232; 7248; 42528; 43216; 43264; 43472; 43504; 43600;
    44016; 65296; 66720; 68912; 69734; 69872; 69942; 70096; 70384; 70736;
    70864; 71248; 71360; 71472; 71904; 72016; 72784; 73040; 73120; 92768;
    92864; 93008; 120782; 120792; 120802; 120812; 120822; 123200; 123632;
    125264; 130032
  ]%N.

(** [unicodedata.decimal(chr(c))], [None] when [c] is no decimal digit. *)
Definition decimal_value (c : N) : option N :=
  (fun z => c - z)%N
    <$> List.find (fun z => (z <=? c)%N && (c <? z + 10)%N) digit_zeros.

Definition digit_cons (v : N) (d : Decimal.uint) : option Decimal.uint :=
  match v with
  | 0 => Some (Decimal.D0 d) | 1 => Some (Decimal.D1 d)
  | 2 => Some (Decimal.D2 d) | 3 => Some (Decimal.D3 d)
  | 4 => Some (Decimal.D4 d) | 5 => Some (Decimal.D5 d)
  | 6 => Some (Decimal.D6 d) | 7 => Some (Decimal.D7 d)
  | 8 => Some (Decimal.D8 d) | 9 => Some (Decimal.D9 d)
  | _ => None
  end%N.

(** The digits of an integer literal: decimal digits, with single
    underscores between two of them only.  [None] is [ValueError]. *)
Fixpoint uint_of_text (after_digit : bool) (s : text)
    : option Decimal.uint :=
  match s with
  | [] => if after_digit then Some Decimal.Nil else None
  | c :: s' =>
      if (c =? 95)%N then
        if after_digit then uint_of_text false s' else None
      else
        v ← decimal_value c;
        d ← uint_of_text true s';
        digit_cons v d
  end.

(** [int(text)] in base ten: white space, an optional sign, the digits,
    white space.  [None] is [ValueError].  The limit CPython 3.11 puts on
    the number of digits ([sys.get_int_max_str_digits()], 4300 unless
    changed) is not part of [int] here nor of [str] below: the statements
    that read or write an arbitrary integer bound it by that limit. *)
Definition int_of_text (s : text) : option Z :=
  let t := rstrip is_int_space (lstrip is_int_space s) in
  let '(neg, body) :=
    match t with
    | c :: r =>
        if (c =? 45)%N then (true, r)
        else if (c =? 43)%N then (false, r)
        else (false, t)
    | [] => (false, t)
    end in
  u ← uint_of_text false body;
  Some (if neg : bool then - Z.of_uint u else Z.of_uint u).

Fixpoint text_of_uint (d : Decimal.uint) : text :=
  match d with
  | Decimal.Nil => []
  | Decimal.D0 d => 48 :: text_of_uint d
  | Decimal.D1 d => 49 :: text_of_uint d
  | Decimal.D2 d => 50 :: text_of_uint d
  | Decimal.D3 d => 51 :: text_of_uint d
  | Decimal.D4 d => 52 :: text_of_uint d
  | Decimal.D5 d => 53 :: text_of_uint d
  | Decimal.D6 d => 54 :: text_of_uint d
  | Decimal.D7 d => 55 :: text_of_uint d
  | Decimal.D8 d => 56 :: text_of_uint d
  | Decimal.D9 d => 57 :: text_of_uint d
  end%N.

(** [str(n)] for an integer. *)
Definition str (n : Z) : text :=
  match Z.to_int n with
  | Decimal.Pos d => text_of_uint d
  | Decimal.Neg d => 45%N :: text_of_uint d
  end.

(** [Path(HIGHSCORE_FILE).touch(exist_ok=True)], run once when the module
    is loaded: [os.utime], and when that fails
    [os.open(path, O_CREAT | O_WRONLY)], which succeeds where opening for
    writing does; it creates an empty file when there is none and leaves a
    file that is there as it is.  [None] is the [OSError] that ends the
    program. *)
Definition touch (f : t) : option t :=
  if touchable f then Some f
  else if writable f then
    match content f with
    | Some _ => Some f
    | None =>
        Some {| content := Some []; writable := true; touchable := true |}
    end
  else None.

(** [load_highscore]: every exception is caught and gives 0;
    [text.strip() or 0] gives 0 for an empty text. *)
Definition load_highscore (f : t) : Z :=
  match content f with
  | None => 0
  | Some text =>
      match strip text with
      | [] => 0
      | t => match int_of_text t with Some n => n | None => 0 end
      end
  end.

(** [save_highscore]: a failure to open the file is swallowed.  When the
    file opens, the environment is taken to do what it is asked: the write
    goes through, and the text written is the text a later read returns,
    from a file the process has written and so may touch. *)
Definition save_highscore (score : Z) (f : t) : t :=
  if writable f
  then {| content := Some (str score); writable := true;
          touchable := true |}
  else f.


End HighscoreFile.

(** ** Lists of references *)

(** An object reference. *)
Abbreviation ref := nat (only parsing).

(** [lst.remove(r)]: drops the first occurrence; [None] is the
    [ValueError] raised when there is none. *)
Fixpoint list_remove (r : ref) (l : list ref) : option (list ref) :=
  match l with
  | [] => None
  | a :: l' =>
      if decide (a = r) then Some l'
      else cons a <$> list_remove r l'
  end.

(** [for r in snapshot: body], where the body can raise. *)
Fixpoint for_each {S : Type} (body : ref -> S -> option S)
    (snapshot : list ref) (s : S) : option S :=
  match snapshot with
  | [] => Some s
  | r :: rest => s' ← body r s; for_each body rest s'
  end.

(** ** class ItrikSurfers *)
Module ItrikSurfers.

(** The values [random.randint] returns during one call of [update], in
    the order of the calls: [spawn_obstacle] draws a width, a height and an
    offset, [spawn_coin] an offset and a height, [spawn_powerup] likewise.
    A value is used only if its spawn happens. *)
Record Draws : Type := mk_draws {
  ob_w : Z; ob_h : Z; ob_dx : Z;
  coin_dx : Z; coin_y : Z;
  pw_dx : Z; pw_y : Z
}.

(** What [random.randint] can return at each call site. *)
Definition draws_in_range (d : Draws) : Prop :=
  30 <= ob_w d <= 70 /\ 40 <= ob_h d <= 100 /\ 20 <= ob_dx d <= 120 /\
  30 <= coin_dx d <= 200 /\ GROUND_Y - 180 <= coin_y d <= GROUND_Y - 40 /\
  200 <= pw_dx d <= 600 /\ GROUND_Y - 180 <= pw_y d <= GROUND_Y - 60.

(** [self.difficulty_increment], assigned once in [__init__]. *)
Definition difficulty_increment : Q := 5 # 10000.

Record t : Type := mk {
  running : bool;
  playing : bool;
  player : Player.t;
  background : Background.t;
  scroll_speed : Q;
  spawn_timer : Z;
  coin_timer : Z;
  power_timer : Z;
  obstacles : list ref;
  coins : list ref;
  powerups : list ref;
  score : Z;
  distance : Q;
  highscore : Z;
  game_over : bool;
  (* the objects the three lists refer to, and the next fresh reference *)
  obstacle_store : gmap nat Obstacle.t;
  coin_store : gmap nat Coin.t;
  powerup_store : gmap nat PowerUp.t;
  next_ref : nat
}.

(** [ItrikSurfers.__init__], given the value [load_highscore()] returns. *)
Definition init (hs : Z) : t :=
  {| running := true; playing := false;
     player := Player.init; background := Background.init;
     scroll_speed := 6; spawn_timer := 0; coin_timer := 0; power_timer := 0;
     obstacles := []; coins := []; powerups := [];
     score := 0; distance := 0; highscore := hs; game_over := false;
     obstacle_store := ∅; coin_store := ∅; powerup_store := ∅;
     next_ref := 0 |}.

(** *** Attribute writes *)

Definition set_running (b : bool) (s : t) : t :=
  mk b (playing s) (player s) (background s) (scroll_speed s)
     (spawn_timer s) (coin_timer s) (power_timer s)
     (obstacles s) (coins s) (powerups s) (score s) (distance s)
     (highscore s) (game_over s)
     (obstacle_store s) (coin_store s) (powerup_store s) (next_ref s).

Definition set_playing (b : bool) (s : t) : t :=
  mk (running s) b (player s) (background s) (scroll_speed s)
     (spawn_timer s) (coin_timer s) (power_timer s)
     (obstacles s) (coins s) (powerups s) (score s) (distance s)
     (highscore s) (game_over s)
     (obstacle_store s) (coin_store s) (powerup_store s) (next_ref s).

Definition set_player (p : Player.t) (s : t) : t :=
  mk (running s) (playing s) p (background s) (scroll_speed s)
     (spawn_timer s) (coin_timer s) (power_timer s)
     (obstacles s) (coins s) (powerups s) (score s) (distance s)
     (highscore s) (game_over s)
     (obstacle_store s) (coin_store s) (powerup_store s) (next_ref s).

Definition set_background (b : Background.t) (s : t) : t :=
  mk (running s) (playing s) (player s) b (scroll_speed s)
     (spawn_timer s) (coin_timer s) (power_timer s)
     (obstacles s) (coins s) (powerups s) (score s) (distance s)
     (highscore s) (game_over s)
     (obstacle_store s) (coin_store s) (powerup_store s) (next_ref s).

Definition set_scroll_speed (v : Q) (s : t) : t :=
  mk (running s) (playing s) (player s) (background s) v
     (spawn_timer s) (coin_timer s) (power_timer s)
     (obstacles s) (coins s) (powerups s) (score s) (distance s)
     (highscore s) (game_over s)
     (obstacle_store s) (coin_store s) (powerup_store s) (next_ref s).

Definition set_spawn_timer (n : Z) (s : t) : t :=
  mk (running s) (playing s) (player s) (background s) (scroll_speed s)
     n (coin_timer s) (power_timer s)
     (obstacles s) (coins s) (powerups s) (score s) (distance s)
     (highscore s) (game_over s)
     (obstacle_store s) (coin_store s) (powerup_store s) (next_ref s).

Definition set_coin_timer (n : Z) (s : t) : t :=
  mk (running s) (playing s) (player s) (background s) (scroll_speed s)
     (spawn_timer s) n (power_timer s)
     (obstacles s) (coins s) (powerups s) (score s) (distance s)
     (highscore s) (game_over s)
     (obstacle_store s) (coin_store s) (powerup_store s) (next_ref s).

Definition set_power_timer (n : Z) (s : t) : t :=
  mk (running s) (playing s) (player s) (background s) (scroll_speed s)
     (spawn_timer s) (coin_timer s) n
     (obstacles s) (coins s) (powerups s) (score s) (distance s)
     (highscore s) (game_over s)
     (obstacle_store s) (coin_store s) (powerup_store s) (next_ref s).

Definition set_obstacles (l : list ref) (s : t) : t :=
  mk (running s) (playing s) (player s) (background s) (scroll_speed s)
     (spawn_timer s) (coin_timer s) (power_timer s)
     l (coins s) (powerups s) (score s) (distance s)
     (highscore s) (game_over s)
     (obstacle_store s) (coin_store s) (powerup_store s) (next_ref s).

Definition set_coins (l : list ref) (s : t) : t :=
  mk (running s) (playing s) (player s) (background s) (scroll_speed s)
     (spawn_timer s) (coin_timer s) (power_timer s)
     (obstacles s) l (powerups s) (score s) (distance s)
     (highscore s) (game_over s)
     (obstacle_store s) (coin_store s) (powerup_store s) (next_ref s).

Definition set_powerups (l : list ref) (s : t) : t :=
  mk (running s) (playing s) (player s) (background s) (scroll_speed s)
     (spawn_timer s) (coin_timer s) (power_timer s)
     (obstacles s) (coins s) l (score s) (distance s)
     (highscore s) (game_over s)
     (obstacle_store s) (coin_store s) (powerup_store s) (next_ref s).

Definition set_score (n : Z) (s : t) : t :=
  mk (running s) (playing s) (player s) (background s) (scroll_speed s)
     (spawn_timer s) (coin_timer s) (power_timer s)
     (obstacles s) (coins s) (powerups s) n (distance s)
     (highscore s) (game_over s)
     (obstacle_store s) (coin_store s) (powerup_store s) (next_ref s).

Definition set_distance (v : Q) (s : t) : t :=
  mk (running s) (playing s) (player s) (background s) (scroll_speed s)
     (spawn_timer s) (coin_timer s) (power_timer s)
     (obstacles s) (coins s) (powerups s) (score s) v
     (highscore s) (game_over s)
     (obstacle_store s) (coin_store s) (powerup_store s) (next_ref s).

Definition set_highscore (n : Z) (s : t) : t :=
  mk (running s) (playing s) (player s) (background s) (scroll_speed s)
     (spawn_timer s) (coin_timer s) (power_timer s)
     (obstacles s) (coins s) (powerups s) (score s) (distance s)
     n (game_over s)
     (obstacle_store s) (coin_store s) (powerup_store s) (next_ref s).

Definition set_game_over (b : bool) (s : t) : t :=
  mk (running s) (playing s) (player s) (background s) (scroll_speed s)
     (spawn_timer s) (coin_timer s) (power_timer s)
     (obstacles s) (coins s) (powerups s) (score s) (distance s)
     (highscore s) b
     (obstacle_store s) (coin_store s) (powerup_store s) (next_ref s).

(** A write to an attribute of the obstacle [r] refers to. *)
Definition write_obstacle (r : ref) (o : Obstacle.t) (s : t) : t :=
  mk (running s) (playing s) (player s) (background s) (scroll_speed s)
     (spawn_timer s) (coin_timer s) (power_timer s)
     (obstacles s) (coins s) (powerups s) (score s) (distance s)
     (highscore s) (game_over s)
     (<[r := o]> (obstacle_store s)) (coin_store s) (powerup_store s)
     (next_ref s).

Definition write_coin (r : ref) (c : Coin.t) (s : t) : t :=
  mk (running s) (playing s) (player s) (background s) (scroll_speed s)
     (spawn_timer s) (coin_timer s) (power_timer s)
     (obstacles s) (coins s) (powerups s) (score s) (distance s)
     (highscore s) (game_over s)
     (obstacle_store s) (<[r := c]> (coin_store s)) (powerup_store s)
     (next_ref s).

Definition write_powerup (r : ref) (p : PowerUp.t) (s : t) : t :=
  mk (running s) (playing s) (player s) (background s) (scroll_speed s)
     (spawn_timer s) (coin_timer s) (power_timer s)
     (obstacles s) (coins s) (powerups s) (score s) (distance s)
     (highscore s) (game_over s)
     (obstacle_store s) (coin_store s) (<[r := p]> (powerup_store s))
     (next_ref s).

(** Allocation: the constructor call returns the next unused reference. *)
Definition bump_ref (s : t) : t :=
  mk (running s) (playing s) (player s) (background s) (scroll_speed s)
     (spawn_timer s) (coin_timer s) (power_timer s)
     (obstacles s) (coins s) (powerups s) (score s) (distance s)
     (highscore s) (game_over s)
     (obstacle_store s) (coin_store s) (powerup_store s) (S (next_ref s)).

(** [ItrikSurfers.reset].  The objects the cleared lists referred to stay in
    the stores as garbage: no list names them any more. *)
Definition reset (s : t) : t :=
  {| running := running s; playing := playing s;
     player := Player.init; background := background s;
     scroll_speed := 6; spawn_timer := 0; coin_timer := 0; power_timer := 0;
     obstacles := []; coins := []; powerups := [];
     score := 0; distance := 0; highscore := highscore s;
     game_over := false;
     obstacle_store := obstacle_store s; coin_store := coin_store s;
     powerup_store := powerup_store s; next_ref := next_ref s |}.

(** [spawn_obstacle], with the three values drawn. *)
Definition spawn_obstacle (w h dx : Z) (s : t) : t :=
  let r := next_ref s in
  let o := Obstacle.init (WIDTH + dx) w h (scroll_speed s) in
  bump_ref (set_obstacles (obstacles s ++ [r]) (write_obstacle r o s)).

(** [spawn_coin] *)
Definition spawn_coin (dx y : Z) (s : t) : t :=
  let r := next_ref s in
  let c := Coin.init (WIDTH + dx) y (scroll_speed s) in
  bump_ref (set_coins (coins s ++ [r]) (write_coin r c s)).

(** [spawn_powerup] *)
Definition spawn_powerup (dx y : Z) (s : t) : t :=
  let r := next_ref s in
  let p := PowerUp.init (WIDTH + dx) y (scroll_speed s) "shield" in
  bump_ref (set_powerups (powerups s ++ [r]) (write_powerup r p s)).

(** *** [update], phase by phase *)

(** Lines 227-229: difficulty ramp, distance, background. *)
Definition ramp (s : t) : t :=
  let s := set_scroll_speed (scroll_speed s + difficulty_increment)%Q s in
  let s := set_distance (distance s + scroll_speed s / 10)%Q s in
  set_background (Background.update (scroll_speed s) (background s)) s.

(** Lines 232-235: the obstacle timer. *)
Definition tick_spawn_timer (d : Draws) (s : t) : t :=
  let s := set_spawn_timer (spawn_timer s + 1) s in
  if Z.max 18 (70 - py_int (scroll_speed s * 3)%Q) <? spawn_timer s
  then set_spawn_timer 0 (spawn_obstacle (ob_w d) (ob_h d) (ob_dx d) s)
  else s.

(** Lines 237-240: the coin timer. *)
Definition tick_coin_timer (d : Draws) (s : t) : t :=
  let s := set_coin_timer (coin_timer s + 1) s in
  if 40 <? coin_timer s
  then set_coin_timer 0 (spawn_coin (coin_dx d) (coin_y d) s)
  else s.

(** Lines 242-245: the power-up timer. *)
Definition tick_power_timer (d : Draws) (s : t) : t :=
  let s := set_power_timer (power_timer s + 1) s in
  if 900 <? power_timer s
  then set_power_timer 0 (spawn_powerup (pw_dx d) (pw_y d) s)
  else s.

(** Lines 232-245: the three spawn timers, in this order. *)
Definition spawn_phase (d : Draws) (s : t) : t :=
  tick_power_timer d (tick_coin_timer d (tick_spawn_timer d s)).

(** Line 248. *)
Definition update_player (s : t) : t :=
  set_player (Player.update (player s)) s.

(** [self.obstacles.remove(ob)] outside a [try]: can raise. *)
Definition remove_obstacle (r : ref) (s : t) : option t :=
  l ← list_remove r (obstacles s); Some (set_obstacles l s).

(** [try: self.obstacles.remove(ob) except: pass] *)
Definition try_remove_obstacle (r : ref) (s : t) : t :=
  match list_remove r (obstacles s) with
  | Some l => set_obstacles l s
  | None => s
  end.

Definition remove_coin (r : ref) (s : t) : option t :=
  l ← list_remove r (coins s); Some (set_coins l s).

Definition try_remove_coin (r : ref) (s : t) : t :=
  match list_remove r (coins s) with
  | Some l => set_coins l s
  | None => s
  end.

Definition remove_powerup (r : ref) (s : t) : option t :=
  l ← list_remove r (powerups s); Some (set_powerups l s).

Definition try_remove_powerup (r : ref) (s : t) : t :=
  match list_remove r (powerups s) with
  | Some l => set_powerups l s
  | None => s
  end.

(** Lines 252-253: the speed is written into the object, then it moves. *)
Definition moved_obstacle (v : Q) (o : Obstacle.t) : Obstacle.t :=
  Obstacle.update (Obstacle.set_speed v o).

(** Lines 269-271, for the object already moved: the score awarded and the
    flag afterwards. *)
Definition pass_award (px : Z) (o : Obstacle.t) : Z :=
  if negb (Obstacle.passed o) && (Rect.right (Obstacle.rect o) <? px)
  then 5 else 0.

Definition pass_mark (px : Z) (o : Obstacle.t) : Obstacle.t :=
  if negb (Obstacle.passed o) && (Rect.right (Obstacle.rect o) <? px)
  then Obstacle.set_passed true o else o.

(** Lines 252-271: the body of the obstacle loop for the object [r]. *)
Definition obstacle_body (r : ref) (s : t) : option t :=
  o ← obstacle_store s !! r;
  let o := moved_obstacle (scroll_speed s) o in
  let s := write_obstacle r o s in
  s ← (if Rect.right (Obstacle.rect o) <? -50
       then remove_obstacle r s else Some s);
  let s :=
    if Rect.colliderect (Obstacle.rect o) (Player.rect (player s)) then
      if Player.shield (player s) <=? 0
      then set_playing false (set_game_over true s)
      else try_remove_obstacle r s
    else s in
  if negb (Obstacle.passed o)
     && (Rect.right (Obstacle.rect o) <? Player.x (player s))
  then Some (set_score (score s + 5)
               (write_obstacle r (Obstacle.set_passed true o) s))
  else Some s.

(** Lines 275-276. *)
Definition moved_coin (v : Q) (c : Coin.t) : Coin.t :=
  Coin.update (Coin.set_speed v c).

(** Lines 275-285: the body of the coin loop. *)
Definition coin_body (r : ref) (s : t) : option t :=
  c ← coin_store s !! r;
  let c := moved_coin (scroll_speed s) c in
  let s := write_coin r c s in
  s ← (if Coin.x c <? -50 then remove_coin r s else Some s);
  if Rect.colliderect (Coin.rect c) (Player.rect (player s))
     && negb (Coin.collected c)
  then Some (try_remove_coin r
               (set_score (score s + 10)
                  (write_coin r (Coin.set_collected true c) s)))
  else Some s.

(** Lines 289-290. *)
Definition moved_powerup (v : Q) (p : PowerUp.t) : PowerUp.t :=
  PowerUp.update (PowerUp.set_speed v p).

(** Lines 289-299: the body of the power-up loop. *)
Definition powerup_body (r : ref) (s : t) : option t :=
  p ← powerup_store s !! r;
  let p := moved_powerup (scroll_speed s) p in
  let s := write_powerup r p s in
  s ← (if PowerUp.x p <? -50 then remove_powerup r s else Some s);
  if Rect.colliderect (PowerUp.rect p) (Player.rect (player s)) then
    let s :=
      if String.eqb (PowerUp.kind p) "shield"
      then set_player (Player.set_shield (FPS * 3) (player s)) s
      else s in
    Some (try_remove_powerup r s)
  else Some s.

(** The three loops, each over the snapshot [lst[:]] taken when it starts. *)
Definition obstacle_loop (s : t) : option t :=
  for_each obstacle_body (obstacles s) s.

Definition coin_loop (s : t) : option t :=
  for_each coin_body (coins s) s.

Definition powerup_loop (s : t) : option t :=
  for_each powerup_body (powerups s) s.

(** Line 302. *)
Definition speed_bonus (s : t) : t :=
  set_score (score s + py_int (scroll_speed s / 250)%Q) s.

(** The state in which the loops start: lines 227-248. *)
Definition before_loops (d : Draws) (s : t) : t :=
  update_player (spawn_phase d (ramp s)).

(** [ItrikSurfers.update]; [None] is an exception escaping the call. *)
Definition update (d : Draws) (s : t) : option t :=
  if negb (playing s) then Some s
  else
    s1 ← obstacle_loop (before_loops d s);
    s2 ← coin_loop s1;
    s3 ← powerup_loop s2;
    Some (speed_bonus s3).

(** [game_over_screen], as far as it changes state: the session and the
    high-score file. *)
Definition game_over_screen (s : t) (f : HighscoreFile.t)
    : t * HighscoreFile.t :=
  if highscore s <? score s
  then (set_highscore (score s) s, HighscoreFile.save_highscore (score s) f)
  else (s, f).

(** *** Closed forms of the loop bodies

    What one iteration leaves behind, written as one record.  The lemmas
    [obstacle_body_eq], [coin_body_eq] and [powerup_body_eq] show that the
    bodies above compute exactly these. *)

(** [try: l.remove(r) except: pass] on the list alone. *)
Definition try_remove (r : ref) (l : list ref) : list ref :=
  default l (list_remove r l).

Definition obstacle_result (r : ref) (o : Obstacle.t) (s : t) : t :=
  let o' := moved_obstacle (scroll_speed s) o in
  let off := Rect.right (Obstacle.rect o') <? -50 in
  let hit := Rect.colliderect (Obstacle.rect o') (Player.rect (player s)) in
  let dead := hit && (Player.shield (player s) <=? 0) in
  let broken := hit && negb (Player.shield (player s) <=? 0) in
  let l1 := if off then try_remove r (obstacles s) else obstacles s in
  let l2 := if broken then try_remove r l1 else l1 in
  mk (running s) (playing s && negb dead) (player s) (background s)
     (scroll_speed s) (spawn_timer s) (coin_timer s) (power_timer s)
     l2 (coins s) (powerups s)
     (score s + pass_award (Player.x (player s)) o') (distance s)
     (highscore s) (game_over s || dead)
     (<[r := pass_mark (Player.x (player s)) o']> (obstacle_store s))
     (coin_store s) (powerup_store s) (next_ref s).

Definition coin_result (r : ref) (c : Coin.t) (s : t) : t :=
  let c' := moved_coin (scroll_speed s) c in
  let off := Coin.x c' <? -50 in
  let got := Rect.colliderect (Coin.rect c') (Player.rect (player s))
             && negb (Coin.collected c') in
  let l1 := if off then try_remove r (coins s) else coins s in
  let l2 := if got then try_remove r l1 else l1 in
  mk (running s) (playing s) (player s) (background s)
     (scroll_speed s) (spawn_timer s) (coin_timer s) (power_timer s)
     (obstacles s) l2 (powerups s)
     (score s + (if got then 10 else 0)) (distance s)
     (highscore s) (game_over s)
     (obstacle_store s)
     (<[r := if got then Coin.set_collected true c' else c']> (coin_store s))
     (powerup_store s) (next_ref s).

Definition powerup_result (r : ref) (p : PowerUp.t) (s : t) : t :=
  let p' := moved_powerup (scroll_speed s) p in
  let off := PowerUp.x p' <? -50 in
  let hit := Rect.colliderect (PowerUp.rect p') (Player.rect (player s)) in
  let l1 := if off then try_remove r (powerups s) else powerups s in
  let l2 := if hit then try_remove r l1 else l1 in
  mk (running s) (playing s)
     (if hit && String.eqb (PowerUp.kind p') "shield"
      then Player.set_shield (FPS * 3) (player s) else player s)
     (background s)
     (scroll_speed s) (spawn_timer s) (coin_timer s) (power_timer s)
     (obstacles s) (coins s) l2
     (score s) (distance s) (highscore s) (game_over s)
     (obstacle_store s) (coin_store s)
     (<[r := p']> (powerup_store s)) (next_ref s).

(** *** Well-formed sessions

    Every list holds distinct references, each to an object of its store,
    all allocated already. *)
Definition refs_ok {A : Type} (l : list ref) (m : gmap nat A) (n : nat)
    : Prop :=
  NoDup l /\ forall r, r ∈ l -> is_Some (m !! r) /\ (r < n)%nat.

Definition wf (s : t) : Prop :=
  refs_ok (obstacles s) (obstacle_store s) (next_ref s) /\
  refs_ok (coins s) (coin_store s) (next_ref s) /\
  refs_ok (powerups s) (powerup_store s) (next_ref s).

(** *** Reachable sessions

    The operations the program applies to a session object: the methods
    called by [main] and the attribute writes [main] makes itself. *)
Inductive step : t -> t -> Prop :=
| step_update d s s' : update d s = Some s' -> step s s'
| step_reset s : step s (reset s)
| step_playing s : step s (set_playing true s)
| step_quit s : step s (set_running false s)
| step_jump s : step s (set_player (Player.jump (player s)) s)
| step_game_over_screen f s : step s (fst (game_over_screen s f)).

Inductive reachable : t -> Prop :=
| reach_init hs : reachable (init hs)
| reach_step s s' : reachable s -> step s s' -> reachable s'.

(** Any number of those operations, one after the other. *)
Inductive steps : t -> t -> Prop :=
| steps_refl s : steps s s
| steps_step s s' s'' : steps s s' -> step s' s'' -> steps s s''.

(** *** One obstacle over the ticks of a session *)

(** The obstacle [r] as the obstacle loop of the tick [update d s] has it
    once moved (lines 252-253); [None] when the loop of that tick does not
    visit [r]. *)
Definition visit (d : Draws) (s : t) (r : ref) : option Obstacle.t :=
  if playing s then
    if bool_decide (r ∈ obstacles (before_loops d s))
    then moved_obstacle (scroll_speed (before_loops d s))
           <$> obstacle_store (before_loops d s) !! r
    else None
  else None.

(** Lines 269-271 in that tick, for [r]: whether its right edge is left of
    the player's [x], and the points the loop adds to the score for it. *)
Definition tick_crosses (d : Draws) (s : t) (r : ref) : bool :=
  match visit d s r with
  | Some o =>
      Rect.right (Obstacle.rect o) <? Player.x (player (before_loops d s))
  | None => false
  end.

Definition tick_award (d : Draws) (s : t) (r : ref) : Z :=
  match visit d s r with
  | Some o => pass_award (Player.x (player (before_loops d s))) o
  | None => 0
  end.

(** The [passed] flag of the object [r] refers to, as the store has it. *)
Definition flagged (s : t) (r : ref) : bool :=
  match obstacle_store s !! r with
  | Some o => Obstacle.passed o
  | None => false
  end.

(** What [f] gives in each of the consecutive ticks [update d1],
    [update d2], ... of a session. *)
Fixpoint trace {A : Type} (f : Draws -> t -> A) (ds : list Draws) (s : t)
    : list A :=
  match ds with
  | [] => []
  | d :: ds' =>
      f d s :: match update d s with
               | Some s' => trace f ds' s'
               | None => []
               end
  end.

(** *** Frames of the loops

    The attributes no loop body writes, and what each loop leaves alone. *)
Definition same_globals (s s' : t) : Prop :=
  running s' = running s /\ scroll_speed s' = scroll_speed s /\
  highscore s' = highscore s /\ next_ref s' = next_ref s /\
  distance s' = distance s /\ background s' = background s /\
  spawn_timer s' = spawn_timer s /\ coin_timer s' = coin_timer s /\
  power_timer s' = power_timer s /\
  Player.x (player s') = Player.x (player s) /\
  Player.rect (player s') = Player.rect (player s).

Definition obstacle_frame (s s' : t) : Prop :=
  same_globals s s' /\ player s' = player s /\
  coins s' = coins s /\ powerups s' = powerups s /\
  coin_store s' = coin_store s /\ powerup_store s' = powerup_store s.

Definition coin_frame (s s' : t) : Prop :=
  same_globals s s' /\ player s' = player s /\
  playing s' = playing s /\ game_over s' = game_over s /\
  obstacles s' = obstacles s /\ powerups s' = powerups s /\
  obstacle_store s' = obstacle_store s /\
  powerup_store s' = powerup_store s.

Definition powerup_frame (s s' : t) : Prop :=
  same_globals s s' /\ score s' = score s /\
  playing s' = playing s /\ game_over s' = game_over s /\
  obstacles s' = obstacles s /\ coins s' = coins s /\
  obstacle_store s' = obstacle_store s /\ coin_store s' = coin_store s.

(** *** Score of one pass of the obstacle loop

    The sum, over the references of the snapshot, of what lines 269-271
    award for the object once it has moved. *)
Definition loop_awards (s : t) (xs : list ref) : Z :=
  foldr (fun r acc =>
           match obstacle_store s !! r with
           | Some o => pass_award (Player.x (player s))
                         (moved_obstacle (scroll_speed s) o)
           | None => 0
           end + acc) 0 xs.

(** What lets a loop over the snapshot [xs] run without raising: distinct
    references, each still in the live list and in the store. *)
Definition loop_ready {A : Type} (live : t -> list ref)
    (store : t -> gmap nat A) (xs : list ref) (s : t) : Prop :=
  NoDup xs /\ forall r, r ∈ xs -> r ∈ live s /\ is_Some (store s !! r).

(** *** Score of one pass of the coin loop *)

(** Lines 279: the test that collects the coin, for the coin as the loop
    finds it. *)
Definition coin_got (s : t) (c : Coin.t) : bool :=
  Rect.colliderect (Coin.rect (moved_coin (scroll_speed s) c))
    (Player.rect (player s))
  && negb (Coin.collected (moved_coin (scroll_speed s) c)).

Definition coin_awards (s : t) (xs : list ref) : Z :=
  foldr (fun r acc =>
           match coin_store s !! r with
           | Some c => if coin_got s c then 10 else 0
           | None => 0
           end + acc) 0 xs.

(** What the code before the loops keeps of a session: the objects already
    allocated and the membership of the three lists. *)
Definition keeps (s s' : t) : Prop :=
  (next_ref s <= next_ref s')%nat /\
  (forall r, (r < next_ref s)%nat ->
     obstacle_store s' !! r = obstacle_store s !! r /\
     coin_store s' !! r = coin_store s !! r /\
     powerup_store s' !! r = powerup_store s !! r) /\
  (forall r, r ∈ obstacles s -> r ∈ obstacles s') /\
  (forall r, r ∈ coins s -> r ∈ coins s') /\
  (forall r, r ∈ powerups s -> r ∈ powerups s').

End ItrikSurfers.

(** ** The main loop *)
Module Main.

Import ItrikSurfers.

Inductive key : Type := K_SPACE | K_r | K_q | K_p | K_other.

Inductive event : Type := QUIT | KEYDOWN (k : key) | OTHER.

(** The variables of [main] and the environment it acts on. *)
Record world : Type := mk_world {
  game : ItrikSurfers.t;
  in_start : bool;
  paused : bool;
  file : HighscoreFile.t
}.

Definition set_game (g : ItrikSurfers.t) (w : world) : world :=
  mk_world g (in_start w) (paused w) (file w).

Definition set_in_start (b : bool) (w : world) : world :=
  mk_world (game w) b (paused w) (file w).

Definition set_paused (b : bool) (w : world) : world :=
  mk_world (game w) (in_start w) b (file w).

Definition set_file (f : HighscoreFile.t) (w : world) : world :=
  mk_world (game w) (in_start w) (paused w) f.

(** Module load, then the first three lines of [main]. *)
Definition startup (f : HighscoreFile.t) : option world :=
  f' ← HighscoreFile.touch f;
  Some {| game := ItrikSurfers.init (HighscoreFile.load_highscore f');
          in_start := true; paused := false; file := f' |}.

(** Lines 384-402: the body of the event loop. *)
Definition handle_event (w : world) (e : event) : world :=
  let w :=
    match e with
    | QUIT => set_game (set_running false (game w)) w
    | _ => w
    end in
  match e with
  | KEYDOWN k =>
      if in_start w then
        match k with
        | K_SPACE => set_in_start false (set_game (set_playing true (game w)) w)
        | _ => w
        end
      else if negb (playing (game w)) && game_over (game w) then
        match k with
        | K_r => set_game (set_playing true (reset (game w))) w
        | K_q => set_game (set_running false (game w)) w
        | _ => w
        end
      else
        let w :=
          match k with
          | K_SPACE =>
              set_game (set_player (Player.jump (player (game w))) (game w)) w
          | _ => w
          end in
        match k with
        | K_p => set_paused (negb (paused w)) w
        | _ => w
        end
  | _ => w
  end.

(** Lines 404-425: what one iteration does after the events; drawing
    changes no state. *)
Definition tick (d : Draws) (w : world) : option world :=
  if in_start w then Some w
  else if paused w then Some w
  else
    g ← (if playing (game w) then update d (game w) else Some (game w));
    if game_over g then
      let '(g', f') := game_over_screen g (file w) in
      Some (set_file f' (set_game g' w))
    else Some (set_game g w).

(** One iteration of [while game.running], given the events
    [pygame.event.get()] returns and the random draws. *)
Definition frame (events : list event) (d : Draws) (w : world)
    : option world :=
  tick d (foldl handle_event w events).

(** The loop, for as many iterations as there are inputs. *)
Fixpoint run (inputs : list (list event * Draws)) (w : world)
    : option world :=
  match inputs with
  | [] => Some w
  | (es, d) :: rest =>
      if running (game w) then w' ← frame es d w; run rest w'
      else Some w
  end.

(** The worlds the program can be in at the top of the loop. *)
Inductive reachable : world -> Prop :=
| reach_startup f w : startup f = Some w -> reachable w
| reach_frame es d w w' :
    reachable w -> running (game w) = true ->
    frame es d w = Some w' -> reachable w'.

End Main.

(** ** Sample sessions

    Concrete states on which the statements below are exercised: a session
    in play at scroll speed [v] with the player standing on the ground
    under a shield timer of [sh], one obstacle (reference 0) whose left
    edge is at [ox], one coin (reference 1) at [(cx, 380)] and one power-up
    of kind [k] (reference 2) at [(ux, 380)]. *)
Module Sample.

Import ItrikSurfers.

Definition session (v : Q) (sh ox cx ux : Z) (k : string) : t :=
  {| running := true; playing := true;
     player := Player.set_shield sh Player.init;
     background := Background.init;
     scroll_speed := v; spawn_timer := 0; coin_timer := 0; power_timer := 0;
     obstacles := [0%nat]; coins := [1%nat]; powerups := [2%nat];
     score := 0; distance := 0; highscore := 0; game_over := false;
     obstacle_store := {[ 0%nat := Obstacle.init ox 40 50 v ]};
     coin_store := {[ 1%nat := Coin.init cx 380 v ]};
     powerup_store := {[ 2%nat := PowerUp.init ux 380 v k ]};
     next_ref := 3 |}.

Definition draws : Draws :=
  {| ob_w := 40; ob_h := 50; ob_dx := 60;
     coin_dx := 100; coin_y := 300; pw_dx := 300; pw_y := 300 |}.

End Sample.

(** * Properties *)

(** ** Numbers *)

Lemma py_int_inject_Z (z : Z) : py_int (inject_Z z) = z.
Proof. unfold py_int. simpl. apply Z.quot_1_r. Qed.

(** Truncation is zero strictly inside [(-1, 1)]. *)
Lemma py_int_small (q : Q) : (-1 < q)%Q -> (q < 1)%Q -> py_int q = 0.
Proof.
  destruct q as [n d]. unfold Qlt, py_int. simpl. intros Hlo Hhi.
  apply Z.quot_small_iff; [lia|].
  rewrite (Z.abs_eq (Z.pos d)) by lia. lia.
Qed.

Lemma py_int_nonneg (q : Q) : (0 <= q)%Q -> 0 <= py_int q.
Proof.
  destruct q as [n d]. unfold Qle, py_int. simpl. intros H.
  apply Z.quot_pos; lia.
Qed.

(** ** Player *)

Lemma floor_y_value : Player.floor_y = 346.
Proof. reflexivity. Qed.

(** Whatever the state before, [update] leaves the player at or above the
    resting height, and grounded exactly when at it. *)
Lemma player_update_clamped (p : Player.t) :
  (Player.y (Player.update p) <= inject_Z Player.floor_y)%Q /\
  (Player.on_ground (Player.update p) = true <->
   (Player.y (Player.update p) == inject_Z Player.floor_y)%Q).
Proof.
  unfold Player.update. cbn [Player.y Player.on_ground].
  destruct (Qle_bool (inject_Z Player.floor_y)
              (Player.y p + (Player.dy p + Player.gravity))) eqn:E.
  - split; [apply Qle_refl|]. split; [reflexivity | intros; trivial].
  - assert (H : ~ (inject_Z Player.floor_y
                   <= Player.y p + (Player.dy p + Player.gravity))%Q).
    { rewrite <- Qle_bool_iff, E. discriminate. }
    apply Qnot_le_lt in H. split; [apply Qlt_le_weak, H|].
    split; [discriminate|]. intros Heq. rewrite Heq in H.
    exfalso. exact (Qlt_irrefl _ H).
Qed.

(** The update that lands the player zeroes the velocity and gives the
    double jump back. *)
Lemma player_update_landing (p : Player.t) :
  Player.on_ground (Player.update p) = true ->
  Player.dy (Player.update p) = 0%Q /\
  Player.double_jump_allowed (Player.update p) = true.
Proof.
  unfold Player.update. cbn [Player.on_ground Player.dy
    Player.double_jump_allowed].
  intros ->. split; reflexivity.
Qed.

(** In every reachable state the player is at or above the resting height,
    and a grounded player is at it. *)
Lemma player_reachable_inv (p : Player.t) :
  Player.reachable p ->
  (Player.y p <= inject_Z Player.floor_y)%Q /\
  (Player.on_ground p = true ->
   (Player.y p == inject_Z Player.floor_y)%Q).
Proof.
  induction 1 as [|p _ _|p _ [IHy IHg]|v p _ IH].
  - split; [apply Qle_refl | reflexivity].
  - destruct (player_update_clamped p) as [Hy Hg]. split; [exact Hy|].
    apply Hg.
  - unfold Player.jump.
    destruct (Player.on_ground p) eqn:Eg;
      [|destruct (Player.double_jump_allowed p)];
      cbn [Player.y Player.on_ground];
      (split; [exact IHy | intros H; congruence]).
  - exact IH.
Qed.

(** C2, as stated, fails: [jump] clears the grounded flag while the player
    still stands at the resting height, so "grounded iff at the resting
    height" does not hold in the state right after a jump from the ground. *)
Lemma C2_grounded_iff_fails_after_jump :
  ~ (forall p : Player.t, Player.reachable p ->
       (Player.y p <= inject_Z Player.floor_y)%Q /\
       (Player.on_ground p = true <->
        (Player.y p == inject_Z Player.floor_y)%Q)).
Proof.
  intros H.
  destruct (H (Player.jump Player.init)) as [_ [_ Hback]].
  { apply Player.reach_jump, Player.reach_init. }
  assert (Hg : Player.on_ground (Player.jump Player.init) = true).
  { apply Hback. reflexivity. }
  discriminate Hg.
Qed.

(** C2, amended: in every reachable player state [y <= GROUND_Y - height]
    and a grounded player is exactly at that height; right after every call
    of [update] the grounded flag is true if and only if the player is at
    that height; and the update that lands the player zeroes the vertical
    velocity and re-enables the double jump. *)
Theorem C2_player_never_below_ground (p : Player.t) :
  Player.reachable p ->
  ((Player.y p <= inject_Z (GROUND_Y - Player.height))%Q /\
   (Player.on_ground p = true ->
    (Player.y p == inject_Z (GROUND_Y - Player.height))%Q)) /\
  ((Player.y (Player.update p) <= inject_Z (GROUND_Y - Player.height))%Q /\
   (Player.on_ground (Player.update p) = true <->
    (Player.y (Player.update p) == inject_Z (GROUND_Y - Player.height))%Q)) /\
  (Player.on_ground (Player.update p) = true ->
   Player.dy (Player.update p) = 0%Q /\
   Player.double_jump_allowed (Player.update p) = true).
Proof.
  intros Hr. split; [|split].
  - exact (player_reachable_inv p Hr).
  - exact (player_update_clamped p).
  - exact (player_update_landing p).
Qed.

Lemma C2_player_never_below_ground_witness :
  Player.reachable (Player.jump Player.init) /\
  (Player.y (Player.update (Player.jump Player.init))
   <= inject_Z (GROUND_Y - Player.height))%Q.
Proof.
  split.
  - apply Player.reach_jump, Player.reach_init.
  - apply (C2_player_never_below_ground (Player.jump Player.init)).
    apply Player.reach_jump, Player.reach_init.
Defined.

(** After a double jump the permission stays off for as long as the player
    is in the air. *)
Lemma double_jump_stays_used (k : nat) (p : Player.t) :
  Player.on_ground p = false ->
  Player.double_jump_allowed p = false ->
  let q := Nat.iter k Player.update p in
  (Player.on_ground q = false /\ Player.double_jump_allowed q = false) \/
  (Player.on_ground q = true /\
   (Player.y q == inject_Z Player.floor_y)%Q /\ (Player.dy q == 0)%Q).
Proof.
  intros Hg Hd. induction k as [|k IH]; cbn zeta in *.
  - left. split; assumption.
  - rewrite Nat.iter_succ. set (q := Nat.iter k Player.update p) in *.
    unfold Player.update.
    cbn [Player.on_ground Player.double_jump_allowed Player.y Player.dy].
    destruct (Qle_bool (inject_Z Player.floor_y)
                (Player.y q + (Player.dy q + Player.gravity))) eqn:E.
    + right. split; [reflexivity|]. split; reflexivity.
    + destruct IH as [[_ Hdq]|[_ [Hy Hdy]]].
      * left. split; [reflexivity | exact Hdq].
      * exfalso.
        assert (Hle : (inject_Z Player.floor_y
                       <= Player.y q + (Player.dy q + Player.gravity))%Q).
        { rewrite Hy, Hdy. unfold Player.gravity. lra. }
        apply Qle_bool_iff in Hle. congruence.
Qed.

(** C3: [jump] is a three-case function.  Grounded: the velocity becomes
    [jump_strength] (-16), the grounded flag is cleared and the double jump
    is enabled.  Airborne with the double jump available: the velocity
    becomes [jump_strength * 0.9] and the double jump is disabled.
    Otherwise nothing changes; in particular a third call before landing,
    after any number of updates spent in the air, changes nothing. *)
Theorem C3_jump_three_cases (p : Player.t) :
  (Player.jump_strength == (-16) # 1)%Q /\
  (Player.on_ground p = true ->
   Player.dy (Player.jump p) = Player.jump_strength /\
   Player.on_ground (Player.jump p) = false /\
   Player.double_jump_allowed (Player.jump p) = true /\
   Player.y (Player.jump p) = Player.y p /\
   Player.shield (Player.jump p) = Player.shield p) /\
  (Player.on_ground p = false -> Player.double_jump_allowed p = true ->
   Player.dy (Player.jump p) = (Player.jump_strength * (9 # 10))%Q /\
   (Player.dy (Player.jump p) == (-144) # 10)%Q /\
   Player.on_ground (Player.jump p) = false /\
   Player.double_jump_allowed (Player.jump p) = false /\
   Player.y (Player.jump p) = Player.y p /\
   Player.shield (Player.jump p) = Player.shield p) /\
  (Player.on_ground p = false -> Player.double_jump_allowed p = false ->
   Player.jump p = p) /\
  (Player.on_ground p = true ->
   forall k : nat,
     let q := Nat.iter k Player.update (Player.jump (Player.jump p)) in
     Player.on_ground q = false -> Player.jump q = q).
Proof.
  split; [reflexivity|]. split; [|split; [|split]].
  - intros Hg. unfold Player.jump. rewrite Hg. cbn. repeat split.
  - intros Hg Hd. unfold Player.jump. rewrite Hg, Hd. cbn.
    repeat split; reflexivity.
  - intros Hg Hd. unfold Player.jump. rewrite Hg, Hd. reflexivity.
  - intros Hg k q Hq.
    assert (H1 : Player.on_ground (Player.jump (Player.jump p)) = false
                 /\ Player.double_jump_allowed (Player.jump (Player.jump p))
                    = false).
    { unfold Player.jump. rewrite Hg. cbn. split; reflexivity. }
    destruct H1 as [Hg2 Hd2].
    destruct (double_jump_stays_used k _ Hg2 Hd2) as [[_ Hdq]|[Hgq _]].
    + fold q in Hdq. unfold Player.jump. rewrite Hq, Hdq. reflexivity.
    + fold q in Hgq. congruence.
Qed.

Lemma C3_jump_three_cases_witness :
  Player.on_ground Player.init = true /\
  Player.jump (Nat.iter 3 Player.update
                 (Player.jump (Player.jump Player.init)))
  = Nat.iter 3 Player.update (Player.jump (Player.jump Player.init)).
Proof.
  split; [reflexivity|].
  apply (C3_jump_three_cases Player.init); reflexivity.
Defined.

(** ** Lists of references *)

Section ListRemove.

Implicit Types (r x : nat) (l : list nat).

Lemma list_remove_Some r l : r ∈ l -> is_Some (list_remove r l).
Proof.
  induction l as [|a l IH]; intros Hin.
  - inversion Hin.
  - simpl. case_decide; [eauto|].
    apply elem_of_cons in Hin as [->|Hin]; [done|].
    destruct (IH Hin) as [l' ->]. simpl. eauto.
Qed.

Lemma list_remove_None r l : r ∉ l -> list_remove r l = None.
Proof.
  induction l as [|a l IH]; intros Hin; [done|].
  simpl. apply not_elem_of_cons in Hin as [Hne Hin].
  case_decide; [congruence|]. by rewrite IH.
Qed.

Lemma list_remove_elem r l l' x :
  list_remove r l = Some l' -> x ∈ l' -> x ∈ l.
Proof.
  revert l'. induction l as [|a l IH]; intros l' Hrm Hx; [done|].
  simpl in Hrm. case_decide.
  - simplify_eq. by apply elem_of_cons; right.
  - destruct (list_remove r l) as [l0|] eqn:E; simplify_eq/=.
    apply elem_of_cons in Hx as [->|Hx]; [by left|].
    apply elem_of_cons; right. by eapply IH.
Qed.

Lemma list_remove_other r l l' x :
  list_remove r l = Some l' -> x ≠ r -> x ∈ l -> x ∈ l'.
Proof.
  revert l'. induction l as [|a l IH]; intros l' Hrm Hne Hx; [done|].
  simpl in Hrm. case_decide.
  - simplify_eq. apply elem_of_cons in Hx as [?|Hx]; [congruence|done].
  - destruct (list_remove r l) as [l0|] eqn:E; simplify_eq/=.
    apply elem_of_cons in Hx as [->|Hx]; [by left|].
    apply elem_of_cons; right. by eapply IH.
Qed.

Lemma list_remove_NoDup r l l' :
  NoDup l -> list_remove r l = Some l' -> NoDup l' /\ r ∉ l'.
Proof.
  revert l'. induction l as [|a l IH]; intros l' Hnd Hrm; [done|].
  apply NoDup_cons in Hnd as [Ha Hnd].
  simpl in Hrm. case_decide.
  - simplify_eq. done.
  - destruct (list_remove r l) as [l0|] eqn:E; simplify_eq/=.
    destruct (IH l0 Hnd eq_refl) as [Hnd0 Hr0]. split.
    + apply NoDup_cons. split; [|done].
      intros Hin. apply Ha. by eapply list_remove_elem.
    + apply not_elem_of_cons. split; [congruence|done].
Qed.

Lemma try_remove_elem r l x :
  x ∈ ItrikSurfers.try_remove r l -> x ∈ l.
Proof.
  unfold ItrikSurfers.try_remove.
  destruct (list_remove r l) as [l'|] eqn:E; simpl; [|done].
  by eapply list_remove_elem.
Qed.

Lemma try_remove_other r l x :
  x ≠ r -> x ∈ l -> x ∈ ItrikSurfers.try_remove r l.
Proof.
  unfold ItrikSurfers.try_remove. intros Hne Hx.
  destruct (list_remove r l) as [l'|] eqn:E; simpl; [|done].
  by eapply list_remove_other.
Qed.

Lemma try_remove_NoDup r l :
  NoDup l -> NoDup (ItrikSurfers.try_remove r l).
Proof.
  unfold ItrikSurfers.try_remove. intros Hnd.
  destruct (list_remove r l) as [l'|] eqn:E; simpl; [|done].
  by destruct (list_remove_NoDup r l l' Hnd E).
Qed.

(** With distinct references, a removal leaves no occurrence behind. *)
Lemma try_remove_gone r l : NoDup l -> r ∉ ItrikSurfers.try_remove r l.
Proof.
  unfold ItrikSurfers.try_remove. intros Hnd.
  destruct (list_remove r l) as [l'|] eqn:E; simpl.
  - by destruct (list_remove_NoDup r l l' Hnd E).
  - intros Hin. apply list_remove_Some in Hin as [? ?]. congruence.
Qed.

End ListRemove.

(** ** Loops over a snapshot *)

Section ForEach.

Context {S : Type} (body : nat -> S -> option S).

Lemma for_each_app (xs ys : list nat) (s : S) :
  for_each body (xs ++ ys) s
  = s' ← for_each body xs s; for_each body ys s'.
Proof.
  revert s. induction xs as [|r xs IH]; intros s; simpl; [done|].
  destruct (body r s) as [s1|]; simpl; [apply IH | done].
Qed.

(** A reflexive and transitive relation kept by every iteration over an
    element satisfying [P] is kept by the loop. *)
Lemma for_each_invariant (P : nat -> Prop) (R : S -> S -> Prop) :
  (forall s, R s s) ->
  (forall a b c, R a b -> R b c -> R a c) ->
  (forall r s s', P r -> body r s = Some s' -> R s s') ->
  forall xs s s',
    Forall P xs -> for_each body xs s = Some s' -> R s s'.
Proof.
  intros Hrefl Htrans Hbody xs.
  induction xs as [|r xs IH]; intros s s' HP Hrun; simpl in Hrun.
  - simplify_eq. apply Hrefl.
  - apply Forall_cons in HP as [Hr HP].
    destruct (body r s) as [s1|] eqn:E; simplify_eq/=.
    eapply Htrans; [by eapply Hbody | by eapply IH].
Qed.

(** The loop over [xs] succeeds when a condition [I] that lets the body
    succeed on the elements still to come is re-established by it. *)
Lemma for_each_succeeds (I : list nat -> S -> Prop) :
  (forall r xs s, I (r :: xs) s ->
     exists s', body r s = Some s' /\ I xs s') ->
  forall xs s, I xs s -> exists s', for_each body xs s = Some s' /\ I [] s'.
Proof.
  intros Hbody xs. induction xs as [|r xs IH]; intros s HI; simpl.
  - eauto.
  - destruct (Hbody r xs s HI) as (s1 & -> & HI1). simpl. by apply IH.
Qed.

End ForEach.

(** ** The loop bodies compute their closed forms *)

Import ItrikSurfers.

(** Two sessions with the same attributes are the same session. *)
Lemma session_ext (a b : t) :
  running a = running b -> playing a = playing b -> player a = player b ->
  background a = background b -> scroll_speed a = scroll_speed b ->
  spawn_timer a = spawn_timer b -> coin_timer a = coin_timer b ->
  power_timer a = power_timer b -> obstacles a = obstacles b ->
  coins a = coins b -> powerups a = powerups b -> score a = score b ->
  distance a = distance b -> highscore a = highscore b ->
  game_over a = game_over b -> obstacle_store a = obstacle_store b ->
  coin_store a = coin_store b -> powerup_store a = powerup_store b ->
  next_ref a = next_ref b -> a = b.
Proof.
  destruct a, b. cbn [running playing player background scroll_speed
    spawn_timer coin_timer power_timer obstacles coins powerups score
    distance highscore game_over obstacle_store coin_store powerup_store
    next_ref].
  intros. subst. reflexivity.
Qed.

(** Reduces the projections of a session built by the attribute writes,
    and nothing else. *)
Ltac session_simpl :=
  cbn [running playing player background scroll_speed spawn_timer
       coin_timer power_timer obstacles coins powerups score distance
       highscore game_over obstacle_store coin_store powerup_store next_ref
       set_running set_playing set_player set_background set_scroll_speed
       set_spawn_timer set_coin_timer set_power_timer set_obstacles
       set_coins set_powerups set_score set_distance set_highscore
       set_game_over write_obstacle write_coin write_powerup bump_ref
       obstacle_result coin_result powerup_result speed_bonus
       spawn_obstacle spawn_coin spawn_powerup ramp update_player
       andb orb negb mbind option_bind].

Tactic Notation "session_simpl" "in" hyp(H) :=
  cbn [running playing player background scroll_speed spawn_timer
       coin_timer power_timer obstacles coins powerups score distance
       highscore game_over obstacle_store coin_store powerup_store next_ref
       set_running set_playing set_player set_background set_scroll_speed
       set_spawn_timer set_coin_timer set_power_timer set_obstacles
       set_coins set_powerups set_score set_distance set_highscore
       set_game_over write_obstacle write_coin write_powerup bump_ref
       obstacle_result coin_result powerup_result speed_bonus
       spawn_obstacle spawn_coin spawn_powerup ramp update_player
       andb orb negb mbind option_bind] in H.

(** Closes a leaf of the case analysis of a loop body: both sides are
    records built from the same fields. *)
Ltac body_leaf :=
  f_equal; apply session_ext; session_simpl; cbn [from_option id];
  rewrite ?insert_insert_eq, ?andb_true_r, ?andb_false_r, ?orb_false_r,
    ?orb_true_r, ?Z.add_0_r;
  reflexivity.

Lemma obstacle_body_run (r : nat) (o : Obstacle.t) (s : t) :
  obstacle_store s !! r = Some o ->
  (Rect.right (Obstacle.rect (moved_obstacle (scroll_speed s) o)) < -50 ->
   r ∈ obstacles s) ->
  obstacle_body r s = Some (obstacle_result r o s).
Proof.
  intros Hlook. unfold obstacle_body, obstacle_result.
  rewrite Hlook. cbn [mbind option_bind].
  generalize (moved_obstacle (scroll_speed s) o). intros o' Hin.
  unfold pass_award, pass_mark, remove_obstacle, try_remove_obstacle,
    try_remove.
  cbn [obstacles write_obstacle player scroll_speed].
  destruct (Rect.right (Obstacle.rect o') <? -50) eqn:Eoff.
  - apply Z.ltb_lt in Eoff.
    destruct (list_remove_Some r (obstacles s) (Hin Eoff)) as [l1 Hl1].
    rewrite Hl1.
    cbn [mbind option_bind from_option id set_obstacles write_obstacle player
           obstacles].
    destruct (Rect.colliderect (Obstacle.rect o') (Player.rect (player s)));
      destruct (Player.shield (player s) <=? 0);
      destruct (list_remove r l1);
      cbn [player set_playing set_game_over set_obstacles write_obstacle];
      destruct (negb (Obstacle.passed o')
                && (Rect.right (Obstacle.rect o') <? Player.x (player s)));
      body_leaf.
  - cbn [mbind option_bind from_option id set_obstacles write_obstacle player
           obstacles].
    destruct (Rect.colliderect (Obstacle.rect o') (Player.rect (player s)));
      destruct (Player.shield (player s) <=? 0);
      destruct (list_remove r (obstacles s));
      cbn [player set_playing set_game_over set_obstacles write_obstacle];
      destruct (negb (Obstacle.passed o')
                && (Rect.right (Obstacle.rect o') <? Player.x (player s)));
      body_leaf.
Qed.

(** A body that returns found its object in the store. *)
Lemma obstacle_body_eq (r : nat) (s s' : t) :
  obstacle_body r s = Some s' ->
  exists o, obstacle_store s !! r = Some o /\ s' = obstacle_result r o s.
Proof.
  intros Hrun.
  destruct (obstacle_store s !! r) as [o|] eqn:Hlook.
  - exists o. split; [done|].
    destruct (decide (Rect.right (Obstacle.rect
                (moved_obstacle (scroll_speed s) o)) < -50)) as [Hoff|Hon].
    + destruct (decide (r ∈ obstacles s)) as [Hin|Hout].
      * rewrite (obstacle_body_run r o s Hlook (fun _ => Hin)) in Hrun.
        congruence.
      * exfalso. unfold obstacle_body in Hrun. rewrite Hlook in Hrun.
        cbn [mbind option_bind] in Hrun.
        apply Z.ltb_lt in Hoff. rewrite Hoff in Hrun.
        unfold remove_obstacle in Hrun. cbn [obstacles write_obstacle] in Hrun.
        rewrite (list_remove_None _ _ Hout) in Hrun. discriminate Hrun.
    + rewrite (obstacle_body_run r o s Hlook) in Hrun by (intros; lia).
      congruence.
  - unfold obstacle_body in Hrun. rewrite Hlook in Hrun. discriminate Hrun.
Qed.

Lemma coin_body_run (r : nat) (c : Coin.t) (s : t) :
  coin_store s !! r = Some c ->
  (Coin.x (moved_coin (scroll_speed s) c) < -50 -> r ∈ coins s) ->
  coin_body r s = Some (coin_result r c s).
Proof.
  intros Hlook. unfold coin_body, coin_result.
  rewrite Hlook. cbn [mbind option_bind].
  generalize (moved_coin (scroll_speed s) c). intros c' Hin.
  unfold remove_coin, try_remove_coin, try_remove.
  cbn [coins write_coin player scroll_speed].
  destruct (Coin.x c' <? -50) eqn:Eoff.
  - apply Z.ltb_lt in Eoff.
    destruct (list_remove_Some r (coins s) (Hin Eoff)) as [l1 Hl1].
    rewrite Hl1.
    cbn [mbind option_bind from_option id set_coins write_coin player coins].
    destruct (Rect.colliderect (Coin.rect c') (Player.rect (player s))
              && negb (Coin.collected c'));
      cbn [coins set_score write_coin set_coins];
      destruct (list_remove r l1); body_leaf.
  - cbn [mbind option_bind from_option id set_coins write_coin player coins].
    destruct (Rect.colliderect (Coin.rect c') (Player.rect (player s))
              && negb (Coin.collected c'));
      cbn [coins set_score write_coin set_coins];
      destruct (list_remove r (coins s)); body_leaf.
Qed.

Lemma coin_body_eq (r : nat) (s s' : t) :
  coin_body r s = Some s' ->
  exists c, coin_store s !! r = Some c /\ s' = coin_result r c s.
Proof.
  intros Hrun.
  destruct (coin_store s !! r) as [c|] eqn:Hlook.
  - exists c. split; [done|].
    destruct (decide (Coin.x (moved_coin (scroll_speed s) c) < -50))
      as [Hoff|Hon].
    + destruct (decide (r ∈ coins s)) as [Hin|Hout].
      * rewrite (coin_body_run r c s Hlook (fun _ => Hin)) in Hrun.
        congruence.
      * exfalso. unfold coin_body in Hrun. rewrite Hlook in Hrun.
        cbn [mbind option_bind] in Hrun.
        apply Z.ltb_lt in Hoff. rewrite Hoff in Hrun.
        unfold remove_coin in Hrun. cbn [coins write_coin] in Hrun.
        rewrite (list_remove_None _ _ Hout) in Hrun. discriminate Hrun.
    + rewrite (coin_body_run r c s Hlook) in Hrun by (intros; lia).
      congruence.
  - unfold coin_body in Hrun. rewrite Hlook in Hrun. discriminate Hrun.
Qed.

Lemma powerup_body_run (r : nat) (p : PowerUp.t) (s : t) :
  powerup_store s !! r = Some p ->
  (PowerUp.x (moved_powerup (scroll_speed s) p) < -50 -> r ∈ powerups s) ->
  powerup_body r s = Some (powerup_result r p s).
Proof.
  intros Hlook. unfold powerup_body, powerup_result.
  rewrite Hlook. cbn [mbind option_bind].
  generalize (moved_powerup (scroll_speed s) p). intros p' Hin.
  unfold remove_powerup, try_remove_powerup, try_remove.
  cbn [powerups write_powerup player scroll_speed].
  destruct (PowerUp.x p' <? -50) eqn:Eoff.
  - apply Z.ltb_lt in Eoff.
    destruct (list_remove_Some r (powerups s) (Hin Eoff)) as [l1 Hl1].
    rewrite Hl1.
    cbn [mbind option_bind from_option id set_powerups write_powerup player
           powerups].
    destruct (Rect.colliderect (PowerUp.rect p') (Player.rect (player s)));
      destruct (String.eqb (PowerUp.kind p') "shield");
      cbn [powerups set_player write_powerup set_powerups];
      destruct (list_remove r l1); body_leaf.
  - cbn [mbind option_bind from_option id set_powerups write_powerup player
           powerups].
    destruct (Rect.colliderect (PowerUp.rect p') (Player.rect (player s)));
      destruct (String.eqb (PowerUp.kind p') "shield");
      cbn [powerups set_player write_powerup set_powerups];
      destruct (list_remove r (powerups s)); body_leaf.
Qed.

Lemma powerup_body_eq (r : nat) (s s' : t) :
  powerup_body r s = Some s' ->
  exists p, powerup_store s !! r = Some p /\ s' = powerup_result r p s.
Proof.
  intros Hrun.
  destruct (powerup_store s !! r) as [p|] eqn:Hlook.
  - exists p. split; [done|].
    destruct (decide (PowerUp.x (moved_powerup (scroll_speed s) p) < -50))
      as [Hoff|Hon].
    + destruct (decide (r ∈ powerups s)) as [Hin|Hout].
      * rewrite (powerup_body_run r p s Hlook (fun _ => Hin)) in Hrun.
        congruence.
      * exfalso. unfold powerup_body in Hrun. rewrite Hlook in Hrun.
        cbn [mbind option_bind] in Hrun.
        apply Z.ltb_lt in Hoff. rewrite Hoff in Hrun.
        unfold remove_powerup in Hrun.
        cbn [powerups write_powerup] in Hrun.
        rewrite (list_remove_None _ _ Hout) in Hrun. discriminate Hrun.
    + rewrite (powerup_body_run r p s Hlook) in Hrun by (intros; lia).
      congruence.
  - unfold powerup_body in Hrun. rewrite Hlook in Hrun. discriminate Hrun.
Qed.

(** ** The obstacle loop *)

Lemma same_globals_refl (s : t) : same_globals s s.
Proof. repeat split. Qed.

Lemma same_globals_trans (a b c : t) :
  same_globals a b -> same_globals b c -> same_globals a c.
Proof. unfold same_globals. intros H1 H2. intuition congruence. Qed.

Lemma not_elem_Forall_ne (r : nat) (xs : list nat) :
  r ∉ xs -> Forall (fun x => x ≠ r) xs.
Proof. intros H. apply Forall_forall. intros x Hx ->. done. Qed.

Lemma Forall_True (xs : list nat) : Forall (fun _ => True) xs.
Proof. apply Forall_forall. done. Qed.

Section ObstacleLoop.

Implicit Types (r : nat) (xs : list nat) (s : t).

Lemma obstacle_loop_frame xs s s' :
  for_each obstacle_body xs s = Some s' -> obstacle_frame s s'.
Proof.
  apply (for_each_invariant obstacle_body (fun _ => True) obstacle_frame).
  - intros a. unfold obstacle_frame. split; [apply same_globals_refl|done].
  - unfold obstacle_frame. intros a b c (G1 & H1) (G2 & H2).
    split; [by eapply same_globals_trans|]. intuition congruence.
  - intros r a b _ Hb. apply obstacle_body_eq in Hb as (o & _ & ->).
    unfold obstacle_frame, same_globals. cbn. repeat split.
  - apply Forall_True.
Qed.

Lemma obstacle_loop_store_other r xs s s' :
  r ∉ xs -> for_each obstacle_body xs s = Some s' ->
  obstacle_store s' !! r = obstacle_store s !! r.
Proof.
  intros Hr.
  apply (for_each_invariant obstacle_body (fun x => x ≠ r)
           (fun a b => obstacle_store b !! r = obstacle_store a !! r)).
  - done.
  - intros a b c. congruence.
  - intros x a b Hx Hb. apply obstacle_body_eq in Hb as (o & _ & ->).
    session_simpl. by rewrite lookup_insert_ne.
  - by apply not_elem_Forall_ne.
Qed.

Lemma obstacle_loop_store_dom r xs s s' :
  for_each obstacle_body xs s = Some s' ->
  is_Some (obstacle_store s !! r) -> is_Some (obstacle_store s' !! r).
Proof.
  apply (for_each_invariant obstacle_body (fun _ => True)
           (fun a b => is_Some (obstacle_store a !! r) ->
                       is_Some (obstacle_store b !! r))).
  - done.
  - intros a b c. tauto.
  - intros x a b _ Hb. apply obstacle_body_eq in Hb as (o & _ & ->).
    session_simpl. intros Hs. destruct (decide (x = r)) as [->|Hne].
    + rewrite lookup_insert_eq. eauto.
    + by rewrite lookup_insert_ne.
  - apply Forall_True.
Qed.

(** The live list only shrinks, and keeps its references distinct. *)
Lemma obstacle_result_elem r o s x :
  x ∈ obstacles (obstacle_result r o s) -> x ∈ obstacles s.
Proof.
  cbn [obstacles obstacle_result]. intros Hx. repeat case_match;
    repeat (apply try_remove_elem in Hx); done.
Qed.

Lemma obstacle_result_other r o s x :
  x ≠ r -> x ∈ obstacles s -> x ∈ obstacles (obstacle_result r o s).
Proof.
  cbn [obstacles obstacle_result]. intros Hne Hx. repeat case_match;
    repeat (apply try_remove_other; [done|]); done.
Qed.

Lemma obstacle_result_NoDup r o s :
  NoDup (obstacles s) -> NoDup (obstacles (obstacle_result r o s)).
Proof.
  cbn [obstacles obstacle_result]. intros Hnd. repeat case_match;
    repeat (apply try_remove_NoDup); done.
Qed.

Lemma obstacle_loop_elem x xs s s' :
  for_each obstacle_body xs s = Some s' ->
  x ∈ obstacles s' -> x ∈ obstacles s.
Proof.
  apply (for_each_invariant obstacle_body (fun _ => True)
           (fun a b => x ∈ obstacles b -> x ∈ obstacles a)).
  - done.
  - intros a b c. tauto.
  - intros r a b _ Hb. apply obstacle_body_eq in Hb as (o & _ & ->).
    apply obstacle_result_elem.
  - apply Forall_True.
Qed.

Lemma obstacle_loop_other x xs s s' :
  x ∉ xs -> for_each obstacle_body xs s = Some s' ->
  x ∈ obstacles s -> x ∈ obstacles s'.
Proof.
  intros Hx.
  apply (for_each_invariant obstacle_body (fun r => r ≠ x)
           (fun a b => x ∈ obstacles a -> x ∈ obstacles b)).
  - done.
  - intros a b c. tauto.
  - intros r a b Hr Hb. apply obstacle_body_eq in Hb as (o & _ & ->).
    apply obstacle_result_other. congruence.
  - by apply not_elem_Forall_ne.
Qed.

Lemma obstacle_loop_NoDup xs s s' :
  for_each obstacle_body xs s = Some s' ->
  NoDup (obstacles s) -> NoDup (obstacles s').
Proof.
  apply (for_each_invariant obstacle_body (fun _ => True)
           (fun a b => NoDup (obstacles a) -> NoDup (obstacles b))).
  - done.
  - intros a b c. tauto.
  - intros r a b _ Hb. apply obstacle_body_eq in Hb as (o & _ & ->).
    apply obstacle_result_NoDup.
  - apply Forall_True.
Qed.

(** Once the game is over it stays over for the rest of the loop. *)
Lemma obstacle_loop_over_stays xs s s' :
  for_each obstacle_body xs s = Some s' ->
  game_over s = true /\ playing s = false ->
  game_over s' = true /\ playing s' = false.
Proof.
  apply (for_each_invariant obstacle_body (fun _ => True)
           (fun a b => game_over a = true /\ playing a = false ->
                       game_over b = true /\ playing b = false)).
  - done.
  - intros a b c. tauto.
  - intros r a b _ Hb. apply obstacle_body_eq in Hb as (o & _ & ->).
    session_simpl. intros [-> ->]. done.
  - apply Forall_True.
Qed.

(** With a shield up, no iteration touches the two mode flags. *)
Lemma obstacle_loop_shielded xs s s' :
  for_each obstacle_body xs s = Some s' ->
  0 < Player.shield (player s) ->
  playing s' = playing s /\ game_over s' = game_over s.
Proof.
  intros Hrun Hsh.
  cut (0 < Player.shield (player s) ->
       0 < Player.shield (player s') /\
       playing s' = playing s /\ game_over s' = game_over s); [tauto|].
  clear Hsh. revert Hrun.
  apply (for_each_invariant obstacle_body (fun _ => True)
           (fun a b => 0 < Player.shield (player a) ->
                       0 < Player.shield (player b) /\
                       playing b = playing a /\ game_over b = game_over a)).
  - done.
  - intros a b c Hab Hbc Ha. destruct (Hab Ha) as (Hb & ? & ?).
    destruct (Hbc Hb) as (Hc & ? & ?). intuition congruence.
  - intros r a b _ Hb Ha. apply obstacle_body_eq in Hb as (o & _ & ->).
    session_simpl. split; [done|].
    assert (E : (Player.shield (player a) <=? 0) = false) by lia.
    rewrite E, andb_false_r, orb_false_r. cbn [negb].
    by rewrite andb_true_r.
  - apply Forall_True.
Qed.

Lemma obstacle_loop_succeeds xs s :
  loop_ready obstacles obstacle_store xs s ->
  exists s', for_each obstacle_body xs s = Some s'.
Proof.
  intros Hready.
  destruct (for_each_succeeds obstacle_body
              (loop_ready obstacles obstacle_store)) with (xs := xs) (s := s)
    as (s' & Hs' & _); [|done|by eauto].
  clear. intros r xs s [Hnd Hin].
  apply NoDup_cons in Hnd as [Hr Hnd].
  destruct (Hin r) as [Hlive [o Ho]]; [by left|].
  exists (obstacle_result r o s). split.
  - apply obstacle_body_run; [done|]. by intros _.
  - split; [done|]. intros x Hx.
    destruct (Hin x) as [Hxl Hxs]; [by right|]. split.
    + apply obstacle_result_other; [|done]. intros ->. done.
    + cbn. rewrite lookup_insert_ne; [done|]. intros ->. done.
Qed.

Lemma loop_awards_ext xs s s' :
  (forall r, r ∈ xs -> obstacle_store s' !! r = obstacle_store s !! r) ->
  player s' = player s -> scroll_speed s' = scroll_speed s ->
  loop_awards s' xs = loop_awards s xs.
Proof.
  intros Hst Hp Hv. unfold loop_awards. rewrite Hp, Hv.
  induction xs as [|r xs IH]; [done|].
  cbn [foldr]. rewrite Hst by (by left). f_equal.
  apply IH. intros x Hx. apply Hst. by right.
Qed.

(** The score after the loop is the score before plus 5 for every object
    of the snapshot that passes the player in this tick. *)
Lemma obstacle_loop_score xs s s' :
  NoDup xs -> for_each obstacle_body xs s = Some s' ->
  score s' = score s + loop_awards s xs.
Proof.
  revert s. induction xs as [|r xs IH]; intros s Hnd Hrun.
  - cbn in *. simplify_eq. lia.
  - apply NoDup_cons in Hnd as [Hr Hnd]. cbn [for_each] in Hrun.
    destruct (obstacle_body r s) as [s1|] eqn:Hb; [|done].
    cbn [mbind option_bind] in Hrun.
    apply obstacle_body_eq in Hb as (o & Ho & ->).
    rewrite (IH _ Hnd Hrun).
    rewrite (loop_awards_ext xs s (obstacle_result r o s)).
    + session_simpl. unfold loop_awards. cbn [foldr]. rewrite Ho. lia.
    + intros x Hx. session_simpl. rewrite lookup_insert_ne; [done|].
      intros ->. done.
    + done.
    + done.
Qed.

(** What the loop does to the object [r] of its snapshot. *)
Lemma obstacle_loop_at r o xs s s' :
  NoDup xs -> r ∈ xs -> obstacle_store s !! r = Some o ->
  for_each obstacle_body xs s = Some s' ->
  let o' := moved_obstacle (scroll_speed s) o in
  let hit := Rect.colliderect (Obstacle.rect o') (Player.rect (player s)) in
  obstacle_store s' !! r = Some (pass_mark (Player.x (player s)) o') /\
  (hit = true -> Player.shield (player s) <= 0 ->
   game_over s' = true /\ playing s' = false) /\
  (NoDup (obstacles s) -> hit = true -> 0 < Player.shield (player s) ->
   r ∉ obstacles s') /\
  (NoDup (obstacles s) -> Rect.right (Obstacle.rect o') < -50 ->
   r ∉ obstacles s').
Proof.
  intros Hnd Hin Ho Hrun o' hit. subst hit o'.
  apply list_elem_of_split in Hin as (pre & post & ->).
  apply NoDup_app in Hnd as (_ & Hpre & Hpost).
  apply NoDup_cons in Hpost as [Hpost _].
  assert (Hrpre : r ∉ pre).
  { intros Hx. apply (Hpre r Hx). by left. }
  rewrite for_each_app in Hrun.
  destruct (for_each obstacle_body pre s) as [sa|] eqn:Ha; [|done].
  cbn [mbind option_bind for_each] in Hrun.
  destruct (obstacle_body r sa) as [sb|] eqn:Hb; [|done].
  cbn [mbind option_bind] in Hrun.
  destruct (obstacle_loop_frame _ _ _ Ha) as (Hg & Hpl & _).
  destruct Hg as (_ & Hv & _).
  apply obstacle_body_eq in Hb as (o0 & Ho0 & ->).
  rewrite (obstacle_loop_store_other r pre s sa Hrpre Ha), Ho in Ho0.
  simplify_eq.
  split; [|split; [|split]].
  - rewrite (obstacle_loop_store_other r post _ s' Hpost Hrun).
    session_simpl. rewrite lookup_insert_eq, Hv, Hpl. done.
  - intros Hhit Hsh.
    apply (obstacle_loop_over_stays _ _ _ Hrun).
    session_simpl. rewrite Hv, Hpl, Hhit.
    assert (E : (Player.shield (player s) <=? 0) = true) by lia.
    rewrite E. cbn [andb negb]. by rewrite orb_true_r, andb_false_r.
  - intros Hlive Hhit Hsh Hx.
    apply (obstacle_loop_elem _ _ _ _ Hrun) in Hx. revert Hx.
    session_simpl. rewrite Hv, Hpl, Hhit.
    assert (E : (Player.shield (player s) <=? 0) = false) by lia.
    rewrite E. cbn [andb negb].
    apply try_remove_gone.
    pose proof (obstacle_loop_NoDup _ _ _ Ha Hlive) as Hnda.
    case_match; [by apply try_remove_NoDup | done].
  - intros Hlive Hoff Hx.
    apply (obstacle_loop_elem _ _ _ _ Hrun) in Hx. revert Hx.
    session_simpl. rewrite Hv, Hpl.
    apply Z.ltb_lt in Hoff. rewrite Hoff.
    pose proof (obstacle_loop_NoDup _ _ _ Ha Hlive) as Hnda.
    case_match.
    + intros Hx. apply try_remove_elem in Hx. revert Hx.
      by apply try_remove_gone.
    + by apply try_remove_gone.
Qed.

End ObstacleLoop.

(** ** The coin loop *)

Section CoinLoop.

Implicit Types (r : nat) (xs : list nat) (s : t).

Lemma coin_loop_frame xs s s' :
  for_each coin_body xs s = Some s' -> coin_frame s s'.
Proof.
  apply (for_each_invariant coin_body (fun _ => True) coin_frame).
  - intros a. unfold coin_frame. split; [apply same_globals_refl|done].
  - unfold coin_frame. intros a b c (G1 & H1) (G2 & H2).
    split; [by eapply same_globals_trans|]. intuition congruence.
  - intros r a b _ Hb. apply coin_body_eq in Hb as (c & _ & ->).
    unfold coin_frame, same_globals. cbn. repeat split.
  - apply Forall_True.
Qed.

Lemma coin_loop_store_other r xs s s' :
  r ∉ xs -> for_each coin_body xs s = Some s' ->
  coin_store s' !! r = coin_store s !! r.
Proof.
  intros Hr.
  apply (for_each_invariant coin_body (fun x => x ≠ r)
           (fun a b => coin_store b !! r = coin_store a !! r)).
  - done.
  - intros a b c. congruence.
  - intros x a b Hx Hb. apply coin_body_eq in Hb as (c & _ & ->).
    session_simpl. by rewrite lookup_insert_ne.
  - by apply not_elem_Forall_ne.
Qed.

Lemma coin_loop_store_dom r xs s s' :
  for_each coin_body xs s = Some s' ->
  is_Some (coin_store s !! r) -> is_Some (coin_store s' !! r).
Proof.
  apply (for_each_invariant coin_body (fun _ => True)
           (fun a b => is_Some (coin_store a !! r) ->
                       is_Some (coin_store b !! r))).
  - done.
  - intros a b c. tauto.
  - intros x a b _ Hb. apply coin_body_eq in Hb as (c & _ & ->).
    session_simpl. intros Hs. destruct (decide (x = r)) as [->|Hne].
    + rewrite lookup_insert_eq. eauto.
    + by rewrite lookup_insert_ne.
  - apply Forall_True.
Qed.

Lemma coin_result_elem r c s x :
  x ∈ coins (coin_result r c s) -> x ∈ coins s.
Proof.
  cbn [coins coin_result]. intros Hx. repeat case_match;
    repeat (apply try_remove_elem in Hx); done.
Qed.

Lemma coin_result_other r c s x :
  x ≠ r -> x ∈ coins s -> x ∈ coins (coin_result r c s).
Proof.
  cbn [coins coin_result]. intros Hne Hx. repeat case_match;
    repeat (apply try_remove_other; [done|]); done.
Qed.

Lemma coin_result_NoDup r c s :
  NoDup (coins s) -> NoDup (coins (coin_result r c s)).
Proof.
  cbn [coins coin_result]. intros Hnd. repeat case_match;
    repeat (apply try_remove_NoDup); done.
Qed.

Lemma coin_loop_elem x xs s s' :
  for_each coin_body xs s = Some s' -> x ∈ coins s' -> x ∈ coins s.
Proof.
  apply (for_each_invariant coin_body (fun _ => True)
           (fun a b => x ∈ coins b -> x ∈ coins a)).
  - done.
  - intros a b c. tauto.
  - intros r a b _ Hb. apply coin_body_eq in Hb as (c & _ & ->).
    apply coin_result_elem.
  - apply Forall_True.
Qed.

Lemma coin_loop_NoDup xs s s' :
  for_each coin_body xs s = Some s' ->
  NoDup (coins s) -> NoDup (coins s').
Proof.
  apply (for_each_invariant coin_body (fun _ => True)
           (fun a b => NoDup (coins a) -> NoDup (coins b))).
  - done.
  - intros a b c. tauto.
  - intros r a b _ Hb. apply coin_body_eq in Hb as (c & _ & ->).
    apply coin_result_NoDup.
  - apply Forall_True.
Qed.

Lemma coin_loop_succeeds xs s :
  loop_ready coins coin_store xs s ->
  exists s', for_each coin_body xs s = Some s'.
Proof.
  intros Hready.
  destruct (for_each_succeeds coin_body (loop_ready coins coin_store))
    with (xs := xs) (s := s) as (s' & Hs' & _); [|done|by eauto].
  clear. intros r xs s [Hnd Hin].
  apply NoDup_cons in Hnd as [Hr Hnd].
  destruct (Hin r) as [Hlive [c Hc]]; [by left|].
  exists (coin_result r c s). split.
  - apply coin_body_run; [done|]. by intros _.
  - split; [done|]. intros x Hx.
    destruct (Hin x) as [Hxl Hxs]; [by right|]. split.
    + apply coin_result_other; [|done]. intros ->. done.
    + cbn. rewrite lookup_insert_ne; [done|]. intros ->. done.
Qed.

(** What the loop does to the coin [r] of its snapshot: it has moved, and
    may have been marked collected. *)
Lemma coin_loop_at r c xs s s' :
  NoDup xs -> r ∈ xs -> coin_store s !! r = Some c ->
  for_each coin_body xs s = Some s' ->
  exists c', coin_store s' !! r = Some c' /\
    Coin.x c' = Coin.x c - py_int (scroll_speed s) /\
    Coin.speed c' = scroll_speed s /\
    Coin.rect c' = Rect.set_topleft (Coin.rect c)
                     (Coin.x c - py_int (scroll_speed s) - Coin.r)
                     (Coin.y c - Coin.r).
Proof.
  intros Hnd Hin Hc Hrun.
  apply list_elem_of_split in Hin as (pre & post & ->).
  apply NoDup_app in Hnd as (_ & Hpre & Hpost).
  apply NoDup_cons in Hpost as [Hpost _].
  assert (Hrpre : r ∉ pre).
  { intros Hx. apply (Hpre r Hx). by left. }
  rewrite for_each_app in Hrun.
  destruct (for_each coin_body pre s) as [sa|] eqn:Ha; [|done].
  cbn [mbind option_bind for_each] in Hrun.
  destruct (coin_body r sa) as [sb|] eqn:Hb; [|done].
  cbn [mbind option_bind] in Hrun.
  destruct (coin_loop_frame _ _ _ Ha) as (Hg & _).
  destruct Hg as (_ & Hv & _).
  apply coin_body_eq in Hb as (c0 & Hc0 & ->).
  rewrite (coin_loop_store_other r pre s sa Hrpre Ha), Hc in Hc0.
  simplify_eq.
  rewrite (coin_loop_store_other r post _ s' Hpost Hrun).
  cbn. rewrite lookup_insert_eq, Hv.
  eexists. split; [done|]. by case_match.
Qed.

End CoinLoop.

(** ** The power-up loop *)

Section PowerupLoop.

Implicit Types (r : nat) (xs : list nat) (s : t).

Lemma powerup_loop_frame xs s s' :
  for_each powerup_body xs s = Some s' -> powerup_frame s s'.
Proof.
  apply (for_each_invariant powerup_body (fun _ => True) powerup_frame).
  - intros a. unfold powerup_frame. split; [apply same_globals_refl|done].
  - unfold powerup_frame. intros a b c (G1 & H1) (G2 & H2).
    split; [by eapply same_globals_trans|]. intuition congruence.
  - intros r a b _ Hb. apply powerup_body_eq in Hb as (p & _ & ->).
    unfold powerup_frame, same_globals. cbn.
    repeat split; by case_match.
  - apply Forall_True.
Qed.

(** The only thing the loop does to the player is to set the shield timer
    to [FPS * 3]. *)
Lemma powerup_loop_player xs s s' :
  for_each powerup_body xs s = Some s' ->
  player s' = player s \/
  player s' = Player.set_shield (FPS * 3) (player s).
Proof.
  apply (for_each_invariant powerup_body (fun _ => True)
           (fun a b => player b = player a \/
                       player b = Player.set_shield (FPS * 3) (player a))).
  - by left.
  - intros a b c [->| ->] [->| ->]; auto.
  - intros r a b _ Hb. apply powerup_body_eq in Hb as (p & _ & ->).
    session_simpl. case_match; auto.
  - apply Forall_True.
Qed.

Lemma powerup_loop_store_other r xs s s' :
  r ∉ xs -> for_each powerup_body xs s = Some s' ->
  powerup_store s' !! r = powerup_store s !! r.
Proof.
  intros Hr.
  apply (for_each_invariant powerup_body (fun x => x ≠ r)
           (fun a b => powerup_store b !! r = powerup_store a !! r)).
  - done.
  - intros a b c. congruence.
  - intros x a b Hx Hb. apply powerup_body_eq in Hb as (p & _ & ->).
    session_simpl. by rewrite lookup_insert_ne.
  - by apply not_elem_Forall_ne.
Qed.

Lemma powerup_loop_store_dom r xs s s' :
  for_each powerup_body xs s = Some s' ->
  is_Some (powerup_store s !! r) -> is_Some (powerup_store s' !! r).
Proof.
  apply (for_each_invariant powerup_body (fun _ => True)
           (fun a b => is_Some (powerup_store a !! r) ->
                       is_Some (powerup_store b !! r))).
  - done.
  - intros a b c. tauto.
  - intros x a b _ Hb. apply powerup_body_eq in Hb as (p & _ & ->).
    session_simpl. intros Hs. destruct (decide (x = r)) as [->|Hne].
    + rewrite lookup_insert_eq. eauto.
    + by rewrite lookup_insert_ne.
  - apply Forall_True.
Qed.

Lemma powerup_result_elem r p s x :
  x ∈ powerups (powerup_result r p s) -> x ∈ powerups s.
Proof.
  cbn [powerups powerup_result]. intros Hx. repeat case_match;
    repeat (apply try_remove_elem in Hx); done.
Qed.

Lemma powerup_result_other r p s x :
  x ≠ r -> x ∈ powerups s -> x ∈ powerups (powerup_result r p s).
Proof.
  cbn [powerups powerup_result]. intros Hne Hx. repeat case_match;
    repeat (apply try_remove_other; [done|]); done.
Qed.

Lemma powerup_result_NoDup r p s :
  NoDup (powerups s) -> NoDup (powerups (powerup_result r p s)).
Proof.
  cbn [powerups powerup_result]. intros Hnd. repeat case_match;
    repeat (apply try_remove_NoDup); done.
Qed.

Lemma powerup_loop_elem x xs s s' :
  for_each powerup_body xs s = Some s' ->
  x ∈ powerups s' -> x ∈ powerups s.
Proof.
  apply (for_each_invariant powerup_body (fun _ => True)
           (fun a b => x ∈ powerups b -> x ∈ powerups a)).
  - done.
  - intros a b c. tauto.
  - intros r a b _ Hb. apply powerup_body_eq in Hb as (p & _ & ->).
    apply powerup_result_elem.
  - apply Forall_True.
Qed.

Lemma powerup_loop_NoDup xs s s' :
  for_each powerup_body xs s = Some s' ->
  NoDup (powerups s) -> NoDup (powerups s').
Proof.
  apply (for_each_invariant powerup_body (fun _ => True)
           (fun a b => NoDup (powerups a) -> NoDup (powerups b))).
  - done.
  - intros a b c. tauto.
  - intros r a b _ Hb. apply powerup_body_eq in Hb as (p & _ & ->).
    apply powerup_result_NoDup.
  - apply Forall_True.
Qed.

Lemma powerup_loop_succeeds xs s :
  loop_ready powerups powerup_store xs s ->
  exists s', for_each powerup_body xs s = Some s'.
Proof.
  intros Hready.
  destruct (for_each_succeeds powerup_body
              (loop_ready powerups powerup_store))
    with (xs := xs) (s := s) as (s' & Hs' & _); [|done|by eauto].
  clear. intros r xs s [Hnd Hin].
  apply NoDup_cons in Hnd as [Hr Hnd].
  destruct (Hin r) as [Hlive [p Hp]]; [by left|].
  exists (powerup_result r p s). split.
  - apply powerup_body_run; [done|]. by intros _.
  - split; [done|]. intros x Hx.
    destruct (Hin x) as [Hxl Hxs]; [by right|]. split.
    + apply powerup_result_other; [|done]. intros ->. done.
    + cbn. rewrite lookup_insert_ne; [done|]. intros ->. done.
Qed.

(** What the loop does to the power-up [r] of its snapshot. *)
Lemma powerup_loop_at r p xs s s' :
  NoDup xs -> r ∈ xs -> powerup_store s !! r = Some p ->
  for_each powerup_body xs s = Some s' ->
  let p' := moved_powerup (scroll_speed s) p in
  powerup_store s' !! r = Some p' /\
  (Rect.colliderect (PowerUp.rect p') (Player.rect (player s)) = true ->
   (NoDup (powerups s) -> r ∉ powerups s') /\
   (PowerUp.kind p = "shield" ->
    Player.shield (player s') = FPS * 3)).
Proof.
  intros Hnd Hin Hp Hrun p'. subst p'.
  apply list_elem_of_split in Hin as (pre & post & ->).
  apply NoDup_app in Hnd as (_ & Hpre & Hpost).
  apply NoDup_cons in Hpost as [Hpost _].
  assert (Hrpre : r ∉ pre).
  { intros Hx. apply (Hpre r Hx). by left. }
  rewrite for_each_app in Hrun.
  destruct (for_each powerup_body pre s) as [sa|] eqn:Ha; [|done].
  cbn [mbind option_bind for_each] in Hrun.
  destruct (powerup_body r sa) as [sb|] eqn:Hb; [|done].
  cbn [mbind option_bind] in Hrun.
  destruct (powerup_loop_frame _ _ _ Ha) as (Hg & _).
  destruct Hg as (_ & Hv & _ & _ & _ & _ & _ & _ & _ & _ & Hrect).
  apply powerup_body_eq in Hb as (p0 & Hp0 & ->).
  rewrite (powerup_loop_store_other r pre s sa Hrpre Ha), Hp in Hp0.
  simplify_eq.
  split.
  - rewrite (powerup_loop_store_other r post _ s' Hpost Hrun).
    session_simpl. rewrite lookup_insert_eq, Hv. done.
  - intros Hhit. split.
    + intros Hlive Hx.
      apply (powerup_loop_elem _ _ _ _ Hrun) in Hx. revert Hx.
      session_simpl. rewrite Hv, Hrect, Hhit.
      pose proof (powerup_loop_NoDup _ _ _ Ha Hlive) as Hnda.
      apply try_remove_gone. case_match; [by apply try_remove_NoDup|done].
    + intros Hkind.
      assert (Hsb : Player.shield (player (powerup_result r p0 sa))
                    = FPS * 3).
      { session_simpl. rewrite Hv, Hrect, Hhit.
        replace (PowerUp.kind (moved_powerup (scroll_speed s) p0))
          with (PowerUp.kind p0) by done.
        rewrite Hkind. done. }
      destruct (powerup_loop_player _ _ _ Hrun) as [-> | ->]; [done|].
      done.
Qed.

End PowerupLoop.

(** ** Well-formed sessions: [update] never raises *)

Section WellFormed.

Context {A : Type}.
Implicit Types (l : list nat) (m : gmap nat A) (n : nat).

Lemma refs_ok_mono l m m' n n' :
  refs_ok l m n -> (n <= n')%nat ->
  (forall r, is_Some (m !! r) -> is_Some (m' !! r)) ->
  refs_ok l m' n'.
Proof.
  intros [Hnd Hin] Hn Hm. split; [done|]. intros r Hr.
  destruct (Hin r Hr) as [Hs Hlt]. split; [by apply Hm | lia].
Qed.

Lemma refs_ok_sub l l' m n :
  refs_ok l m n -> NoDup l' -> (forall x, x ∈ l' -> x ∈ l) ->
  refs_ok l' m n.
Proof.
  intros [_ Hin] Hnd Hsub. split; [done|]. intros r Hr. by apply Hin, Hsub.
Qed.

Lemma refs_ok_alloc l m n (o : A) :
  refs_ok l m n -> refs_ok (l ++ [n]) (<[n := o]> m) (S n).
Proof.
  intros [Hnd Hin]. split.
  - apply NoDup_app. split; [done|]. split; [|apply NoDup_singleton].
    intros x Hx Hx'. apply list_elem_of_singleton in Hx' as ->.
    destruct (Hin n Hx) as [_ Hlt]. lia.
  - intros r Hr. apply elem_of_app in Hr as [Hr|Hr].
    + destruct (Hin r Hr) as [Hs Hlt]. split; [|lia].
      rewrite lookup_insert_ne by lia. done.
    + apply list_elem_of_singleton in Hr as ->.
      rewrite lookup_insert_eq. split; [eauto | lia].
Qed.

Lemma refs_ok_nil m n : refs_ok [] m n.
Proof. split; [apply NoDup_nil_2|]. intros r Hr. inversion Hr. Qed.

End WellFormed.

Lemma wf_init (hs : Z) : wf (init hs).
Proof. split; [|split]; apply refs_ok_nil. Qed.

Lemma wf_reset (s : t) : wf s -> wf (reset s).
Proof. intros _. split; [|split]; apply refs_ok_nil. Qed.

Lemma wf_spawn_obstacle (w h dx : Z) (s : t) :
  wf s -> wf (spawn_obstacle w h dx s).
Proof.
  intros (Ho & Hc & Hp). unfold wf. session_simpl.
  split; [by apply refs_ok_alloc|].
  split; eapply refs_ok_mono; eauto.
Qed.

Lemma wf_spawn_coin (dx y : Z) (s : t) : wf s -> wf (spawn_coin dx y s).
Proof.
  intros (Ho & Hc & Hp). unfold wf. session_simpl.
  split; [eapply refs_ok_mono; eauto|].
  split; [by apply refs_ok_alloc|]. eapply refs_ok_mono; eauto.
Qed.

Lemma wf_spawn_powerup (dx y : Z) (s : t) :
  wf s -> wf (spawn_powerup dx y s).
Proof.
  intros (Ho & Hc & Hp). unfold wf. session_simpl.
  split; [eapply refs_ok_mono; eauto|].
  split; [eapply refs_ok_mono; eauto|]. by apply refs_ok_alloc.
Qed.

(** Writes to attributes other than the lists and the stores keep a
    session well-formed. *)
Lemma wf_set_spawn_timer (n : Z) (s : t) : wf s -> wf (set_spawn_timer n s).
Proof. exact id. Qed.

Lemma wf_set_coin_timer (n : Z) (s : t) : wf s -> wf (set_coin_timer n s).
Proof. exact id. Qed.

Lemma wf_set_power_timer (n : Z) (s : t) : wf s -> wf (set_power_timer n s).
Proof. exact id. Qed.

Lemma wf_set_player (p : Player.t) (s : t) : wf s -> wf (set_player p s).
Proof. exact id. Qed.

Lemma wf_ramp (s : t) : wf s -> wf (ramp s).
Proof. exact id. Qed.

Lemma wf_tick_spawn_timer (d : Draws) (s : t) :
  wf s -> wf (tick_spawn_timer d s).
Proof.
  intros Hwf. unfold tick_spawn_timer. cbv zeta.
  case_match; [|exact Hwf].
  apply wf_set_spawn_timer, wf_spawn_obstacle. exact Hwf.
Qed.

Lemma wf_tick_coin_timer (d : Draws) (s : t) :
  wf s -> wf (tick_coin_timer d s).
Proof.
  intros Hwf. unfold tick_coin_timer. cbv zeta.
  case_match; [|exact Hwf].
  apply wf_set_coin_timer, wf_spawn_coin. exact Hwf.
Qed.

Lemma wf_tick_power_timer (d : Draws) (s : t) :
  wf s -> wf (tick_power_timer d s).
Proof.
  intros Hwf. unfold tick_power_timer. cbv zeta.
  case_match; [|exact Hwf].
  apply wf_set_power_timer, wf_spawn_powerup. exact Hwf.
Qed.

Lemma wf_spawn_phase (d : Draws) (s : t) : wf s -> wf (spawn_phase d s).
Proof.
  intros Hwf. unfold spawn_phase.
  apply wf_tick_power_timer, wf_tick_coin_timer, wf_tick_spawn_timer, Hwf.
Qed.

Lemma wf_before_loops (d : Draws) (s : t) : wf s -> wf (before_loops d s).
Proof.
  intros Hwf. unfold before_loops, update_player.
  apply wf_set_player, wf_spawn_phase, wf_ramp, Hwf.
Qed.

Lemma wf_loop_ready_obstacles (s : t) :
  wf s -> loop_ready obstacles obstacle_store (obstacles s) s.
Proof.
  intros ([Hnd Hin] & _). split; [done|]. intros r Hr.
  split; [done|]. by destruct (Hin r Hr).
Qed.

Lemma wf_loop_ready_coins (s : t) :
  wf s -> loop_ready coins coin_store (coins s) s.
Proof.
  intros (_ & [Hnd Hin] & _). split; [done|]. intros r Hr.
  split; [done|]. by destruct (Hin r Hr).
Qed.

Lemma wf_loop_ready_powerups (s : t) :
  wf s -> loop_ready powerups powerup_store (powerups s) s.
Proof.
  intros (_ & _ & [Hnd Hin]). split; [done|]. intros r Hr.
  split; [done|]. by destruct (Hin r Hr).
Qed.

Lemma wf_obstacle_loop (xs : list nat) (s s' : t) :
  wf s -> for_each obstacle_body xs s = Some s' -> wf s'.
Proof.
  intros (Ho & Hc & Hp) Hrun.
  destruct (obstacle_loop_frame _ _ _ Hrun)
    as ((_ & _ & _ & Hn & _) & _ & Hcl & Hpl & Hcs & Hps).
  unfold wf. rewrite Hn, Hcl, Hpl, Hcs, Hps. split; [|done].
  eapply refs_ok_mono; [|done|].
  - eapply refs_ok_sub; [exact Ho| |].
    + eapply obstacle_loop_NoDup; [done|]. by destruct Ho.
    + intros x. by eapply obstacle_loop_elem.
  - intros r. by eapply obstacle_loop_store_dom.
Qed.

Lemma wf_coin_loop (xs : list nat) (s s' : t) :
  wf s -> for_each coin_body xs s = Some s' -> wf s'.
Proof.
  intros (Ho & Hc & Hp) Hrun.
  destruct (coin_loop_frame _ _ _ Hrun)
    as ((_ & _ & _ & Hn & _) & _ & _ & _ & Hol & Hpl & Hos & Hps).
  unfold wf. rewrite Hn, Hol, Hpl, Hos, Hps.
  split; [done|]. split; [|done].
  eapply refs_ok_mono; [|done|].
  - eapply refs_ok_sub; [exact Hc| |].
    + eapply coin_loop_NoDup; [done|]. by destruct Hc.
    + intros x. by eapply coin_loop_elem.
  - intros r. by eapply coin_loop_store_dom.
Qed.

Lemma wf_powerup_loop (xs : list nat) (s s' : t) :
  wf s -> for_each powerup_body xs s = Some s' -> wf s'.
Proof.
  intros (Ho & Hc & Hp) Hrun.
  destruct (powerup_loop_frame _ _ _ Hrun)
    as ((_ & _ & _ & Hn & _) & _ & _ & _ & Hol & Hcl & Hos & Hcs).
  unfold wf. rewrite Hn, Hol, Hcl, Hos, Hcs.
  split; [done|]. split; [done|].
  eapply refs_ok_mono; [|done|].
  - eapply refs_ok_sub; [exact Hp| |].
    + eapply powerup_loop_NoDup; [done|]. by destruct Hp.
    + intros x. by eapply powerup_loop_elem.
  - intros r. by eapply powerup_loop_store_dom.
Qed.

Lemma obstacle_loop_total (s : t) :
  wf s -> exists s', obstacle_loop s = Some s' /\ wf s'.
Proof.
  intros H.
  destruct (obstacle_loop_succeeds _ _ (wf_loop_ready_obstacles _ H))
    as [s' Hs'].
  exists s'. split; [exact Hs'|]. exact (wf_obstacle_loop _ _ _ H Hs').
Qed.

Lemma coin_loop_total (s : t) :
  wf s -> exists s', coin_loop s = Some s' /\ wf s'.
Proof.
  intros H.
  destruct (coin_loop_succeeds _ _ (wf_loop_ready_coins _ H)) as [s' Hs'].
  exists s'. split; [exact Hs'|]. exact (wf_coin_loop _ _ _ H Hs').
Qed.

Lemma powerup_loop_total (s : t) :
  wf s -> exists s', powerup_loop s = Some s' /\ wf s'.
Proof.
  intros H.
  destruct (powerup_loop_succeeds _ _ (wf_loop_ready_powerups _ H))
    as [s' Hs'].
  exists s'. split; [exact Hs'|]. exact (wf_powerup_loop _ _ _ H Hs').
Qed.

(** On a well-formed session in play, [update] returns: the three loops
    run to their end, and the result is well-formed again. *)
Lemma update_playing_total (d : Draws) (s : t) :
  wf s -> playing s = true ->
  exists s1 s2 s3,
    obstacle_loop (before_loops d s) = Some s1 /\
    coin_loop s1 = Some s2 /\
    powerup_loop s2 = Some s3 /\
    update d s = Some (speed_bonus s3) /\
    wf s1 /\ wf s2 /\ wf s3.
Proof.
  intros Hwf Hplay.
  destruct (obstacle_loop_total _ (wf_before_loops d s Hwf)) as (s1 & Hs1 & H1).
  destruct (coin_loop_total _ H1) as (s2 & Hs2 & H2).
  destruct (powerup_loop_total _ H2) as (s3 & Hs3 & H3).
  exists s1, s2, s3.
  split; [exact Hs1|]. split; [exact Hs2|]. split; [exact Hs3|].
  split; [|split; [exact H1|split; [exact H2|exact H3]]].
  unfold update. rewrite Hplay. cbn [negb].
  rewrite Hs1. cbn [mbind option_bind].
  rewrite Hs2. cbn [mbind option_bind].
  rewrite Hs3. reflexivity.
Qed.

Lemma update_total (d : Draws) (s : t) :
  wf s -> exists s', update d s = Some s' /\ wf s'.
Proof.
  intros Hwf. destruct (playing s) eqn:Hplay.
  - destruct (update_playing_total d s Hwf Hplay)
      as (s1 & s2 & s3 & _ & _ & _ & Hup & _ & _ & H3).
    exists (speed_bonus s3). split; [exact Hup | exact H3].
  - exists s. split; [|exact Hwf]. unfold update. rewrite Hplay.
    reflexivity.
Qed.

(** ** The state in which the loops start *)

(** What the spawn timers leave alone. *)
Lemma spawn_phase_facts (d : Draws) (s : t) :
  let s0 := spawn_phase d s in
  playing s0 = playing s /\ game_over s0 = game_over s /\
  score s0 = score s /\ highscore s0 = highscore s /\
  running s0 = running s /\ scroll_speed s0 = scroll_speed s /\
  player s0 = player s.
Proof.
  unfold spawn_phase, tick_power_timer, tick_coin_timer, tick_spawn_timer.
  cbv zeta. repeat case_match; session_simpl; repeat split.
Qed.

(** What the difficulty ramp leaves alone. *)
Lemma ramp_facts (s : t) :
  playing (ramp s) = playing s /\ game_over (ramp s) = game_over s /\
  score (ramp s) = score s /\ highscore (ramp s) = highscore s /\
  running (ramp s) = running s /\
  scroll_speed (ramp s) = (scroll_speed s + difficulty_increment)%Q /\
  player (ramp s) = player s.
Proof.
  unfold ramp. cbv zeta. session_simpl. repeat split.
Qed.

Lemma update_player_facts (s : t) :
  playing (update_player s) = playing s /\
  game_over (update_player s) = game_over s /\
  score (update_player s) = score s /\
  highscore (update_player s) = highscore s /\
  running (update_player s) = running s /\
  scroll_speed (update_player s) = scroll_speed s /\
  player (update_player s) = Player.update (player s).
Proof.
  unfold update_player. session_simpl. repeat split.
Qed.

(** Lines 227-248 together. *)
Lemma before_loops_facts (d : Draws) (s : t) :
  playing (before_loops d s) = playing s /\
  game_over (before_loops d s) = game_over s /\
  score (before_loops d s) = score s /\
  highscore (before_loops d s) = highscore s /\
  running (before_loops d s) = running s /\
  scroll_speed (before_loops d s)
  = (scroll_speed s + difficulty_increment)%Q /\
  player (before_loops d s) = Player.update (player s).
Proof.
  unfold before_loops.
  destruct (update_player_facts (spawn_phase d (ramp s)))
    as (U1 & U2 & U3 & U4 & U5 & U6 & U7).
  destruct (spawn_phase_facts d (ramp s))
    as (S1 & S2 & S3 & S4 & S5 & S6 & S7).
  destruct (ramp_facts s) as (R1 & R2 & R3 & R4 & R5 & R6 & R7).
  rewrite U1, U2, U3, U4, U5, U6, U7, S1, S2, S3, S4, S5, S6, S7,
    R1, R2, R3, R4, R5, R6, R7.
  repeat split.
Qed.

(** Line 302 writes the score only. *)
Lemma speed_bonus_facts (s : t) :
  playing (speed_bonus s) = playing s /\
  game_over (speed_bonus s) = game_over s /\
  obstacles (speed_bonus s) = obstacles s /\
  coins (speed_bonus s) = coins s /\
  powerups (speed_bonus s) = powerups s /\
  obstacle_store (speed_bonus s) = obstacle_store s /\
  coin_store (speed_bonus s) = coin_store s /\
  powerup_store (speed_bonus s) = powerup_store s /\
  scroll_speed (speed_bonus s) = scroll_speed s /\
  player (speed_bonus s) = player s /\
  highscore (speed_bonus s) = highscore s /\
  running (speed_bonus s) = running s /\
  next_ref (speed_bonus s) = next_ref s /\
  score (speed_bonus s) = score s + py_int (scroll_speed s / 250)%Q.
Proof.
  unfold speed_bonus. session_simpl. repeat split.
Qed.

(** ** One tick, loop by loop *)

(** A tick of a session in play that returns went through the three loops
    and the speed bonus. *)
Lemma update_playing_run (d : Draws) (s s' : t) :
  wf s -> playing s = true -> update d s = Some s' ->
  exists s1 s2 s3,
    obstacle_loop (before_loops d s) = Some s1 /\
    coin_loop s1 = Some s2 /\
    powerup_loop s2 = Some s3 /\
    s' = speed_bonus s3 /\
    wf s1 /\ wf s2 /\ wf s3.
Proof.
  intros Hwf Hplay Hrun.
  destruct (update_playing_total d s Hwf Hplay)
    as (s1 & s2 & s3 & H1 & H2 & H3 & Hup & Hw).
  exists s1, s2, s3.
  rewrite Hup in Hrun. injection Hrun as Hrun.
  split; [exact H1|]. split; [exact H2|]. split; [exact H3|].
  split; [symmetry; exact Hrun | exact Hw].
Qed.

(** What follows the obstacle loop leaves the mode flags and the obstacle
    list alone. *)
Lemma after_obstacle_loop (s1 s2 s3 : t) :
  coin_loop s1 = Some s2 -> powerup_loop s2 = Some s3 ->
  playing (speed_bonus s3) = playing s1 /\
  game_over (speed_bonus s3) = game_over s1 /\
  obstacles (speed_bonus s3) = obstacles s1 /\
  obstacle_store (speed_bonus s3) = obstacle_store s1 /\
  scroll_speed (speed_bonus s3) = scroll_speed s1 /\
  (player (speed_bonus s3) = player s1 \/
   player (speed_bonus s3) = Player.set_shield (FPS * 3) (player s1)).
Proof.
  intros H2 H3.
  destruct (coin_loop_frame _ _ _ H2)
    as ((_ & Hv2 & _) & Hp2 & Hpl2 & Hgo2 & Hol2 & _ & Hos2 & _).
  destruct (powerup_loop_frame _ _ _ H3)
    as ((_ & Hv3 & _) & _ & Hpl3 & Hgo3 & Hol3 & _ & Hos3 & _).
  destruct (speed_bonus_facts s3)
    as (B1 & B2 & B3 & _ & _ & B6 & _ & _ & B9 & B10 & _).
  rewrite B1, B2, B3, B6, B9, B10.
  rewrite Hpl3, Hpl2, Hgo3, Hgo2, Hol3, Hol2, Hos3, Hos2, Hv3, Hv2.
  repeat (split; [reflexivity|]).
  rewrite <- Hp2. exact (powerup_loop_player _ _ _ H3).
Qed.

(** ** C1: obstacle collisions *)

(** C1: in a tick of a session in play, when the rectangle of an obstacle,
    once moved, overlaps the player's rectangle: with a shield timer of 0 or
    less the tick ends with [game_over] true and [playing] false; with a
    positive shield timer the obstacle is no longer in the obstacle list,
    [playing] is still true, [game_over] is unchanged, and the obstacle loop
    leaves the player object, hence the shield timer, as [Player.update]
    left it: the timer is only decremented by one, unless a shield pick-up
    of the same tick sets it to [FPS * 3]. *)
Theorem C1_obstacle_collision (d : Draws) (s : t) (r : nat)
    (o : Obstacle.t) :
  wf s -> playing s = true ->
  let s0 := before_loops d s in
  r ∈ obstacles s0 -> obstacle_store s0 !! r = Some o ->
  Rect.colliderect
    (Obstacle.rect (moved_obstacle (scroll_speed s0) o))
    (Player.rect (player s0)) = true ->
  exists s1 s',
    obstacle_loop s0 = Some s1 /\ update d s = Some s' /\
    player s1 = Player.update (player s) /\
    Player.shield (player s1) =
      (if 0 <? Player.shield (player s)
       then Player.shield (player s) - 1 else Player.shield (player s)) /\
    (Player.shield (player s1) <= 0 ->
     game_over s' = true /\ playing s' = false) /\
    (0 < Player.shield (player s1) ->
     (r ∉ obstacles s') /\ playing s' = true /\
     game_over s' = game_over s /\
     (Player.shield (player s') = Player.shield (player s1) \/
      Player.shield (player s') = FPS * 3)).
Proof.
  intros Hwf Hplay. cbv zeta.
  destruct (update_playing_total d s Hwf Hplay)
    as (s1 & s2 & s3 & H1 & H2 & H3 & Hup & _).
  destruct (before_loops_facts d s) as (Hp0 & Hg0 & _ & _ & _ & _ & Hpl0).
  destruct (wf_before_loops d s Hwf) as ([Hnd0 _] & _).
  revert H1 Hp0 Hg0 Hpl0 Hnd0. generalize (before_loops d s).
  intros s0 H1 Hp0 Hg0 Hpl0 Hnd0 Hin Ho Hhit.
  destruct (obstacle_loop_frame _ _ _ H1) as (_ & Hpl1 & _).
  destruct (obstacle_loop_at r o _ _ _ Hnd0 Hin Ho H1)
    as (_ & Hdead & Hbroken & _).
  destruct (after_obstacle_loop _ _ _ H2 H3)
    as (Hpa & Hga & Hoa & _ & _ & Hpla).
  exists s1, (speed_bonus s3).
  split; [exact H1|]. split; [exact Hup|].
  rewrite Hpl1, Hpl0. split; [reflexivity|]. split; [reflexivity|].
  rewrite Hpa, Hga, Hoa. rewrite <- Hpl0. split.
  - intros Hsh. apply Hdead; [exact Hhit | exact Hsh].
  - intros Hsh.
    destruct (obstacle_loop_shielded _ _ _ H1 Hsh) as [Hps Hgs].
    rewrite Hps, Hgs, Hp0, Hg0.
    split; [apply Hbroken; [exact Hnd0 | exact Hhit | exact Hsh]|].
    split; [exact Hplay|]. split; [reflexivity|].
    destruct Hpla as [Hq | Hq]; rewrite Hq; [left | right].
    + rewrite Hpl1. reflexivity.
    + reflexivity.
Qed.

(** The sample sessions are well formed. *)
Lemma wf_session (v : Q) (sh ox cx ux : Z) (k : string) :
  wf (Sample.session v sh ox cx ux k).
Proof.
  unfold wf, refs_ok, Sample.session.
  cbn [obstacles coins powerups obstacle_store coin_store powerup_store
       next_ref].
  assert (Hok : forall (A : Type) (n : nat) (a : A),
             (n < 3)%nat ->
             NoDup [n] /\
             (forall r, r ∈ [n] ->
                is_Some (({[ n := a ]} : gmap nat A) !! r) /\ (r < 3)%nat)).
  { intros A n a Hn. split; [apply NoDup_singleton|].
    intros r Hr. apply list_elem_of_singleton in Hr. subst r.
    split; [|exact Hn]. rewrite lookup_singleton_eq. eexists. reflexivity. }
  split; [|split]; apply Hok; lia.
Qed.

Lemma C1_obstacle_collision_witness :
  exists s1 s',
    obstacle_loop (before_loops Sample.draws
                     (Sample.session 6 0 136 600 700 "shield")) = Some s1 /\
    update Sample.draws (Sample.session 6 0 136 600 700 "shield")
    = Some s' /\
    game_over s' = true /\ playing s' = false.
Proof.
  destruct (C1_obstacle_collision Sample.draws
              (Sample.session 6 0 136 600 700 "shield") 0%nat
              (Obstacle.init 136 40 50 6))
    as (s1 & s' & H1 & Hup & Hpl & Hsh & Hdead & _).
  - apply wf_session.
  - reflexivity.
  - vm_compute. left.
  - vm_compute. reflexivity.
  - vm_compute. reflexivity.
  - exists s1, s'. split; [exact H1|]. split; [exact Hup|].
    apply Hdead. rewrite Hsh. vm_compute. discriminate.
Defined.

(** ** C4: the award for passing an obstacle *)

Lemma moved_obstacle_passed (v : Q) (o : Obstacle.t) :
  Obstacle.passed (moved_obstacle v o) = Obstacle.passed o.
Proof. reflexivity. Qed.

Lemma moved_obstacle_rect (v : Q) (o : Obstacle.t) :
  Obstacle.rect (moved_obstacle v o)
  = Rect.move_left (Obstacle.rect o) (py_int v).
Proof. reflexivity. Qed.

Lemma moved_obstacle_speed (v : Q) (o : Obstacle.t) :
  Obstacle.speed (moved_obstacle v o) = v.
Proof. reflexivity. Qed.

Lemma pass_mark_rect (px : Z) (o : Obstacle.t) :
  Obstacle.rect (pass_mark px o) = Obstacle.rect o.
Proof. unfold pass_mark. case_match; reflexivity. Qed.

Lemma pass_mark_speed (px : Z) (o : Obstacle.t) :
  Obstacle.speed (pass_mark px o) = Obstacle.speed o.
Proof. unfold pass_mark. case_match; reflexivity. Qed.

Lemma pass_award_five (px : Z) (o : Obstacle.t) :
  pass_award px o = 5 <->
  Obstacle.passed o = false /\ Rect.right (Obstacle.rect o) < px.
Proof.
  unfold pass_award.
  destruct (Obstacle.passed o); cbn [negb andb].
  - split; [discriminate | intros [H _]; discriminate].
  - destruct (Z.ltb_spec (Rect.right (Obstacle.rect o)) px).
    + split; [intros _; split; [reflexivity | assumption] | reflexivity].
    + split; [discriminate | intros [_ H']; lia].
Qed.

Lemma pass_award_range (px : Z) (o : Obstacle.t) :
  pass_award px o = 5 \/ pass_award px o = 0.
Proof. unfold pass_award. case_match; [left | right]; reflexivity. Qed.

Lemma pass_mark_passed (px : Z) (o : Obstacle.t) :
  Obstacle.passed (pass_mark px o) = true <->
  Obstacle.passed o = true \/ pass_award px o = 5.
Proof.
  unfold pass_mark, pass_award.
  destruct (Obstacle.passed o) eqn:Hp; cbn [negb andb].
  - rewrite Hp. split; [left; reflexivity | reflexivity].
  - destruct (Rect.right (Obstacle.rect o) <? px); cbn [Obstacle.passed
      Obstacle.set_passed].
    + split; [right; reflexivity | reflexivity].
    + rewrite Hp. split; [discriminate | intros [H | H]; discriminate].
Qed.

Lemma loop_awards_app (s : t) (l1 l2 : list nat) :
  loop_awards s (l1 ++ l2) = loop_awards s l1 + loop_awards s l2.
Proof.
  unfold loop_awards. induction l1 as [|x l1 IH]; cbn [app foldr].
  - lia.
  - rewrite IH. lia.
Qed.

Lemma loop_awards_cons (s : t) (r : nat) (o : Obstacle.t) (l : list nat) :
  obstacle_store s !! r = Some o ->
  loop_awards s (r :: l)
  = pass_award (Player.x (player s)) (moved_obstacle (scroll_speed s) o)
    + loop_awards s l.
Proof.
  intros Ho. unfold loop_awards. cbn [foldr]. rewrite Ho. reflexivity.
Qed.

(** ** C5: picking up a power-up *)

(** The obstacle loop and the coin loop leave the power-ups, the player and
    the speed as they found them. *)
Lemma before_powerup_loop (s0 s1 s2 : t) :
  obstacle_loop s0 = Some s1 -> coin_loop s1 = Some s2 ->
  powerups s2 = powerups s0 /\ powerup_store s2 = powerup_store s0 /\
  player s2 = player s0 /\ scroll_speed s2 = scroll_speed s0.
Proof.
  intros H1 H2.
  destruct (obstacle_loop_frame _ _ _ H1)
    as ((_ & Hv1 & _) & Hp1 & _ & Hl1 & _ & Hs1).
  destruct (coin_loop_frame _ _ _ H2)
    as ((_ & Hv2 & _) & Hp2 & _ & _ & _ & Hl2 & _ & Hs2).
  rewrite Hl2, Hl1, Hs2, Hs1, Hp2, Hp1, Hv2, Hv1. repeat split.
Qed.

(** C5: in a tick of a session in play, when the rectangle of a power-up of
    the list, once moved, overlaps the player's rectangle, the power-up is
    no longer in the list when the tick ends, whatever its kind, and if its
    kind is ["shield"] the shield timer is then [FPS * 3], that is 180. *)
Theorem C5_powerup_pickup (d : Draws) (s s' : t) (r : nat)
    (p : PowerUp.t) :
  wf s -> playing s = true -> update d s = Some s' ->
  let s0 := before_loops d s in
  r ∈ powerups s0 -> powerup_store s0 !! r = Some p ->
  Rect.colliderect
    (PowerUp.rect (moved_powerup (scroll_speed s0) p))
    (Player.rect (player s0)) = true ->
  (r ∉ powerups s') /\
  (PowerUp.kind p = "shield" -> Player.shield (player s') = 180) /\
  FPS * 3 = 180.
Proof.
  intros Hwf Hplay Hup. cbv zeta.
  destruct (update_playing_run d s s' Hwf Hplay Hup)
    as (s1 & s2 & s3 & H1 & H2 & H3 & -> & _ & Hwf2 & _).
  revert H1. generalize (before_loops d s). intros s0 H1 Hin Hp Hhit.
  destruct (before_powerup_loop _ _ _ H1 H2) as (Hl & Hs & Hpl & Hv).
  destruct Hwf2 as (_ & _ & [Hnd2 _]).
  rewrite <- Hl in Hin. rewrite <- Hs in Hp. rewrite <- Hv, <- Hpl in Hhit.
  destruct (powerup_loop_at r p _ _ _ Hnd2 Hin Hp H3) as (_ & Hat).
  destruct (Hat Hhit) as [Hgone Hsh].
  destruct (speed_bonus_facts s3)
    as (_ & _ & _ & _ & B5 & _ & _ & _ & _ & B10 & _).
  rewrite B5, B10.
  split; [exact (Hgone Hnd2)|]. split; [|reflexivity].
  intros Hk. rewrite (Hsh Hk). reflexivity.
Qed.

Lemma C5_powerup_pickup_witness :
  exists s',
    update Sample.draws (Sample.session 6 0 600 700 150 "shield") = Some s' /\
    (0%nat ∈ obstacles s') /\ (2%nat ∉ powerups s') /\
    Player.shield (player s') = 180.
Proof.
  destruct (update_total Sample.draws
              (Sample.session 6 0 600 700 150 "shield")
              (wf_session _ _ _ _ _ _)) as (s' & Hup & _).
  exists s'. split; [exact Hup|].
  destruct (C5_powerup_pickup Sample.draws
              (Sample.session 6 0 600 700 150 "shield") s' 2%nat
              (PowerUp.init 150 380 6 "shield"))
    as (Hgone & Hsh & _).
  - apply wf_session.
  - reflexivity.
  - exact Hup.
  - vm_compute. left.
  - vm_compute. reflexivity.
  - vm_compute. reflexivity.
  - split; [|split; [exact Hgone | exact (Hsh eq_refl)]].
    vm_compute in Hup. injection Hup as <-. vm_compute. left.
Defined.

(** ** C6: how far a tick moves an object *)

Lemma keeps_refl (s : t) : keeps s s.
Proof.
  unfold keeps. split; [lia|]. split; [|auto]. intros r _. auto.
Qed.

Lemma keeps_trans (a b c : t) : keeps a b -> keeps b c -> keeps a c.
Proof.
  intros (Hn1 & Hs1 & Ho1 & Hc1 & Hp1) (Hn2 & Hs2 & Ho2 & Hc2 & Hp2).
  unfold keeps. split; [lia|]. split.
  - intros r Hr.
    destruct (Hs1 r Hr) as (E1 & E2 & E3).
    destruct (Hs2 r ltac:(lia)) as (F1 & F2 & F3).
    rewrite F1, F2, F3, E1, E2, E3. auto.
  - auto.
Qed.

(** Writes that touch no list, no store and no allocation. *)
Lemma keeps_of_eq (s s' : t) :
  next_ref s' = next_ref s ->
  obstacle_store s' = obstacle_store s -> coin_store s' = coin_store s ->
  powerup_store s' = powerup_store s ->
  obstacles s' = obstacles s -> coins s' = coins s ->
  powerups s' = powerups s ->
  keeps s s'.
Proof.
  intros Hn Hos Hcs Hps Ho Hc Hp. unfold keeps.
  rewrite Hn, Hos, Hcs, Hps, Ho, Hc, Hp.
  split; [lia|]. split; [|auto]. intros r _. auto.
Qed.

Lemma keeps_spawn_obstacle (w h dx : Z) (s : t) :
  keeps s (spawn_obstacle w h dx s).
Proof.
  unfold keeps. session_simpl. split; [lia|]. split.
  - intros r Hr. rewrite lookup_insert_ne by lia. auto.
  - split; [|auto]. intros r Hr. apply elem_of_app. left. exact Hr.
Qed.

Lemma keeps_spawn_coin (dx y : Z) (s : t) : keeps s (spawn_coin dx y s).
Proof.
  unfold keeps. session_simpl. split; [lia|]. split.
  - intros r Hr. rewrite lookup_insert_ne by lia. auto.
  - split; [auto|]. split; [|auto].
    intros r Hr. apply elem_of_app. left. exact Hr.
Qed.

Lemma keeps_spawn_powerup (dx y : Z) (s : t) :
  keeps s (spawn_powerup dx y s).
Proof.
  unfold keeps. session_simpl. split; [lia|]. split.
  - intros r Hr. rewrite lookup_insert_ne by lia. auto.
  - split; [auto|]. split; [auto|].
    intros r Hr. apply elem_of_app. left. exact Hr.
Qed.

Lemma keeps_tick_spawn_timer (d : Draws) (s : t) :
  keeps s (tick_spawn_timer d s).
Proof.
  unfold tick_spawn_timer. cbv zeta. case_match.
  - eapply keeps_trans; [|apply keeps_of_eq; reflexivity].
    eapply keeps_trans; [|apply keeps_spawn_obstacle].
    apply keeps_of_eq; reflexivity.
  - apply keeps_of_eq; reflexivity.
Qed.

Lemma keeps_tick_coin_timer (d : Draws) (s : t) :
  keeps s (tick_coin_timer d s).
Proof.
  unfold tick_coin_timer. cbv zeta. case_match.
  - eapply keeps_trans; [|apply keeps_of_eq; reflexivity].
    eapply keeps_trans; [|apply keeps_spawn_coin].
    apply keeps_of_eq; reflexivity.
  - apply keeps_of_eq; reflexivity.
Qed.

Lemma keeps_tick_power_timer (d : Draws) (s : t) :
  keeps s (tick_power_timer d s).
Proof.
  unfold tick_power_timer. cbv zeta. case_match.
  - eapply keeps_trans; [|apply keeps_of_eq; reflexivity].
    eapply keeps_trans; [|apply keeps_spawn_powerup].
    apply keeps_of_eq; reflexivity.
  - apply keeps_of_eq; reflexivity.
Qed.

Lemma keeps_ramp (s : t) : keeps s (ramp s).
Proof. apply keeps_of_eq; reflexivity. Qed.

Lemma keeps_update_player (s : t) : keeps s (update_player s).
Proof. apply keeps_of_eq; reflexivity. Qed.

(** Every object a list refers to when the tick starts is still there, as
    it was, when the loops start. *)
Lemma keeps_before_loops (d : Draws) (s : t) : keeps s (before_loops d s).
Proof.
  unfold before_loops, spawn_phase.
  eapply keeps_trans; [|apply keeps_update_player].
  eapply keeps_trans; [|apply keeps_tick_power_timer].
  eapply keeps_trans; [|apply keeps_tick_coin_timer].
  eapply keeps_trans; [|apply keeps_tick_spawn_timer].
  apply keeps_ramp.
Qed.

Lemma py_int_floor (q : Q) : (0 <= q)%Q -> py_int q = Qfloor q.
Proof.
  destruct q as [n dn]. unfold Qle, py_int, Qfloor. cbn [Qnum Qden].
  intros H. apply Z.quot_div_nonneg; lia.
Qed.

(** What a tick does to the objects the lists refer to when the loops
    start. *)
Lemma update_moves (d : Draws) (s s' : t) :
  wf s -> playing s = true -> update d s = Some s' ->
  scroll_speed s' = (scroll_speed s + difficulty_increment)%Q /\
  (forall r o,
     r ∈ obstacles (before_loops d s) ->
     obstacle_store (before_loops d s) !! r = Some o ->
     obstacle_store s' !! r
     = Some (pass_mark (Player.x (player (before_loops d s)))
               (moved_obstacle (scroll_speed s') o))) /\
  (forall r c,
     r ∈ coins (before_loops d s) ->
     coin_store (before_loops d s) !! r = Some c ->
     exists c', coin_store s' !! r = Some c' /\
       Coin.x c' = Coin.x c - py_int (scroll_speed s') /\
       Coin.speed c' = scroll_speed s' /\
       Coin.rect c' = Rect.set_topleft (Coin.rect c)
                        (Coin.x c - py_int (scroll_speed s') - Coin.r)
                        (Coin.y c - Coin.r)) /\
  (forall r p,
     r ∈ powerups (before_loops d s) ->
     powerup_store (before_loops d s) !! r = Some p ->
     powerup_store s' !! r = Some (moved_powerup (scroll_speed s') p)).
Proof.
  intros Hwf Hplay Hup.
  destruct (update_playing_run d s s' Hwf Hplay Hup)
    as (s1 & s2 & s3 & H1 & H2 & H3 & -> & Hwf1 & Hwf2 & _).
  destruct (before_loops_facts d s) as (_ & _ & _ & _ & _ & Hv0 & _).
  destruct (wf_before_loops d s Hwf) as ([Hnd0 _] & _).
  revert H1 Hv0 Hnd0. generalize (before_loops d s). intros s0 H1 Hv0 Hnd0.
  destruct (obstacle_loop_frame _ _ _ H1)
    as ((_ & Hv1 & _) & _ & Hc1 & _ & Hcs1 & _).
  destruct (after_obstacle_loop _ _ _ H2 H3) as (_ & _ & _ & Hos & Hva & _).
  destruct (before_powerup_loop _ _ _ H1 H2) as (Hl & Hs & _ & Hv2).
  destruct (powerup_loop_frame _ _ _ H3)
    as (_ & _ & _ & _ & _ & _ & _ & Hcs3).
  destruct (speed_bonus_facts s3)
    as (_ & _ & _ & _ & _ & _ & B7 & B8 & _).
  destruct Hwf1 as (_ & [Hndc _] & _).
  destruct Hwf2 as (_ & _ & [Hndp _]).
  rewrite Hva, Hv1, Hos, B7, B8, Hcs3.
  split; [exact Hv0|]. split; [|split].
  - intros r o Hin Ho.
    destruct (obstacle_loop_at r o _ _ _ Hnd0 Hin Ho H1) as (Hst & _).
    exact Hst.
  - intros r c Hin Hc. rewrite <- Hc1 in Hin. rewrite <- Hcs1 in Hc.
    destruct (coin_loop_at r c _ _ _ Hndc Hin Hc H2) as (c' & Hat).
    rewrite Hv1 in Hat. exists c'. exact Hat.
  - intros r p Hin Hp. rewrite <- Hl in Hin. rewrite <- Hs in Hp.
    destruct (powerup_loop_at r p _ _ _ Hndp Hin Hp H3) as (Hat & _).
    rewrite Hv2 in Hat. exact Hat.
Qed.

(** The objects of the lists of [s] are among those. *)
Lemma before_loops_obstacle (d : Draws) (s : t) (r : nat) :
  wf s -> r ∈ obstacles s ->
  r ∈ obstacles (before_loops d s) /\
  obstacle_store (before_loops d s) !! r = obstacle_store s !! r.
Proof.
  intros ([_ Hr] & _) Hin.
  destruct (keeps_before_loops d s) as (_ & Hst & Ho & _).
  split; [exact (Ho r Hin)|]. apply Hst, Hr, Hin.
Qed.

Lemma before_loops_coin (d : Draws) (s : t) (r : nat) :
  wf s -> r ∈ coins s ->
  r ∈ coins (before_loops d s) /\
  coin_store (before_loops d s) !! r = coin_store s !! r.
Proof.
  intros (_ & [_ Hr] & _) Hin.
  destruct (keeps_before_loops d s) as (_ & Hst & _ & Hc & _).
  split; [exact (Hc r Hin)|]. apply Hst, Hr, Hin.
Qed.

Lemma before_loops_powerup (d : Draws) (s : t) (r : nat) :
  wf s -> r ∈ powerups s ->
  r ∈ powerups (before_loops d s) /\
  powerup_store (before_loops d s) !! r = powerup_store s !! r.
Proof.
  intros (_ & _ & [_ Hr]) Hin.
  destruct (keeps_before_loops d s) as (_ & Hst & _ & _ & Hp).
  split; [exact (Hp r Hin)|]. apply Hst, Hr, Hin.
Qed.

(** C6, as the spec words it, fails: at scroll speed 6.6 an obstacle moves
    by 6 pixels, and [round] gives 7. *)
Lemma C6_round_fails :
  ~ (forall (d : Draws) (s s' : t) (r : nat) (o o' : Obstacle.t),
       wf s -> playing s = true -> update d s = Some s' ->
       r ∈ obstacles s -> obstacle_store s !! r = Some o ->
       obstacle_store s' !! r = Some o' ->
       Rect.x (Obstacle.rect o')
       = Rect.x (Obstacle.rect o) - py_round (scroll_speed s')).
Proof.
  intros H.
  destruct (update_total Sample.draws
              (Sample.session (13199 # 2000) 0 500 600 700 "shield")
              (wf_session _ _ _ _ _ _)) as (s' & Hup & _).
  pose proof (H Sample.draws
                (Sample.session (13199 # 2000) 0 500 600 700 "shield") s'
                0%nat (Obstacle.init 500 40 50 (13199 # 2000))) as H'.
  vm_compute in Hup. injection Hup as <-.
  specialize (H' (Obstacle.mk (Rect.mk 494 360 40 50) (132000000 # 20000000)
                    false)).
  assert (Hx : 494 = 493); [|discriminate Hx].
  apply H'.
  - apply wf_session.
  - reflexivity.
  - vm_compute. reflexivity.
  - vm_compute. left.
  - vm_compute. reflexivity.
  - vm_compute. reflexivity.
Qed.

(** C6 (amended): in a tick of a session in play, with [v] the scroll
    speed of the tick, that is the speed after the increment of line 227:
    every obstacle, coin and power-up of the lists when the loops start,
    among them every one the lists held when the tick started, has [v]
    written into its [speed] and has moved left by [int(v)] pixels, [v]
    truncated toward zero ([floor v] when [v] is not negative), not
    rounded. *)
Theorem C6_entities_move_by_truncated_speed (d : Draws) (s s' : t) :
  wf s -> playing s = true -> update d s = Some s' ->
  let s0 := before_loops d s in
  let v := scroll_speed s' in
  v = (scroll_speed s + difficulty_increment)%Q /\
  ((0 <= v)%Q -> py_int v = Qfloor v) /\
  (forall r o,
     r ∈ obstacles s0 -> obstacle_store s0 !! r = Some o ->
     exists o', obstacle_store s' !! r = Some o' /\
       Rect.x (Obstacle.rect o') = Rect.x (Obstacle.rect o) - py_int v /\
       Obstacle.speed o' = v) /\
  (forall r c,
     r ∈ coins s0 -> coin_store s0 !! r = Some c ->
     exists c', coin_store s' !! r = Some c' /\
       Coin.x c' = Coin.x c - py_int v /\ Coin.speed c' = v /\
       Rect.x (Coin.rect c') = Coin.x c' - Coin.r) /\
  (forall r p,
     r ∈ powerups s0 -> powerup_store s0 !! r = Some p ->
     exists p', powerup_store s' !! r = Some p' /\
       PowerUp.x p' = PowerUp.x p - py_int v /\ PowerUp.speed p' = v /\
       Rect.x (PowerUp.rect p') = PowerUp.x p' - PowerUp.r) /\
  (forall r, r ∈ obstacles s ->
     r ∈ obstacles s0 /\ obstacle_store s0 !! r = obstacle_store s !! r) /\
  (forall r, r ∈ coins s ->
     r ∈ coins s0 /\ coin_store s0 !! r = coin_store s !! r) /\
  (forall r, r ∈ powerups s ->
     r ∈ powerups s0 /\ powerup_store s0 !! r = powerup_store s !! r).
Proof.
  intros Hwf Hplay Hup. cbv zeta.
  destruct (update_moves d s s' Hwf Hplay Hup) as (Hv & Hob & Hco & Hpw).
  split; [exact Hv|]. split; [apply py_int_floor|].
  split; [|split; [|split; [|split; [|split]]]].
  - intros r o Hin Ho. eexists. split; [exact (Hob r o Hin Ho)|].
    rewrite pass_mark_rect, pass_mark_speed. split; reflexivity.
  - intros r c Hin Hc.
    destruct (Hco r c Hin Hc) as (c' & Hst & Hx & Hsp & Hr).
    exists c'. split; [exact Hst|]. split; [exact Hx|].
    split; [exact Hsp|]. rewrite Hr, Hx. reflexivity.
  - intros r p Hin Hp. eexists. split; [exact (Hpw r p Hin Hp)|].
    split; [reflexivity|]. split; reflexivity.
  - intros r. apply before_loops_obstacle, Hwf.
  - intros r. apply before_loops_coin, Hwf.
  - intros r. apply before_loops_powerup, Hwf.
Qed.

Lemma C6_entities_move_by_truncated_speed_witness :
  exists s' o',
    update Sample.draws
      (Sample.session (13199 # 2000) 0 500 600 700 "shield") = Some s' /\
    obstacle_store s' !! 0%nat = Some o' /\
    Rect.x (Obstacle.rect o') = 494.
Proof.
  destruct (update_total Sample.draws
              (Sample.session (13199 # 2000) 0 500 600 700 "shield")
              (wf_session _ _ _ _ _ _)) as (s' & Hup & _).
  destruct (C6_entities_move_by_truncated_speed Sample.draws
              (Sample.session (13199 # 2000) 0 500 600 700 "shield") s'
              (wf_session _ _ _ _ _ _) eq_refl Hup)
    as (Hv & _ & Hob & _).
  destruct (Hob 0%nat (Obstacle.init 500 40 50 (13199 # 2000)))
    as (o' & Hst & Hx & _).
  - vm_compute. left.
  - vm_compute. reflexivity.
  - exists s', o'. split; [exact Hup|]. split; [exact Hst|].
    rewrite Hx, Hv. vm_compute. reflexivity.
Defined.

(** ** What every reachable session satisfies *)

Lemma update_not_playing (d : Draws) (s : t) :
  playing s = false -> update d s = Some s.
Proof. intros H. unfold update. rewrite H. reflexivity. Qed.

Lemma update_returns_wf (d : Draws) (s s' : t) :
  wf s -> update d s = Some s' -> wf s'.
Proof.
  intros Hwf Hup. destruct (update_total d s Hwf) as (s'' & Hup' & Hwf').
  rewrite Hup in Hup'. injection Hup' as ->. exact Hwf'.
Qed.

(** A tick leaves the player where [Player.update] and a shield pick-up
    leave it. *)
Lemma update_player_cases (d : Draws) (s s' : t) :
  wf s -> playing s = true -> update d s = Some s' ->
  player s' = Player.update (player s) \/
  player s' = Player.set_shield (FPS * 3) (Player.update (player s)).
Proof.
  intros Hwf Hplay Hup.
  destruct (update_playing_run d s s' Hwf Hplay Hup)
    as (s1 & s2 & s3 & H1 & H2 & H3 & -> & _).
  destruct (before_loops_facts d s) as (_ & _ & _ & _ & _ & _ & Hpl0).
  revert H1 Hpl0. generalize (before_loops d s). intros s0 H1 Hpl0.
  destruct (obstacle_loop_frame _ _ _ H1) as (_ & Hpl1 & _).
  destruct (after_obstacle_loop _ _ _ H2 H3) as (_ & _ & _ & _ & _ & Hpl).
  rewrite Hpl1, Hpl0 in Hpl. exact Hpl.
Qed.

Lemma player_update_x (p : Player.t) :
  Player.x (Player.update p) = Player.x p /\
  Rect.x (Player.rect (Player.update p)) = Player.x p.
Proof.
  split; [reflexivity|].
  unfold Player.update. cbv zeta. cbn [Player.rect Rect.set_topleft Rect.x].
  apply py_int_inject_Z.
Qed.

Lemma player_jump_x (p : Player.t) :
  Player.x (Player.jump p) = Player.x p /\
  Player.rect (Player.jump p) = Player.rect p.
Proof.
  unfold Player.jump.
  destruct (Player.on_ground p); [split; reflexivity|].
  destruct (Player.double_jump_allowed p); split; reflexivity.
Qed.

Lemma game_over_screen_frame (s : t) (f : HighscoreFile.t) :
  fst (game_over_screen s f) = s \/
  fst (game_over_screen s f) = set_highscore (score s) s.
Proof.
  unfold game_over_screen. case_match; [right | left]; reflexivity.
Qed.

Lemma wf_game_over_screen (s : t) (f : HighscoreFile.t) :
  wf s -> wf (fst (game_over_screen s f)).
Proof.
  intros H. destruct (game_over_screen_frame s f) as [-> | ->]; exact H.
Qed.

Lemma step_wf (s s' : t) : step s s' -> wf s -> wf s'.
Proof.
  intros Hst Hwf. destruct Hst as [d s s' Hup|s|s|s|s|f s].
  - exact (update_returns_wf d s s' Hwf Hup).
  - apply wf_reset, Hwf.
  - exact Hwf.
  - exact Hwf.
  - exact Hwf.
  - apply wf_game_over_screen, Hwf.
Qed.

Lemma reachable_wf (s : t) : reachable s -> wf s.
Proof.
  induction 1 as [hs | s s' _ IH Hst]; [apply wf_init|].
  exact (step_wf s s' Hst IH).
Qed.

(** The scroll speed starts at 6 and only [reset] brings it back there. *)
Lemma step_scroll_speed (s s' : t) :
  step s s' -> wf s ->
  (scroll_speed s <= scroll_speed s')%Q \/ scroll_speed s' = 6%Q.
Proof.
  intros Hst Hwf. destruct Hst as [d s s' Hup|s|s|s|s|f s].
  - left. destruct (playing s) eqn:Hplay.
    + destruct (update_moves d s s' Hwf Hplay Hup) as (-> & _).
      unfold difficulty_increment. lra.
    + rewrite (update_not_playing d s Hplay) in Hup.
      injection Hup as <-. lra.
  - right. reflexivity.
  - left. apply Qle_refl.
  - left. apply Qle_refl.
  - left. apply Qle_refl.
  - left. destruct (game_over_screen_frame s f) as [-> | ->];
      apply Qle_refl.
Qed.

Lemma reachable_scroll_speed (s : t) :
  reachable s -> (6 <= scroll_speed s)%Q.
Proof.
  induction 1 as [hs | s s' Hr IH Hst]; [apply Qle_refl|].
  destruct (step_scroll_speed s s' Hst (reachable_wf s Hr)) as [H | H].
  - lra.
  - rewrite H. apply Qle_refl.
Qed.

Lemma step_player_x (s s' : t) :
  step s s' -> wf s ->
  Player.x (player s) = PLAYER_X /\
  Rect.x (Player.rect (player s)) = PLAYER_X ->
  Player.x (player s') = PLAYER_X /\
  Rect.x (Player.rect (player s')) = PLAYER_X.
Proof.
  intros Hst Hwf [Hx Hr]. destruct Hst as [d s s' Hup|s|s|s|s|f s].
  - destruct (playing s) eqn:Hplay.
    + destruct (player_update_x (player s)) as [Ux Ur].
      destruct (update_player_cases d s s' Hwf Hplay Hup) as [-> | ->].
      * rewrite Ux, Ur. split; exact Hx.
      * cbn [Player.set_shield Player.x Player.rect].
        rewrite Ux, Ur. split; exact Hx.
    + rewrite (update_not_playing d s Hplay) in Hup.
      injection Hup as <-. split; assumption.
  - split; reflexivity.
  - split; assumption.
  - split; assumption.
  - cbn [player set_player].
    destruct (player_jump_x (player s)) as [-> ->]. split; assumption.
  - destruct (game_over_screen_frame s f) as [-> | ->]; split; assumption.
Qed.

Lemma reachable_player_x (s : t) :
  reachable s ->
  Player.x (player s) = PLAYER_X /\
  Rect.x (Player.rect (player s)) = PLAYER_X.
Proof.
  induction 1 as [hs | s s' Hr IH Hst]; [split; reflexivity|].
  exact (step_player_x s s' Hst (reachable_wf s Hr) IH).
Qed.

(** ** The main loop *)

(** A session whose game is over is not in play: the two flags are written
    together (lines 262-263), and [reset] clears [game_over]. *)
Lemma obstacle_loop_over_not_playing xs s s' :
  for_each obstacle_body xs s = Some s' ->
  (game_over s = true -> playing s = false) ->
  game_over s' = true -> playing s' = false.
Proof.
  apply (for_each_invariant obstacle_body (fun _ => True)
           (fun a b => (game_over a = true -> playing a = false) ->
                       game_over b = true -> playing b = false)).
  - intros a H. exact H.
  - intros a b c Hab Hbc Ha. exact (Hbc (Hab Ha)).
  - intros r a b _ Hb Ha. apply obstacle_body_eq in Hb as (o & _ & ->).
    session_simpl. intros Hgo.
    apply orb_true_iff in Hgo as [Hgo | Hd].
    + rewrite (Ha Hgo). reflexivity.
    + rewrite Hd. apply andb_false_r.
  - apply Forall_True.
Qed.

Lemma update_over_not_playing (d : Draws) (s s' : t) :
  wf s -> update d s = Some s' ->
  (game_over s = true -> playing s = false) ->
  game_over s' = true -> playing s' = false.
Proof.
  intros Hwf Hup Hinv. destruct (playing s) eqn:Hplay.
  - destruct (update_playing_run d s s' Hwf Hplay Hup)
      as (s1 & s2 & s3 & H1 & H2 & H3 & -> & _).
    destruct (before_loops_facts d s) as (Hp0 & Hg0 & _).
    revert H1 Hp0 Hg0. generalize (before_loops d s). intros s0 H1 Hp0 Hg0.
    destruct (after_obstacle_loop _ _ _ H2 H3) as (-> & -> & _).
    apply (obstacle_loop_over_not_playing _ _ _ H1).
    rewrite Hp0, Hg0, Hplay. exact Hinv.
  - rewrite (update_not_playing d s Hplay) in Hup. injection Hup as <-.
    intros _. exact Hplay.
Qed.

Ltac step_tac :=
  first [apply step_playing | apply step_quit | apply step_jump
        | apply step_reset | apply step_game_over_screen].

Ltac reach_tac H :=
  first [exact H
        | eapply reach_step; [|step_tac]; reach_tac H].

(** The session object of [main] only goes through the operations of
    [step]. *)
Lemma handle_event_reachable (w : Main.world) (e : Main.event) :
  reachable (Main.game w) ->
  reachable (Main.game (Main.handle_event w e)).
Proof.
  intros H. destruct w as [g st pa f]. cbn [Main.game] in H.
  unfold Main.handle_event.
  destruct e as [|k|];
    cbn [Main.game Main.in_start Main.paused Main.file Main.set_game
         Main.set_in_start Main.set_paused].
  - reach_tac H.
  - destruct st.
    + destruct k; cbn [Main.game Main.set_game Main.set_in_start];
        reach_tac H.
    + destruct (negb (playing g) && game_over g);
        destruct k;
        cbn [Main.game Main.in_start Main.paused Main.file Main.set_game
             Main.set_in_start Main.set_paused];
        reach_tac H.
  - exact H.
Qed.

Lemma handle_events_reachable (es : list Main.event) (w : Main.world) :
  reachable (Main.game w) ->
  reachable (Main.game (foldl Main.handle_event w es)).
Proof.
  revert w. induction es as [|e es IH]; intros w H; [exact H|].
  cbn [foldl]. apply IH, handle_event_reachable, H.
Qed.

Lemma tick_reachable (d : Draws) (w w' : Main.world) :
  reachable (Main.game w) -> Main.tick d w = Some w' ->
  reachable (Main.game w').
Proof.
  intros H. destruct w as [g st pa f]. cbn [Main.game] in H.
  unfold Main.tick.
  cbn [Main.game Main.in_start Main.paused Main.file].
  destruct st; [intros [= <-]; exact H|].
  destruct pa; [intros [= <-]; exact H|].
  assert (Hg : forall g1, reachable g1 ->
            (if game_over g1
             then let '(g', f') := game_over_screen g1 f in
                  Some (Main.set_file f'
                          (Main.set_game g' (Main.mk_world g false false f)))
             else Some (Main.set_game g1 (Main.mk_world g false false f)))
            = Some w' -> reachable (Main.game w')).
  { intros g1 Hg1. destruct (game_over g1).
    - pose proof (reach_step _ _ Hg1 (step_game_over_screen f g1)) as Hs.
      destruct (game_over_screen g1 f) as [g' f'].
      intros [= <-]. exact Hs.
    - intros [= <-]. exact Hg1. }
  destruct (playing g).
  - destruct (update d g) as [g1|] eqn:Hup; [|discriminate].
    cbn [mbind option_bind]. apply Hg.
    exact (reach_step _ _ H (step_update d g g1 Hup)).
  - cbn [mbind option_bind]. apply Hg, H.
Qed.

Lemma main_reachable_game (w : Main.world) :
  Main.reachable w -> reachable (Main.game w).
Proof.
  induction 1 as [f w Hst | es d w w' _ IH _ Hfr].
  - unfold Main.startup in Hst.
    destruct (HighscoreFile.touch f) as [f'|]; [|discriminate].
    cbn [mbind option_bind] in Hst. injection Hst as <-.
    apply reach_init.
  - unfold Main.frame in Hfr.
    apply (tick_reachable d _ _ (handle_events_reachable es w IH) Hfr).
Qed.

(** What [main] does after the events, by cases. *)
Lemma tick_run (d : Draws) (w : Main.world) :
  wf (Main.game w) ->
  exists w', Main.tick d w = Some w' /\
    ((Main.in_start w = true \/ Main.paused w = true) /\ w' = w \/
     Main.in_start w = false /\ Main.paused w = false /\
     exists g1,
       (if playing (Main.game w) then update d (Main.game w) = Some g1
        else g1 = Main.game w) /\
       Main.in_start w' = false /\ Main.paused w' = false /\
       (game_over g1 = false /\ Main.game w' = g1 /\
        Main.file w' = Main.file w \/
        game_over g1 = true /\
        Main.game w' = fst (game_over_screen g1 (Main.file w)) /\
        Main.file w' = snd (game_over_screen g1 (Main.file w)))).
Proof.
  intros Hwf. destruct w as [g st pa f]. cbn [Main.game] in Hwf.
  unfold Main.tick.
  cbn [Main.game Main.in_start Main.paused Main.file].
  destruct st; [eexists; split; [reflexivity|]; left; auto|].
  destruct pa; [eexists; split; [reflexivity|]; left; auto|].
  assert (Hg : exists g1,
            (if playing g then update d g = Some g1 else g1 = g) /\
            (if playing g then update d g else Some g) = Some g1).
  { destruct (playing g) eqn:Hplay.
    - destruct (update_total d g Hwf) as (g1 & Hup & _).
      exists g1. split; exact Hup.
    - exists g. split; reflexivity. }
  destruct Hg as (g1 & Hg1 & ->). cbn [mbind option_bind].
  destruct (game_over g1) eqn:Hgo.
  - destruct (game_over_screen g1 f) as [g' f'] eqn:Hgs.
    eexists. split; [reflexivity|]. right.
    split; [reflexivity|]. split; [reflexivity|].
    exists g1. split; [exact Hg1|].
    split; [reflexivity|]. split; [reflexivity|].
    right. split; [exact Hgo|]. rewrite Hgs. split; reflexivity.
  - eexists. split; [reflexivity|]. right.
    split; [reflexivity|]. split; [reflexivity|].
    exists g1. split; [exact Hg1|].
    split; [reflexivity|]. split; [reflexivity|].
    left. split; [exact Hgo|]. split; reflexivity.
Qed.

Lemma game_over_screen_scroll_speed (s : t) (f : HighscoreFile.t) :
  scroll_speed (fst (game_over_screen s f)) = scroll_speed s /\
  playing (fst (game_over_screen s f)) = playing s /\
  game_over (fst (game_over_screen s f)) = game_over s /\
  score (fst (game_over_screen s f)) = score s.
Proof.
  destruct (game_over_screen_frame s f) as [-> | ->]; repeat split.
Qed.

Lemma tick_scroll_speed (d : Draws) (w : Main.world) :
  wf (Main.game w) ->
  exists w', Main.tick d w = Some w' /\
    scroll_speed (Main.game w')
    = if negb (Main.in_start w) && negb (Main.paused w)
         && playing (Main.game w)
      then (scroll_speed (Main.game w) + difficulty_increment)%Q
      else scroll_speed (Main.game w).
Proof.
  intros Hwf. destruct (tick_run d w Hwf) as (w' & Hw' & Hc).
  exists w'. split; [exact Hw'|].
  destruct Hc as [[Hc ->] | (Hst & Hpa & g1 & Hg1 & _ & _ & Hc)].
  - destruct Hc as [-> | ->]; [reflexivity|].
    rewrite andb_false_r. reflexivity.
  - rewrite Hst, Hpa. cbn [negb andb].
    assert (Hv : scroll_speed (Main.game w') = scroll_speed g1).
    { destruct Hc as [(_ & -> & _) | (_ & -> & _)]; [reflexivity|].
      apply game_over_screen_scroll_speed. }
    rewrite Hv. destruct (playing (Main.game w)) eqn:Hplay.
    + destruct (update_moves d _ _ Hwf Hplay Hg1) as (-> & _). reflexivity.
    + rewrite Hg1. reflexivity.
Qed.

(** In the worlds of [main] a session whose game is over is not in play,
    and no game is over on the start screen. *)
Lemma handle_event_over (w : Main.world) (e : Main.event) :
  (game_over (Main.game w) = true -> playing (Main.game w) = false) /\
  (Main.in_start w = true -> game_over (Main.game w) = false) ->
  (game_over (Main.game (Main.handle_event w e)) = true ->
   playing (Main.game (Main.handle_event w e)) = false) /\
  (Main.in_start (Main.handle_event w e) = true ->
   game_over (Main.game (Main.handle_event w e)) = false).
Proof.
  destruct w as [g st pa f].
  cbn [Main.game Main.in_start]. intros [H1 H2].
  unfold Main.handle_event.
  destruct e as [|k|];
    cbn [Main.game Main.in_start Main.paused Main.file Main.set_game
         Main.set_in_start Main.set_paused].
  - split; assumption.
  - destruct st.
    + specialize (H2 eq_refl).
      destruct k;
        cbn [Main.game Main.in_start Main.set_game Main.set_in_start
             game_over playing set_playing];
        (split; [rewrite H2; discriminate | intros _; exact H2])
        || (split; [rewrite H2; discriminate | discriminate]).
    + destruct (negb (playing g) && game_over g);
        destruct k;
        cbn [Main.game Main.in_start Main.paused Main.file Main.set_game
             Main.set_in_start Main.set_paused
             game_over playing set_playing set_running set_player reset];
        (split; [assumption | discriminate])
        || (split; [discriminate | discriminate]).
  - split; assumption.
Qed.

Lemma handle_events_over (es : list Main.event) (w : Main.world) :
  (game_over (Main.game w) = true -> playing (Main.game w) = false) /\
  (Main.in_start w = true -> game_over (Main.game w) = false) ->
  let w1 := foldl Main.handle_event w es in
  (game_over (Main.game w1) = true -> playing (Main.game w1) = false) /\
  (Main.in_start w1 = true -> game_over (Main.game w1) = false).
Proof.
  revert w. induction es as [|e es IH]; intros w H; [exact H|].
  cbn [foldl]. apply IH, handle_event_over, H.
Qed.

Lemma tick_over (d : Draws) (w w' : Main.world) :
  wf (Main.game w) -> Main.tick d w = Some w' ->
  (game_over (Main.game w) = true -> playing (Main.game w) = false) /\
  (Main.in_start w = true -> game_over (Main.game w) = false) ->
  (game_over (Main.game w') = true -> playing (Main.game w') = false) /\
  (Main.in_start w' = true -> game_over (Main.game w') = false).
Proof.
  intros Hwf Hw' [H1 H2]. destruct (tick_run d w Hwf) as (w'' & Hw'' & Hc).
  rewrite Hw' in Hw''. injection Hw'' as <-.
  destruct Hc as [[_ ->] | (Hst & Hpa & g1 & Hg1 & Hst' & _ & Hc)].
  - split; assumption.
  - rewrite Hst'. split; [|discriminate].
    assert (Hinv : game_over g1 = true -> playing g1 = false).
    { revert Hg1. case_eq (playing (Main.game w)); intros Hplay Hg1.
      - apply (update_over_not_playing d _ _ Hwf Hg1). exact H1.
      - rewrite Hg1. intros _. exact Hplay. }
    destruct Hc as [(_ & -> & _) | (_ & -> & _)]; [exact Hinv|].
    destruct (game_over_screen_scroll_speed g1 (Main.file w))
      as (_ & -> & -> & _).
    exact Hinv.
Qed.

Lemma main_over_not_playing (w : Main.world) :
  Main.reachable w ->
  (game_over (Main.game w) = true -> playing (Main.game w) = false) /\
  (Main.in_start w = true -> game_over (Main.game w) = false).
Proof.
  induction 1 as [f w Hst | es d w w' Hr IH _ Hfr].
  - unfold Main.startup in Hst.
    destruct (HighscoreFile.touch f) as [f'|]; [|discriminate].
    cbn [mbind option_bind] in Hst. injection Hst as <-.
    split; [discriminate | reflexivity].
  - unfold Main.frame in Hfr.
    apply (tick_over d _ _
             (reachable_wf _
                (handle_events_reachable es w (main_reachable_game w Hr)))
             Hfr).
    apply handle_events_over, IH.
Qed.

(** ** C7: the scroll speed over the ticks *)

Lemma update_scroll_speed_le (d : Draws) (s s' : t) :
  wf s -> update d s = Some s' -> (scroll_speed s <= scroll_speed s')%Q.
Proof.
  intros Hwf Hup. destruct (playing s) eqn:Hplay.
  - destruct (update_moves d s s' Hwf Hplay Hup) as (-> & _).
    unfold difficulty_increment. lra.
  - rewrite (update_not_playing d s Hplay) in Hup. injection Hup as <-.
    apply Qle_refl.
Qed.

(** ** C9: the speed bonus *)

(** C9: a tick of a reachable session in play ends by adding
    [int(scroll_speed / 250)] to the score the three loops left, with the
    scroll speed of the tick; the speed is never negative, so the bonus is
    the floor of the quotient, it is not negative, and it is 0 when the
    speed is below 250. *)
Theorem C9_speed_bonus (d : Draws) (s s' : t) :
  reachable s -> playing s = true -> update d s = Some s' ->
  exists s3,
    (exists s1 s2,
       obstacle_loop (before_loops d s) = Some s1 /\
       coin_loop s1 = Some s2 /\ powerup_loop s2 = Some s3) /\
    s' = speed_bonus s3 /\
    scroll_speed s3 = scroll_speed s' /\
    score s' = score s3 + py_int (scroll_speed s' / 250)%Q /\
    py_int (scroll_speed s' / 250)%Q = Qfloor (scroll_speed s' / 250)%Q /\
    0 <= py_int (scroll_speed s' / 250)%Q /\
    ((scroll_speed s' < 250)%Q -> score s' = score s3).
Proof.
  intros Hr Hplay Hup. pose proof (reachable_wf s Hr) as Hwf.
  pose proof (reachable_scroll_speed s' (reach_step _ _ Hr
                (step_update d s s' Hup))) as Hv.
  destruct (update_playing_run d s s' Hwf Hplay Hup)
    as (s1 & s2 & s3 & H1 & H2 & H3 & -> & _).
  destruct (speed_bonus_facts s3)
    as (_ & _ & _ & _ & _ & _ & _ & _ & B9 & _ & _ & _ & _ & B14).
  rewrite B9 in Hv |- *. rewrite B14.
  assert (Hq : (0 <= scroll_speed s3 / 250)%Q).
  { apply Qle_shift_div_l; [reflexivity | lra]. }
  exists s3. split; [exists s1, s2; auto|].
  split; [reflexivity|]. split; [reflexivity|]. split; [reflexivity|].
  split; [apply py_int_floor, Hq|]. split; [apply py_int_nonneg, Hq|].
  intros Hlt. rewrite py_int_small; [lia | lra |].
  apply Qlt_shift_div_r; [reflexivity | lra].
Qed.

Lemma C9_speed_bonus_witness :
  exists s' s3,
    update Sample.draws (set_playing true (init 0)) = Some s' /\
    s' = speed_bonus s3 /\ score s' = score s3.
Proof.
  destruct (update_total Sample.draws (set_playing true (init 0))
              (wf_init 0)) as (s' & Hup & _).
  destruct (C9_speed_bonus Sample.draws (set_playing true (init 0)) s'
              (reach_step _ _ (reach_init 0) (step_playing (init 0)))
              eq_refl Hup)
    as (s3 & _ & Hs' & Hv & _ & _ & _ & Hz).
  exists s', s3. split; [exact Hup|]. split; [exact Hs'|].
  apply Hz.
  destruct (update_moves Sample.draws (set_playing true (init 0)) s'
              (wf_init 0) eq_refl Hup) as (-> & _).
  vm_compute. reflexivity.
Defined.

(** ** C10: the player's horizontal position *)

(** C10: in every session reachable through [update], [reset], [jump] and
    the attribute writes of [main], hence in every world of [main], the
    player's [x] and the left edge of the player's rectangle are
    [PLAYER_X], 120; each operation keeps them: [Player.update],
    [Player.jump] and the shield write return a player with the [x] they
    were given. *)
Theorem C10_player_x_constant (s : t) :
  reachable s ->
  PLAYER_X = 120 /\
  Player.x (player s) = 120 /\ Rect.x (Player.rect (player s)) = 120 /\
  (forall d s', update d s = Some s' ->
     Player.x (player s') = 120 /\
     Rect.x (Player.rect (player s')) = 120) /\
  Player.x (Player.jump (player s)) = 120 /\
  Player.x (player (reset s)) = 120 /\
  (forall p,
     Player.x (Player.update p) = Player.x p /\
     Player.x (Player.jump p) = Player.x p /\
     forall v, Player.x (Player.set_shield v p) = Player.x p) /\
  (forall w, Main.reachable w ->
     Player.x (player (Main.game w)) = 120).
Proof.
  intros Hr. split; [reflexivity|].
  destruct (reachable_player_x s Hr) as [Hx Hrx].
  split; [exact Hx|]. split; [exact Hrx|].
  split; [|split; [|split; [|split]]].
  - intros d s' Hup.
    exact (reachable_player_x s'
             (reach_step _ _ Hr (step_update d s s' Hup))).
  - destruct (player_jump_x (player s)) as [-> _]. exact Hx.
  - reflexivity.
  - intros p. split; [reflexivity|].
    split; [apply player_jump_x | reflexivity].
  - intros w Hw. apply (reachable_player_x _ (main_reachable_game w Hw)).
Qed.

Lemma C10_player_x_constant_witness :
  Player.x (Player.jump (player (set_playing true (init 0)))) = 120.
Proof.
  apply (C10_player_x_constant (set_playing true (init 0))
           (reach_step _ _ (reach_init 0) (step_playing (init 0)))).
Defined.

(** ** C7: the scroll speed over the frames *)

(** One event either leaves the speed and [game_over] alone, and then
    neither ends play nor brings the start screen or a finished game back,
    or it is the R that restarts a game that is over. *)
Lemma handle_event_cases (w : Main.world) (e : Main.event) :
  (scroll_speed (Main.game (Main.handle_event w e))
   = scroll_speed (Main.game w) /\
   game_over (Main.game (Main.handle_event w e))
   = game_over (Main.game w) /\
   (playing (Main.game w) = true ->
    playing (Main.game (Main.handle_event w e)) = true) /\
   (Main.in_start (Main.handle_event w e) = false ->
    playing (Main.game (Main.handle_event w e)) = false ->
    Main.in_start w = false /\ playing (Main.game w) = false)) \/
  (e = Main.KEYDOWN Main.K_r /\ Main.in_start w = false /\
   playing (Main.game w) = false /\ game_over (Main.game w) = true /\
   Main.handle_event w e
   = Main.set_game (set_playing true (reset (Main.game w))) w).
Proof.
  destruct w as [g st pa f]. unfold Main.handle_event.
  destruct e as [|k|];
    cbn [Main.game Main.in_start Main.paused Main.file Main.set_game
         Main.set_in_start Main.set_paused].
  - left. repeat split; auto.
  - destruct st.
    + left.
      destruct k;
        cbn [Main.game Main.in_start Main.set_game Main.set_in_start
             scroll_speed game_over playing set_playing];
        repeat split; auto; intros; discriminate.
    + destruct (playing g) eqn:Hp; destruct (game_over g) eqn:Hg;
        cbn [negb andb]; try (left; destruct k;
          cbn [Main.game Main.in_start Main.paused Main.set_game
               Main.set_paused scroll_speed game_over playing set_player];
          rewrite ?Hp, ?Hg; repeat split; auto; fail).
      destruct k;
        try (left;
             cbn [Main.game Main.in_start Main.set_game scroll_speed
                  game_over playing set_running];
             rewrite ?Hp, ?Hg; repeat split; auto; fail).
      right. repeat split; auto.
  - left. repeat split; auto.
Qed.

(** While the session is in play no event touches the speed. *)
Lemma handle_events_playing (es : list Main.event) (w : Main.world) :
  playing (Main.game w) = true ->
  playing (Main.game (foldl Main.handle_event w es)) = true /\
  scroll_speed (Main.game (foldl Main.handle_event w es))
  = scroll_speed (Main.game w).
Proof.
  revert w. induction es as [|e es IH]; intros w Hp; [split; auto|].
  cbn [foldl].
  destruct (handle_event_cases w e)
    as [(Hv & _ & Hk & _) | (_ & _ & Hnp & _)]; [|congruence].
  destruct (IH _ (Hk Hp)) as [IH1 IH2]. split; [exact IH1|].
  rewrite IH2. exact Hv.
Qed.

(** Without an R no event touches the speed or [game_over]. *)
Lemma handle_events_no_restart (es : list Main.event) (w : Main.world) :
  Main.KEYDOWN Main.K_r ∉ es ->
  scroll_speed (Main.game (foldl Main.handle_event w es))
  = scroll_speed (Main.game w) /\
  game_over (Main.game (foldl Main.handle_event w es))
  = game_over (Main.game w).
Proof.
  revert w. induction es as [|e es IH]; intros w Hr; [split; auto|].
  cbn [foldl]. apply not_elem_of_cons in Hr as [He Hr].
  destruct (handle_event_cases w e)
    as [(Hv & Hg & _) | (Heq & _)]; [|congruence].
  destruct (IH (Main.handle_event w e) Hr) as [-> ->]. split; assumption.
Qed.

(** The events of a frame leave the speed as it is, unless the game was
    over and one of them is the R that restarts it at speed 6. *)
Lemma handle_events_speed (es : list Main.event) (w : Main.world) :
  scroll_speed (Main.game (foldl Main.handle_event w es))
  = scroll_speed (Main.game w) \/
  (Main.in_start w = false /\ playing (Main.game w) = false /\
   game_over (Main.game w) = true /\ Main.KEYDOWN Main.K_r ∈ es /\
   scroll_speed (Main.game (foldl Main.handle_event w es)) = 6%Q).
Proof.
  revert w. induction es as [|e es IH]; intros w; [left; reflexivity|].
  cbn [foldl].
  destruct (handle_event_cases w e)
    as [(Hv & Hg & _ & Hm) | (-> & Hst & Hnp & Hgo & Heq)].
  - destruct (IH (Main.handle_event w e))
      as [H | (Hst & Hnp & Hgo & Hin & H)].
    + left. rewrite H. exact Hv.
    + right. destruct (Hm Hst Hnp) as [Hst' Hnp'].
      split; [exact Hst'|]. split; [exact Hnp'|].
      split; [rewrite <- Hg; exact Hgo|].
      split; [right; exact Hin | exact H].
  - right. split; [exact Hst|]. split; [exact Hnp|]. split; [exact Hgo|].
    split; [left|].
    destruct (handle_events_playing es (Main.handle_event w (Main.KEYDOWN
                                                               Main.K_r)))
      as [_ ->].
    + rewrite Heq. reflexivity.
    + rewrite Heq. reflexivity.
Qed.

(** C7: a frame of [main], from any world it can be in: the events, then
    the tick, which returns.  The tick leaves the speed not below what the
    events left: plus [difficulty_increment] when the session is in play
    and the game is not paused, unchanged when the game is paused, when it
    is over and when the session is not in play.  The events leave the
    speed as it was while the session is in play and whenever no R is
    among them: the only event that changes it is the R that restarts a
    game that is over, which sets it to 6.  So over a frame that starts in
    play the speed does not decrease, and over a frame of a game that is
    over, or that the events leave paused, it is unchanged unless the game
    is restarted.  [update] returns the session as it is when it is not in
    play, and never lowers the speed. *)
Theorem C7_scroll_speed_never_decreases (es : list Main.event) (d : Draws)
    (w : Main.world) :
  Main.reachable w ->
  let w1 := foldl Main.handle_event w es in
  exists w', Main.frame es d w = Some w' /\
    (scroll_speed (Main.game w1) <= scroll_speed (Main.game w'))%Q /\
    (Main.in_start w1 = false -> Main.paused w1 = false ->
     playing (Main.game w1) = true ->
     scroll_speed (Main.game w')
     = (scroll_speed (Main.game w1) + difficulty_increment)%Q) /\
    (Main.paused w1 = true \/ game_over (Main.game w1) = true \/
     playing (Main.game w1) = false ->
     scroll_speed (Main.game w') = scroll_speed (Main.game w1)) /\
    (playing (Main.game w) = true ->
     playing (Main.game w1) = true /\
     scroll_speed (Main.game w1) = scroll_speed (Main.game w)) /\
    (Main.KEYDOWN Main.K_r ∉ es ->
     scroll_speed (Main.game w1) = scroll_speed (Main.game w)) /\
    (scroll_speed (Main.game w1) = scroll_speed (Main.game w) \/
     Main.in_start w = false /\ playing (Main.game w) = false /\
     game_over (Main.game w) = true /\ Main.KEYDOWN Main.K_r ∈ es /\
     scroll_speed (Main.game w1) = 6%Q) /\
    (playing (Main.game w) = true ->
     (scroll_speed (Main.game w) <= scroll_speed (Main.game w'))%Q) /\
    (game_over (Main.game w) = true -> Main.KEYDOWN Main.K_r ∉ es ->
     scroll_speed (Main.game w') = scroll_speed (Main.game w)) /\
    (Main.paused w1 = true -> Main.KEYDOWN Main.K_r ∉ es ->
     scroll_speed (Main.game w') = scroll_speed (Main.game w)) /\
    (forall s, playing s = false -> update d s = Some s) /\
    (forall s s', wf s -> update d s = Some s' ->
       (scroll_speed s <= scroll_speed s')%Q).
Proof.
  intros Hr. cbv zeta. unfold Main.frame.
  pose proof (handle_events_reachable es w (main_reachable_game w Hr))
    as Hr1.
  pose proof (reachable_wf _ Hr1) as Hwf.
  destruct (handle_events_over es w (main_over_not_playing w Hr))
    as [Hover _].
  pose proof (handle_events_playing es w) as Hplay.
  pose proof (handle_events_no_restart es w) as Hno.
  pose proof (handle_events_speed es w) as Hev.
  revert Hwf Hover Hplay Hno Hev. clear Hr1.
  generalize (foldl Main.handle_event w es).
  intros w1 Hwf Hover Hplay Hno Hev.
  destruct (tick_scroll_speed d w1 Hwf) as (w' & Hw' & Hv).
  exists w'. split; [exact Hw'|].
  assert (Hle : (scroll_speed (Main.game w1)
                 <= scroll_speed (Main.game w'))%Q).
  { rewrite Hv. case_match; [|apply Qle_refl].
    unfold difficulty_increment. lra. }
  assert (Hfrozen : Main.paused w1 = true \/
                    game_over (Main.game w1) = true \/
                    playing (Main.game w1) = false ->
                    scroll_speed (Main.game w')
                    = scroll_speed (Main.game w1)).
  { rewrite Hv. intros [-> | [Hgo | ->]].
    - rewrite andb_false_r. reflexivity.
    - rewrite (Hover Hgo), andb_false_r. reflexivity.
    - rewrite andb_false_r. reflexivity. }
  split; [exact Hle|]. split.
  { rewrite Hv. intros -> -> ->. reflexivity. }
  split; [exact Hfrozen|]. split; [exact Hplay|].
  split; [intros Hn; apply (Hno Hn)|]. split; [exact Hev|].
  split; [|split; [|split; [|split]]].
  - intros Hp. destruct (Hplay Hp) as [_ <-]. exact Hle.
  - intros Hgo Hn. destruct (Hno Hn) as [<- Hg].
    apply Hfrozen. right. left. rewrite Hg. exact Hgo.
  - intros Hpa Hn. destruct (Hno Hn) as [<- _].
    apply Hfrozen. left. exact Hpa.
  - apply update_not_playing.
  - apply update_scroll_speed_le.
Qed.

Lemma C7_scroll_speed_never_decreases_witness :
  exists w',
    Main.frame [Main.KEYDOWN Main.K_SPACE] Sample.draws
      {| Main.game := init 0; Main.in_start := true; Main.paused := false;
         Main.file :=
           {| HighscoreFile.content := Some (HighscoreFile.of_string "0");
              HighscoreFile.writable := true;
              HighscoreFile.touchable := true |} |} = Some w' /\
    scroll_speed (Main.game w') = (6 + difficulty_increment)%Q.
Proof.
  destruct (C7_scroll_speed_never_decreases
              [Main.KEYDOWN Main.K_SPACE] Sample.draws
              {| Main.game := init 0; Main.in_start := true;
                 Main.paused := false;
                 Main.file :=
                   {| HighscoreFile.content :=
                        Some (HighscoreFile.of_string "0");
                      HighscoreFile.writable := true;
                      HighscoreFile.touchable := true |} |})
    as (w' & Hw' & _ & Hinc & _).
  - apply (Main.reach_startup
             {| HighscoreFile.content := Some (HighscoreFile.of_string "0");
                HighscoreFile.writable := true;
                HighscoreFile.touchable := true |}).
    vm_compute. reflexivity.
  - exists w'. split; [exact Hw'|].
    rewrite (Hinc eq_refl eq_refl eq_refl). reflexivity.
Defined.

(** ** C8: the high-score file *)




Lemma world_ext (w w' : Main.world) :
  Main.game w = Main.game w' -> Main.in_start w = Main.in_start w' ->
  Main.paused w = Main.paused w' -> Main.file w = Main.file w' -> w = w'.
Proof.
  destruct w, w'. cbn [Main.game Main.in_start Main.paused Main.file].
  intros -> -> -> ->. reflexivity.
Qed.


(** * Further properties of the program *)

(** ** Ticks and frames never raise *)

(** X1: [update] returns on every reachable session, for whatever the
    random draws are: no [list.remove] of lines 255, 281 and 293 ever
    fails; the session it returns is again reachable and well formed. *)
Theorem X1_update_never_raises (d : Draws) (s : t) :
  reachable s ->
  exists s', update d s = Some s' /\ reachable s' /\ wf s'.
Proof.
  intros Hr. destruct (update_total d s (reachable_wf s Hr))
    as (s' & Hup & Hwf).
  exists s'. split; [exact Hup|]. split; [|exact Hwf].
  exact (reach_step _ _ Hr (step_update d s s' Hup)).
Qed.

Lemma X1_update_never_raises_witness :
  exists s', update Sample.draws (set_playing true (init 0)) = Some s' /\
             wf s'.
Proof.
  destruct (X1_update_never_raises Sample.draws (set_playing true (init 0))
              (reach_step _ _ (reach_init 0) (step_playing (init 0))))
    as (s' & Hup & _ & Hwf).
  exists s'. split; [exact Hup | exact Hwf].
Defined.

Lemma frame_total (es : list Main.event) (d : Draws) (w : Main.world) :
  Main.reachable w -> exists w', Main.frame es d w = Some w'.
Proof.
  intros Hr. unfold Main.frame.
  destruct (tick_run d (foldl Main.handle_event w es)
              (reachable_wf _
                 (handle_events_reachable es w (main_reachable_game w Hr))))
    as (w' & Hw' & _).
  exists w'. exact Hw'.
Qed.

(** X2: from every world [main] can be in, the loop runs through any
    sequence of events and random draws without raising, and ends in a
    world [main] can be in. *)
Theorem X2_main_loop_never_raises
    (inputs : list (list Main.event * Draws)) (w : Main.world) :
  Main.reachable w ->
  exists w', Main.run inputs w = Some w' /\ Main.reachable w'.
Proof.
  revert w. induction inputs as [|[es d] rest IH]; intros w Hr.
  - exists w. split; [reflexivity | exact Hr].
  - cbn [Main.run]. destruct (running (Main.game w)) eqn:Hrun.
    + destruct (frame_total es d w Hr) as (w1 & Hw1).
      rewrite Hw1. cbn [mbind option_bind].
      apply IH. exact (Main.reach_frame es d w w1 Hr Hrun Hw1).
    + exists w. split; [reflexivity | exact Hr].
Qed.

Lemma X2_main_loop_never_raises_witness :
  exists w',
    Main.run [([Main.KEYDOWN Main.K_SPACE], Sample.draws);
              ([Main.KEYDOWN Main.K_SPACE], Sample.draws);
              ([Main.QUIT], Sample.draws)]
      {| Main.game := init 0; Main.in_start := true; Main.paused := false;
         Main.file := {| HighscoreFile.content := Some (HighscoreFile.of_string "0");
                         HighscoreFile.writable := true;
                         HighscoreFile.touchable := true |} |} = Some w' /\
    Main.reachable w'.
Proof.
  apply X2_main_loop_never_raises.
  apply (Main.reach_startup
           {| HighscoreFile.content := Some (HighscoreFile.of_string "0");
              HighscoreFile.writable := true;
              HighscoreFile.touchable := true |}).
  vm_compute. reflexivity.
Defined.

(** ** Objects that leave the screen or stay *)

(** X3: in a tick of a session in play, an obstacle of the list whose
    right edge, after the move, is left of -50 is no longer in the list
    when the tick ends, and the loops add no obstacle to the list. *)
Theorem X3_offscreen_obstacle_removed (d : Draws) (s s' : t) (r : nat)
    (o : Obstacle.t) :
  wf s -> playing s = true -> update d s = Some s' ->
  let s0 := before_loops d s in
  r ∈ obstacles s0 -> obstacle_store s0 !! r = Some o ->
  Rect.right (Obstacle.rect (moved_obstacle (scroll_speed s0) o)) < -50 ->
  (r ∉ obstacles s') /\
  (forall x, x ∈ obstacles s' -> x ∈ obstacles s0).
Proof.
  intros Hwf Hplay Hup. cbv zeta.
  destruct (update_playing_run d s s' Hwf Hplay Hup)
    as (s1 & s2 & s3 & H1 & H2 & H3 & -> & _).
  destruct (wf_before_loops d s Hwf) as ([Hnd0 _] & _).
  revert H1 Hnd0. generalize (before_loops d s).
  intros s0 H1 Hnd0 Hin Ho Hoff.
  destruct (obstacle_loop_at r o _ _ _ Hnd0 Hin Ho H1)
    as (_ & _ & _ & Hgone).
  destruct (after_obstacle_loop _ _ _ H2 H3) as (_ & _ & -> & _).
  split; [exact (Hgone Hnd0 Hoff)|].
  intros x. apply (obstacle_loop_elem _ _ _ _ H1).
Qed.

Lemma X3_offscreen_obstacle_removed_witness :
  exists s',
    update Sample.draws (Sample.session 6 0 (-90) 600 700 "shield")
    = Some s' /\
    (0%nat ∉ obstacles s').
Proof.
  destruct (update_total Sample.draws
              (Sample.session 6 0 (-90) 600 700 "shield")
              (wf_session _ _ _ _ _ _)) as (s' & Hup & _).
  exists s'. split; [exact Hup|].
  apply (X3_offscreen_obstacle_removed Sample.draws
           (Sample.session 6 0 (-90) 600 700 "shield") s' 0%nat
           (Obstacle.init (-90) 40 50 6) (wf_session _ _ _ _ _ _)
           eq_refl Hup).
  - vm_compute. left.
  - vm_compute. reflexivity.
  - vm_compute. reflexivity.
Defined.

(** ** The high score across a restart *)

Section Digits.

Import HighscoreFile.


Lemma sign_facts :
  is_space 45 = false /\ is_int_space 45 = false /\ (45 =? 45)%N = true.
Proof. vm_compute. repeat split. Qed.













End Digits.




Lemma update_highscore (d : Draws) (s s' : t) :
  wf s -> update d s = Some s' ->
  highscore s' = highscore s /\ running s' = running s.
Proof.
  intros Hwf Hup. destruct (playing s) eqn:Hplay.
  - destruct (update_playing_run d s s' Hwf Hplay Hup)
      as (s1 & s2 & s3 & H1 & H2 & H3 & -> & _).
    destruct (before_loops_facts d s) as (_ & _ & _ & Hh0 & Hr0 & _).
    revert H1 Hh0 Hr0. generalize (before_loops d s). intros s0 H1 Hh0 Hr0.
    destruct (obstacle_loop_frame _ _ _ H1) as ((Hr1 & _ & Hh1 & _) & _).
    destruct (coin_loop_frame _ _ _ H2) as ((Hr2 & _ & Hh2 & _) & _).
    destruct (powerup_loop_frame _ _ _ H3) as ((Hr3 & _ & Hh3 & _) & _).
    destruct (speed_bonus_facts s3)
      as (_ & _ & _ & _ & _ & _ & _ & _ & _ & _ & B11 & B12 & _).
    rewrite B11, B12, Hh3, Hh2, Hh1, Hh0, Hr3, Hr2, Hr1, Hr0.
    split; reflexivity.
  - rewrite (update_not_playing d s Hplay) in Hup. injection Hup as <-.
    split; reflexivity.
Qed.






Lemma startup_file (f : HighscoreFile.t) (w : Main.world) :
  Main.startup f = Some w ->
  Main.in_start w = true /\ Main.paused w = false /\
  Main.game w = init (HighscoreFile.load_highscore (Main.file w)) /\
  HighscoreFile.load_highscore (Main.file w)
  = HighscoreFile.load_highscore f /\
  (HighscoreFile.touchable (Main.file w) = true \/
   is_Some (HighscoreFile.content (Main.file w))) /\
  (HighscoreFile.touchable f = true \/ is_Some (HighscoreFile.content f) ->
   Main.file w = f).
Proof.
  unfold Main.startup, HighscoreFile.touch.
  destruct f as [c wr tc].
  cbn [HighscoreFile.touchable HighscoreFile.writable
       HighscoreFile.content].
  destruct tc.
  - cbn [mbind option_bind]. intros [= <-].
    cbn [Main.in_start Main.paused Main.game Main.file
         HighscoreFile.touchable].
    repeat split; auto.
  - destruct wr; [|discriminate]. destruct c as [txt|].
    + cbn [mbind option_bind]. intros [= <-].
      cbn [Main.in_start Main.paused Main.game Main.file
           HighscoreFile.content].
      repeat split; auto; try (right; eexists; reflexivity).
    + cbn [mbind option_bind]. intros [= <-].
      cbn [Main.in_start Main.paused Main.game Main.file
           HighscoreFile.touchable].
      repeat split; auto; try (intros [H | [x H]]; discriminate H).
Qed.





(** ** C8: when the high score is written, and what is read *)











(** ** Coins *)

Lemma coin_awards_ext (xs : list nat) (s s' : t) :
  (forall r, r ∈ xs -> coin_store s' !! r = coin_store s !! r) ->
  player s' = player s -> scroll_speed s' = scroll_speed s ->
  coin_awards s' xs = coin_awards s xs.
Proof.
  intros Hst Hp Hv. unfold coin_awards, coin_got. rewrite Hp, Hv.
  induction xs as [|r xs IH]; [reflexivity|].
  cbn [foldr]. rewrite Hst by (left; reflexivity). f_equal.
  apply IH. intros x Hx. apply Hst. right. exact Hx.
Qed.

Lemma coin_awards_app (s : t) (l1 l2 : list nat) :
  coin_awards s (l1 ++ l2) = coin_awards s l1 + coin_awards s l2.
Proof.
  unfold coin_awards. induction l1 as [|x l1 IH]; cbn [app foldr].
  - lia.
  - rewrite IH. lia.
Qed.

Lemma coin_awards_nonneg (s : t) (xs : list nat) : 0 <= coin_awards s xs.
Proof.
  unfold coin_awards. induction xs as [|x xs IH]; cbn [foldr]; [lia|].
  destruct (coin_store s !! x) as [c|]; [|lia].
  destruct (coin_got s c); lia.
Qed.

Lemma loop_awards_nonneg (s : t) (xs : list nat) : 0 <= loop_awards s xs.
Proof.
  unfold loop_awards. induction xs as [|x xs IH]; cbn [foldr]; [lia|].
  destruct (obstacle_store s !! x) as [o|]; [|lia].
  destruct (pass_award_range (Player.x (player s))
              (moved_obstacle (scroll_speed s) o)) as [-> | ->]; lia.
Qed.

(** The coin loop adds 10 for each coin it collects. *)
Lemma coin_loop_score (xs : list nat) (s s' : t) :
  NoDup xs -> for_each coin_body xs s = Some s' ->
  score s' = score s + coin_awards s xs.
Proof.
  revert s. induction xs as [|r xs IH]; intros s Hnd Hrun.
  - cbn [for_each] in Hrun. injection Hrun as <-.
    unfold coin_awards. cbn [foldr]. lia.
  - apply NoDup_cons in Hnd as [Hr Hnd]. cbn [for_each] in Hrun.
    destruct (coin_body r s) as [s1|] eqn:Hb; [|discriminate].
    cbn [mbind option_bind] in Hrun.
    apply coin_body_eq in Hb as (c & Hc & ->).
    rewrite (IH _ Hnd Hrun).
    rewrite (coin_awards_ext xs s (coin_result r c s)).
    + session_simpl. unfold coin_awards. cbn [foldr]. rewrite Hc.
      unfold coin_got. lia.
    + intros x Hx. session_simpl. rewrite lookup_insert_ne; [reflexivity|].
      intros ->. contradiction.
    + reflexivity.
    + reflexivity.
Qed.

(** What the coin loop leaves of the coin [r] of its snapshot. *)
Lemma coin_loop_hit (r : nat) (c : Coin.t) (xs : list nat) (s s' : t) :
  NoDup xs -> r ∈ xs -> coin_store s !! r = Some c ->
  for_each coin_body xs s = Some s' ->
  coin_store s' !! r
  = Some (if coin_got s c
          then Coin.set_collected true (moved_coin (scroll_speed s) c)
          else moved_coin (scroll_speed s) c) /\
  (NoDup (coins s) -> coin_got s c = true -> r ∉ coins s') /\
  (NoDup (coins s) ->
   Coin.x (moved_coin (scroll_speed s) c) < -50 -> r ∉ coins s').
Proof.
  intros Hnd Hin Hc Hrun.
  apply list_elem_of_split in Hin as (pre & post & ->).
  apply NoDup_app in Hnd as (_ & Hpre & Hpost).
  apply NoDup_cons in Hpost as [Hpost _].
  assert (Hrpre : r ∉ pre).
  { intros Hx. apply (Hpre r Hx). left. }
  rewrite for_each_app in Hrun.
  destruct (for_each coin_body pre s) as [sa|] eqn:Ha; [|discriminate].
  cbn [mbind option_bind for_each] in Hrun.
  destruct (coin_body r sa) as [sb|] eqn:Hb; [|discriminate].
  cbn [mbind option_bind] in Hrun.
  destruct (coin_loop_frame _ _ _ Ha) as (Hg & Hpl & _).
  destruct Hg as (_ & Hv & _).
  apply coin_body_eq in Hb as (c0 & Hc0 & ->).
  rewrite (coin_loop_store_other r pre s sa Hrpre Ha), Hc in Hc0.
  injection Hc0 as <-.
  unfold coin_got.
  split; [|split].
  - rewrite (coin_loop_store_other r post _ s' Hpost Hrun).
    session_simpl. rewrite lookup_insert_eq, Hv, Hpl. reflexivity.
  - intros Hlive Hgot Hx.
    apply (coin_loop_elem _ _ _ _ Hrun) in Hx. revert Hx.
    session_simpl. rewrite Hv, Hpl, Hgot.
    apply try_remove_gone.
    pose proof (coin_loop_NoDup _ _ _ Ha Hlive) as Hnda.
    case_match; [apply try_remove_NoDup, Hnda | exact Hnda].
  - intros Hlive Hoff Hx.
    apply (coin_loop_elem _ _ _ _ Hrun) in Hx. revert Hx.
    session_simpl. rewrite Hv.
    apply Z.ltb_lt in Hoff. rewrite Hoff.
    pose proof (coin_loop_NoDup _ _ _ Ha Hlive) as Hnda.
    case_match.
    + intros Hx. apply try_remove_elem in Hx. revert Hx.
      apply try_remove_gone, Hnda.
    + apply try_remove_gone, Hnda.
Qed.

(** The obstacle loop leaves the coins, the player and the speed as it
    found them. *)
Lemma before_coin_loop (s0 s1 : t) :
  obstacle_loop s0 = Some s1 ->
  coins s1 = coins s0 /\ coin_store s1 = coin_store s0 /\
  player s1 = player s0 /\ scroll_speed s1 = scroll_speed s0.
Proof.
  intros H1.
  destruct (obstacle_loop_frame _ _ _ H1)
    as ((_ & Hv1 & _) & Hp1 & Hc1 & _ & Hcs1 & _).
  rewrite Hc1, Hcs1, Hp1, Hv1. repeat split.
Qed.

(** What follows the coin loop leaves the coins alone. *)
Lemma after_coin_loop (s2 s3 : t) :
  powerup_loop s2 = Some s3 ->
  coins (speed_bonus s3) = coins s2 /\
  coin_store (speed_bonus s3) = coin_store s2 /\
  score (speed_bonus s3)
  = score s2 + py_int (scroll_speed (speed_bonus s3) / 250)%Q.
Proof.
  intros H3.
  destruct (powerup_loop_frame _ _ _ H3)
    as ((_ & Hv3 & _) & Hsc3 & _ & _ & _ & Hc3 & _ & Hcs3).
  destruct (speed_bonus_facts s3)
    as (_ & _ & _ & B4 & _ & _ & B7 & _ & B9 & _ & _ & _ & _ & B14).
  rewrite B4, B7, B9, B14, Hc3, Hcs3, Hsc3. repeat split.
Qed.

(** X6: in a tick of a session in play, a coin of the list whose
    rectangle, once moved, overlaps the player's and that is not yet
    collected is worth 10 points in the coin loop, is flagged [collected]
    and is no longer in the list when the tick ends. *)
Theorem X6_coin_pickup (d : Draws) (s s' : t) (r : nat) (c : Coin.t) :
  wf s -> playing s = true -> update d s = Some s' ->
  let s0 := before_loops d s in
  r ∈ coins s0 -> coin_store s0 !! r = Some c -> coin_got s0 c = true ->
  (r ∉ coins s') /\
  coin_store s' !! r
  = Some (Coin.set_collected true (moved_coin (scroll_speed s0) c)) /\
  exists s1 s2 l1 l2,
    obstacle_loop s0 = Some s1 /\ coin_loop s1 = Some s2 /\
    coins s0 = l1 ++ r :: l2 /\
    score s2 = score s1 + (coin_awards s0 l1 + 10 + coin_awards s0 l2).
Proof.
  intros Hwf Hplay Hup. cbv zeta.
  destruct (update_playing_run d s s' Hwf Hplay Hup)
    as (s1 & s2 & s3 & H1 & H2 & H3 & -> & Hwf1 & _).
  revert H1. generalize (before_loops d s). intros s0 H1 Hin Hc Hgot.
  destruct (before_coin_loop _ _ H1) as (Hl & Hs & Hpl & Hv).
  destruct (after_coin_loop _ _ H3) as (Hl3 & Hs3 & _).
  destruct Hwf1 as (_ & [Hnd1 _] & _).
  assert (Hext : forall xs, coin_awards s1 xs = coin_awards s0 xs).
  { intros xs. apply coin_awards_ext; [|exact Hpl | exact Hv].
    intros x _. rewrite Hs. reflexivity. }
  assert (Hgot1 : coin_got s1 c = true).
  { unfold coin_got. rewrite Hv, Hpl. exact Hgot. }
  rewrite <- Hl in Hin. rewrite <- Hs in Hc.
  destruct (coin_loop_hit r c _ _ _ Hnd1 Hin Hc H2) as (Hst & Hgone & _).
  rewrite Hgot1, Hv in Hst. rewrite Hl3, Hs3.
  split; [exact (Hgone Hnd1 Hgot1)|]. split; [exact Hst|].
  apply list_elem_of_split in Hin. destruct Hin as (l1 & l2 & Hsplit).
  exists s1, s2, l1, l2. split; [exact H1|]. split; [exact H2|].
  rewrite <- Hl. split; [exact Hsplit|].
  rewrite (coin_loop_score _ _ _ Hnd1 H2), Hsplit, coin_awards_app, !Hext.
  unfold coin_awards at 2. cbn [foldr]. fold (coin_awards s0 l2).
  rewrite <- Hs, Hc, Hgot. lia.
Qed.

Lemma X6_coin_pickup_witness :
  exists s',
    update Sample.draws (Sample.session 6 0 600 150 700 "shield")
    = Some s' /\
    (1%nat ∉ coins s').
Proof.
  destruct (update_total Sample.draws
              (Sample.session 6 0 600 150 700 "shield")
              (wf_session _ _ _ _ _ _)) as (s' & Hup & _).
  exists s'. split; [exact Hup|].
  apply (X6_coin_pickup Sample.draws
           (Sample.session 6 0 600 150 700 "shield") s' 1%nat
           (Coin.init 150 380 6) (wf_session _ _ _ _ _ _) eq_refl Hup).
  - vm_compute. left.
  - vm_compute. reflexivity.
  - vm_compute. reflexivity.
Defined.

(** ** The score of a tick *)

Lemma update_score (d : Draws) (s s' : t) :
  wf s -> playing s = true -> update d s = Some s' ->
  score s'
  = score s + loop_awards (before_loops d s) (obstacles (before_loops d s))
    + coin_awards (before_loops d s) (coins (before_loops d s))
    + py_int (scroll_speed s' / 250)%Q.
Proof.
  intros Hwf Hplay Hup.
  destruct (update_playing_run d s s' Hwf Hplay Hup)
    as (s1 & s2 & s3 & H1 & H2 & H3 & -> & Hwf1 & _).
  destruct (before_loops_facts d s) as (_ & _ & Hsc0 & _).
  destruct (wf_before_loops d s Hwf) as ([Hnd0 _] & _).
  revert H1 Hsc0 Hnd0. generalize (before_loops d s).
  intros s0 H1 Hsc0 Hnd0.
  destruct (before_coin_loop _ _ H1) as (Hl & Hs & Hpl & Hv).
  destruct (after_coin_loop _ _ H3) as (_ & _ & Hsc3).
  destruct Hwf1 as (_ & [Hnd1 _] & _).
  rewrite Hsc3, (coin_loop_score _ _ _ Hnd1 H2),
    (obstacle_loop_score _ _ _ Hnd0 H1), Hsc0, Hl.
  rewrite (coin_awards_ext (coins s0) s0 s1); [lia | | exact Hpl | exact Hv].
  intros x _. rewrite Hs. reflexivity.
Qed.

Lemma update_score_le (d : Draws) (s s' : t) :
  reachable s -> update d s = Some s' -> score s <= score s'.
Proof.
  intros Hr Hup. destruct (playing s) eqn:Hplay.
  - rewrite (update_score d s s' (reachable_wf s Hr) Hplay Hup).
    pose proof (loop_awards_nonneg (before_loops d s)
                  (obstacles (before_loops d s))).
    pose proof (coin_awards_nonneg (before_loops d s)
                  (coins (before_loops d s))).
    pose proof (reachable_scroll_speed s'
                  (reach_step _ _ Hr (step_update d s s' Hup))) as Hv.
    assert (0 <= py_int (scroll_speed s' / 250)%Q); [|lia].
    apply py_int_nonneg. apply Qle_shift_div_l; [reflexivity | lra].
  - rewrite (update_not_playing d s Hplay) in Hup. injection Hup as <-.
    lia.
Qed.

Lemma reachable_score_nonneg (s : t) : reachable s -> 0 <= score s.
Proof.
  induction 1 as [hs | s s' Hr IH Hst]; [reflexivity|].
  destruct Hst as [d s s' Hup|s|s|s|s|f s].
  - pose proof (update_score_le d s s' Hr Hup). lia.
  - cbn [score reset]. lia.
  - exact IH.
  - exact IH.
  - exact IH.
  - destruct (game_over_screen_scroll_speed s f) as (_ & _ & _ & ->).
    exact IH.
Qed.

(** X7: a tick of a reachable session in play adds to the score 5 for
    each obstacle passed in this tick, 10 for each coin collected in it and
    the speed bonus, and nothing else; the score never goes down in a tick
    and is never negative. *)
Theorem X7_score_of_a_tick (d : Draws) (s s' : t) :
  reachable s -> update d s = Some s' ->
  (playing s = true ->
   let s0 := before_loops d s in
   score s'
   = score s + loop_awards s0 (obstacles s0) + coin_awards s0 (coins s0)
     + py_int (scroll_speed s' / 250)%Q) /\
  (playing s = false -> score s' = score s) /\
  score s <= score s' /\ 0 <= score s.
Proof.
  intros Hr Hup. split; [|split; [|split]].
  - intros Hplay. exact (update_score d s s' (reachable_wf s Hr) Hplay Hup).
  - intros Hplay. rewrite (update_not_playing d s Hplay) in Hup.
    injection Hup as <-. reflexivity.
  - exact (update_score_le d s s' Hr Hup).
  - exact (reachable_score_nonneg s Hr).
Qed.

Lemma X7_score_of_a_tick_witness :
  exists s',
    update Sample.draws (set_playing true (init 0)) = Some s' /\
    score (set_playing true (init 0)) <= score s'.
Proof.
  destruct (update_total Sample.draws (set_playing true (init 0))
              (wf_init 0)) as (s' & Hup & _).
  exists s'. split; [exact Hup|].
  apply (X7_score_of_a_tick Sample.draws (set_playing true (init 0)) s'
           (reach_step _ _ (reach_init 0) (step_playing (init 0))) Hup).
Defined.

(** ** C4: one obstacle over the ticks of a session *)

Lemma pass_mark_flag (px : Z) (o : Obstacle.t) :
  Obstacle.passed (pass_mark px o)
  = Obstacle.passed o || (Rect.right (Obstacle.rect o) <? px).
Proof.
  unfold pass_mark.
  destruct (Obstacle.passed o) eqn:E,
    (Rect.right (Obstacle.rect o) <? px);
    cbn [negb andb orb Obstacle.passed Obstacle.set_passed];
    first [reflexivity | exact E].
Qed.

(** The objects allocated before a tick are, when its loops start, what
    they were. *)
Lemma before_loops_old (d : Draws) (s : t) (r : nat) :
  (r < next_ref s)%nat ->
  obstacle_store (before_loops d s) !! r = obstacle_store s !! r /\
  (r < next_ref (before_loops d s))%nat.
Proof.
  intros Hr. destruct (keeps_before_loops d s) as (Hn & Hst & _).
  split; [apply (Hst r Hr) | lia].
Qed.

(** What a tick of a session in play leaves in the obstacle store. *)
Lemma update_obstacle_store (d : Draws) (s s' : t) (r : nat) :
  wf s -> playing s = true -> update d s = Some s' ->
  obstacle_store s' !! r
  = (if bool_decide (r ∈ obstacles (before_loops d s))
     then (fun o => pass_mark (Player.x (player (before_loops d s)))
                      (moved_obstacle (scroll_speed (before_loops d s)) o))
            <$> obstacle_store (before_loops d s) !! r
     else obstacle_store (before_loops d s) !! r) /\
  next_ref s' = next_ref (before_loops d s).
Proof.
  intros Hwf Hplay Hup.
  destruct (update_playing_run d s s' Hwf Hplay Hup)
    as (s1 & s2 & s3 & H1 & H2 & H3 & -> & _).
  destruct (wf_before_loops d s Hwf) as ([Hnd0 Hin0] & _).
  revert H1 Hnd0 Hin0. generalize (before_loops d s).
  intros s0 H1 Hnd0 Hin0.
  destruct (after_obstacle_loop _ _ _ H2 H3) as (_ & _ & _ & Hos & _).
  destruct (speed_bonus_facts s3) as (_ & _ & _ & _ & _ & _ & _ & _ & _ & _
                                      & _ & _ & Hn & _).
  destruct (obstacle_loop_frame _ _ _ H1) as ((_ & _ & _ & Hn1 & _) & _).
  destruct (coin_loop_frame _ _ _ H2) as ((_ & _ & _ & Hn2 & _) & _).
  destruct (powerup_loop_frame _ _ _ H3) as ((_ & _ & _ & Hn3 & _) & _).
  split; [|congruence].
  rewrite Hos. destruct (bool_decide_reflect (r ∈ obstacles s0)) as [Hin | Hin].
  - destruct (Hin0 r Hin) as [[o Ho] _].
    destruct (obstacle_loop_at r o _ _ _ Hnd0 Hin Ho H1) as (Hst & _).
    rewrite Hst, Ho. reflexivity.
  - apply (obstacle_loop_store_other r _ _ _ Hin H1).
Qed.

(** The flag after a tick: set when it was set, or when the right edge is
    left of the player in that tick. *)
Lemma tick_flag (d : Draws) (s s' : t) (r : nat) :
  wf s -> update d s = Some s' -> (r < next_ref s)%nat ->
  flagged s' r = flagged s r || tick_crosses d s r /\
  (r < next_ref s')%nat.
Proof.
  intros Hwf Hup Hr. destruct (playing s) eqn:Hplay.
  - destruct (update_obstacle_store d s s' r Hwf Hplay Hup) as [Hst Hn].
    destruct (before_loops_old d s r Hr) as [Hold Hr0].
    split; [|rewrite Hn; exact Hr0].
    unfold flagged, tick_crosses, visit. rewrite Hplay, Hst, Hold.
    clear Hst Hold Hn Hr0 Hup.
    generalize (before_loops d s). intros s0.
    destruct (bool_decide (r ∈ obstacles s0));
      destruct (obstacle_store s !! r) as [o|];
      cbn [fmap option_fmap option_map]; rewrite ?orb_false_r;
      try reflexivity.
    rewrite pass_mark_flag, moved_obstacle_passed. reflexivity.
  - rewrite (update_not_playing d s Hplay) in Hup. injection Hup as <-.
    split; [|exact Hr].
    unfold tick_crosses, visit. rewrite Hplay, orb_false_r. reflexivity.
Qed.

(** The points of a tick for one obstacle. *)
Lemma tick_award_flag (d : Draws) (s : t) (r : nat) :
  (r < next_ref s)%nat ->
  tick_award d s r
  = if tick_crosses d s r && negb (flagged s r) then 5 else 0.
Proof.
  intros Hr. destruct (before_loops_old d s r Hr) as [Hold _].
  unfold tick_award, tick_crosses, flagged, visit. rewrite Hold. clear Hold.
  generalize (before_loops d s). intros s0.
  destruct (playing s); [|reflexivity].
  destruct (bool_decide (r ∈ obstacles s0)); [|reflexivity].
  destruct (obstacle_store s !! r) as [o|];
    cbn [fmap option_fmap option_map]; [|reflexivity].
  unfold pass_award. rewrite moved_obstacle_passed.
  destruct (Obstacle.passed o), (_ <? _); reflexivity.
Qed.

(** An obstacle of the list is visited, after the move by the speed of the
    tick, and compared with the player's [x]. *)
Lemma visit_listed (d : Draws) (s : t) (r : nat) :
  wf s -> playing s = true -> r ∈ obstacles s ->
  exists o,
    obstacle_store s !! r = Some o /\
    visit d s r
    = Some (moved_obstacle (scroll_speed s + difficulty_increment)%Q o) /\
    tick_crosses d s r
    = (Rect.right
         (Obstacle.rect
            (moved_obstacle (scroll_speed s + difficulty_increment)%Q o))
       <? Player.x (player s)).
Proof.
  intros Hwf Hplay Hin.
  destruct (before_loops_obstacle d s r Hwf Hin) as [Hin0 Hst].
  destruct Hwf as ([_ Hl] & _). destruct (Hl r Hin) as [[o Ho] _].
  destruct (before_loops_facts d s) as (_ & _ & _ & _ & _ & Hv & Hp).
  exists o. split; [exact Ho|].
  assert (Hvis : visit d s r
                 = Some (moved_obstacle
                           (scroll_speed s + difficulty_increment)%Q o)).
  { unfold visit. rewrite Hplay, Hst, Ho, Hv.
    rewrite (bool_decide_eq_true_2 _ Hin0). reflexivity. }
  split; [exact Hvis|].
  unfold tick_crosses. rewrite Hvis, Hp.
  destruct (player_update_x (player s)) as [-> _]. reflexivity.
Qed.

Lemma tick_award_unlisted (d : Draws) (s : t) (r : nat) :
  r ∉ obstacles (before_loops d s) ->
  visit d s r = None /\ tick_award d s r = 0 /\ tick_crosses d s r = false.
Proof.
  intros Hin. unfold tick_award, tick_crosses, visit.
  rewrite (bool_decide_eq_false_2 _ Hin).
  destruct (playing s); repeat split.
Qed.

(** The obstacle loop of a tick adds the points of each obstacle it
    visits. *)
Lemma loop_awards_tick (d : Draws) (s : t) (xs : list nat) :
  playing s = true ->
  (forall r, r ∈ xs -> r ∈ obstacles (before_loops d s)) ->
  loop_awards (before_loops d s) xs
  = foldr (fun r acc => tick_award d s r + acc) 0 xs.
Proof.
  intros Hplay. unfold tick_award, visit. rewrite Hplay.
  generalize (before_loops d s). intros s0.
  induction xs as [|x xs IH]; intros Hin; [reflexivity|].
  unfold loop_awards in *. cbn [foldr].
  rewrite IH by (intros r Hr; apply Hin; right; exact Hr).
  assert (Hx : x ∈ obstacles s0) by (apply Hin; left).
  rewrite (bool_decide_eq_true_2 _ Hx).
  destruct (obstacle_store s0 !! x); reflexivity.
Qed.

(** No operation on a session clears a flag or frees a reference. *)
Lemma step_flag (s s' : t) (r : nat) :
  step s s' -> wf s -> (r < next_ref s)%nat ->
  (flagged s r = true -> flagged s' r = true) /\ (r < next_ref s')%nat.
Proof.
  intros Hstep Hwf Hr.
  destruct Hstep as [d s s' Hup | s | s | s | s | f s].
  - destruct (tick_flag d s s' r Hwf Hup Hr) as [Hf Hn].
    split; [|exact Hn]. intros H. rewrite Hf, H. reflexivity.
  - split; [intros H; exact H | exact Hr].
  - split; [intros H; exact H | exact Hr].
  - split; [intros H; exact H | exact Hr].
  - split; [intros H; exact H | exact Hr].
  - unfold game_over_screen. destruct (_ <? _); cbn [fst];
      (split; [intros H; exact H | exact Hr]).
Qed.

Lemma steps_flag (s s' : t) (r : nat) :
  steps s s' -> wf s -> (r < next_ref s)%nat ->
  wf s' /\ (r < next_ref s')%nat /\
  (flagged s r = true -> flagged s' r = true).
Proof.
  induction 1 as [s | s s1 s2 _ IH Hstep]; intros Hwf Hr.
  - split; [exact Hwf|]. split; [exact Hr|]. intros H. exact H.
  - destruct (IH Hwf Hr) as (Hwf1 & Hr1 & Hf1).
    destruct (step_flag s1 s2 r Hstep Hwf1 Hr1) as [Hf2 Hr2].
    split; [exact (step_wf _ _ Hstep Hwf1)|]. split; [exact Hr2|].
    intros H. apply Hf2, Hf1, H.
Qed.

(** Once the flag is set the obstacle brings no points, whatever happens
    to the session in between. *)
Lemma flagged_no_award (d : Draws) (s s' : t) (r : nat) :
  wf s -> (r < next_ref s)%nat -> flagged s r = true -> steps s s' ->
  tick_award d s' r = 0.
Proof.
  intros Hwf Hr Hf Hsteps.
  destruct (steps_flag s s' r Hsteps Hwf Hr) as (_ & Hr' & Hf').
  rewrite (tick_award_flag d s' r Hr'), (Hf' Hf), andb_false_r.
  reflexivity.
Qed.

Lemma trace_length {A : Type} (f : Draws -> t -> A) (ds : list Draws)
    (s : t) :
  wf s -> length (trace f ds s) = length ds.
Proof.
  revert s. induction ds as [|d ds IH]; intros s Hwf; [reflexivity|].
  cbn [trace length]. destruct (update_total d s Hwf) as (s' & -> & Hwf').
  rewrite (IH s' Hwf'). reflexivity.
Qed.

(** Over consecutive ticks: the 5 points come in the first tick in which
    the right edge is left of the player, if the flag was not set. *)
Lemma trace_award_first (r : nat) (ds : list Draws) (s : t) (i : nat) :
  wf s -> (r < next_ref s)%nat ->
  trace (fun d s => tick_award d s r) ds s !! i = Some 5 <->
  flagged s r = false /\
  trace (fun d s => tick_crosses d s r) ds s !! i = Some true /\
  forall j, (j < i)%nat ->
    trace (fun d s => tick_crosses d s r) ds s !! j = Some false.
Proof.
  revert s i. induction ds as [|d ds IH]; intros s i Hwf Hr.
  - cbn [trace]. rewrite !lookup_nil. split; [discriminate|].
    intros (_ & H & _). discriminate H.
  - cbn [trace]. destruct (update_total d s Hwf) as (s' & Hup & Hwf').
    rewrite Hup. destruct (tick_flag d s s' r Hwf Hup Hr) as [Hf Hr'].
    pose proof (tick_award_flag d s r Hr) as Ha.
    destruct i as [|i].
    + cbn [lookup list_lookup]. rewrite Ha.
      destruct (tick_crosses d s r), (flagged s r); cbn [andb negb];
        split; try discriminate; try (intros (H1 & H2 & _); congruence).
      intros _. split; [reflexivity|]. split; [reflexivity|].
      intros j Hj. lia.
    + change ((?x :: ?l) !! S i) with (l !! i).
      rewrite (IH s' i Hwf' Hr'), Hf. split.
      * intros (H1 & H2 & H3). apply orb_false_iff in H1 as [H1 H1'].
        split; [exact H1|]. split; [exact H2|].
        intros [|j] Hj.
        -- cbn [lookup list_lookup]. rewrite H1'. reflexivity.
        -- change ((?x :: ?l) !! S j) with (l !! j). apply H3. lia.
      * intros (H1 & H2 & H3).
        pose proof (H3 0%nat ltac:(lia)) as H0.
        cbn [lookup list_lookup] in H0. injection H0 as H0.
        split; [rewrite H1, H0; reflexivity|]. split; [exact H2|].
        intros j Hj. apply (H3 (S j)). lia.
Qed.

Lemma trace_award_range (r : nat) (ds : list Draws) (s : t) (i : nat)
    (a : Z) :
  wf s -> (r < next_ref s)%nat ->
  trace (fun d s => tick_award d s r) ds s !! i = Some a -> a = 5 \/ a = 0.
Proof.
  revert s i. induction ds as [|d ds IH]; intros s i Hwf Hr.
  - cbn [trace]. rewrite lookup_nil. discriminate.
  - cbn [trace]. destruct (update_total d s Hwf) as (s' & Hup & Hwf').
    rewrite Hup. destruct (tick_flag d s s' r Hwf Hup Hr) as [_ Hr'].
    destruct i as [|i].
    + cbn [lookup list_lookup]. intros [= <-].
      rewrite (tick_award_flag d s r Hr). destruct (_ && _); auto.
    + change ((?x :: ?l) !! S i) with (l !! i). apply (IH s' i Hwf' Hr').
Qed.

(** The obstacle a tick creates starts with its flag clear. *)
Lemma tick_spawn_timer_new (d : Draws) (s : t) (r : nat) :
  r ∈ obstacles (tick_spawn_timer d s) -> r ∉ obstacles s ->
  r = next_ref s /\
  exists o, obstacle_store (tick_spawn_timer d s) !! r = Some o /\
            Obstacle.passed o = false.
Proof.
  unfold tick_spawn_timer. cbv zeta. session_simpl.
  case_match; session_simpl; intros Hin Hnew; [|contradiction].
  apply elem_of_app in Hin as [Hin | Hin]; [contradiction|].
  apply list_elem_of_singleton in Hin. subst r.
  split; [reflexivity|]. eexists. split; [apply lookup_insert_eq|].
  reflexivity.
Qed.

Lemma tick_coin_timer_obstacles (d : Draws) (s : t) :
  obstacles (tick_coin_timer d s) = obstacles s /\
  obstacle_store (tick_coin_timer d s) = obstacle_store s.
Proof.
  unfold tick_coin_timer. cbv zeta. session_simpl.
  case_match; session_simpl; split; reflexivity.
Qed.

Lemma tick_power_timer_obstacles (d : Draws) (s : t) :
  obstacles (tick_power_timer d s) = obstacles s /\
  obstacle_store (tick_power_timer d s) = obstacle_store s.
Proof.
  unfold tick_power_timer. cbv zeta. session_simpl.
  case_match; session_simpl; split; reflexivity.
Qed.

Lemma ramp_obstacles (s : t) :
  obstacles (ramp s) = obstacles s /\ next_ref (ramp s) = next_ref s.
Proof. unfold ramp. cbv zeta. session_simpl. split; reflexivity. Qed.

Lemma update_player_obstacles (s : t) :
  obstacles (update_player s) = obstacles s /\
  obstacle_store (update_player s) = obstacle_store s.
Proof. unfold update_player. session_simpl. split; reflexivity. Qed.

Lemma before_loops_new (d : Draws) (s : t) (r : nat) :
  r ∈ obstacles (before_loops d s) -> r ∉ obstacles s ->
  r = next_ref s /\
  exists o, obstacle_store (before_loops d s) !! r = Some o /\
            Obstacle.passed o = false.
Proof.
  unfold before_loops, spawn_phase.
  destruct (update_player_obstacles
              (tick_power_timer d
                 (tick_coin_timer d (tick_spawn_timer d (ramp s)))))
    as [-> ->].
  destruct (tick_power_timer_obstacles d
              (tick_coin_timer d (tick_spawn_timer d (ramp s))))
    as [-> ->].
  destruct (tick_coin_timer_obstacles d (tick_spawn_timer d (ramp s)))
    as [-> ->].
  destruct (ramp_obstacles s) as [Ho Hn].
  intros Hin Hnew. rewrite <- Ho in Hnew.
  destruct (tick_spawn_timer_new d (ramp s) r Hin Hnew) as [Hr Hst].
  rewrite Hn in Hr. split; [exact Hr | exact Hst].
Qed.

(** In the tick that creates it, the obstacle is visited with its flag
    clear. *)
Lemma tick_new_obstacle (d : Draws) (s s' : t) (r : nat) :
  wf s -> playing s = true -> update d s = Some s' ->
  r ∈ obstacles (before_loops d s) -> r ∉ obstacles s ->
  r = next_ref s /\
  tick_award d s r = (if tick_crosses d s r then 5 else 0) /\
  flagged s' r = tick_crosses d s r /\ (r < next_ref s')%nat.
Proof.
  intros Hwf Hplay Hup Hin Hnew.
  destruct (before_loops_new d s r Hin Hnew) as (Hr & o & Ho & Hp).
  destruct (update_obstacle_store d s s' r Hwf Hplay Hup) as [Hst Hn].
  destruct (wf_before_loops d s Hwf) as ([_ Hl] & _).
  destruct (Hl r Hin) as [_ Hlt]. rewrite <- Hn in Hlt.
  split; [exact Hr|].
  unfold tick_award, tick_crosses, flagged, visit.
  rewrite Hplay, Hst, (bool_decide_eq_true_2 _ Hin), Ho.
  clear Hst Hin Ho Hl Hn.
  generalize (before_loops d s). intros s0.
  cbn [fmap option_fmap option_map].
  rewrite pass_mark_flag, moved_obstacle_passed, Hp.
  unfold pass_award. rewrite moved_obstacle_passed, Hp.
  cbn [negb andb orb]. repeat split. exact Hlt.
Qed.

(** C4: passing an obstacle is paid once.  In a tick [update d s] the
    obstacle loop adds to the score, for each obstacle [x] it visits,
    [tick_award d s x]; for an obstacle [r] allocated before the tick these
    points are 5 when the right edge, after the move of the tick, is
    strictly left of the player's [x] and the [passed] flag the previous
    tick left in the store is not set, and 0 otherwise.  The flag the tick
    leaves in the store is set exactly when it was set before or the edge
    was left of the player.  No operation of the program on the session
    clears it: once it is set, no later tick, whatever is done to the
    session in between, brings points for [r] again.  Over consecutive
    ticks the 5 points come in the first tick in which the edge is left of
    the player, and in no other.  An obstacle the tick itself creates is
    visited with its flag clear. *)
Theorem C4_pass_award_once (d : Draws) (s s' : t) (r : nat) :
  wf s -> update d s = Some s' -> (r < next_ref s)%nat ->
  (playing s = true ->
   score s'
   = score s
     + foldr (fun x acc => tick_award d s x + acc) 0
         (obstacles (before_loops d s))
     + coin_awards (before_loops d s) (coins (before_loops d s))
     + py_int (scroll_speed s' / 250)%Q) /\
  (r ∈ obstacles s -> playing s = true ->
   exists o,
     obstacle_store s !! r = Some o /\
     visit d s r
     = Some (moved_obstacle (scroll_speed s + difficulty_increment)%Q o) /\
     tick_crosses d s r
     = (Rect.right
          (Obstacle.rect
             (moved_obstacle (scroll_speed s + difficulty_increment)%Q o))
        <? Player.x (player s)) /\
     obstacle_store s' !! r
     = Some (pass_mark (Player.x (player s))
               (moved_obstacle (scroll_speed s + difficulty_increment)%Q
                  o))) /\
  (r ∉ obstacles (before_loops d s) \/ playing s = false ->
   tick_award d s r = 0) /\
  tick_award d s r
  = (if tick_crosses d s r && negb (flagged s r) then 5 else 0) /\
  (tick_award d s r = 5 <->
   flagged s r = false /\ tick_crosses d s r = true) /\
  flagged s' r = flagged s r || tick_crosses d s r /\
  wf s' /\ (r < next_ref s')%nat /\
  (flagged s' r = true ->
   forall d'' s'', steps s' s'' -> tick_award d'' s'' r = 0) /\
  (tick_award d s r = 5 -> flagged s' r = true) /\
  (forall ds,
     length (trace (fun d s => tick_award d s r) ds s) = length ds) /\
  (forall ds i,
     trace (fun d s => tick_award d s r) ds s !! i = Some 5 <->
     flagged s r = false /\
     trace (fun d s => tick_crosses d s r) ds s !! i = Some true /\
     forall j, (j < i)%nat ->
       trace (fun d s => tick_crosses d s r) ds s !! j = Some false) /\
  (forall ds i a,
     trace (fun d s => tick_award d s r) ds s !! i = Some a ->
     a = 5 \/ a = 0) /\
  (forall ds i j,
     trace (fun d s => tick_award d s r) ds s !! i = Some 5 ->
     trace (fun d s => tick_award d s r) ds s !! j = Some 5 -> i = j) /\
  (forall x,
     playing s = true ->
     x ∈ obstacles (before_loops d s) -> x ∉ obstacles s ->
     x = next_ref s /\
     tick_award d s x = (if tick_crosses d s x then 5 else 0) /\
     flagged s' x = tick_crosses d s x /\ (x < next_ref s')%nat).
Proof.
  intros Hwf Hup Hr.
  destruct (tick_flag d s s' r Hwf Hup Hr) as [Hf Hr'].
  pose proof (tick_award_flag d s r Hr) as Ha.
  pose proof (update_returns_wf d s s' Hwf Hup) as Hwf'.
  assert (H5 : tick_award d s r = 5 <->
               flagged s r = false /\ tick_crosses d s r = true).
  { rewrite Ha. destruct (tick_crosses d s r), (flagged s r);
      cbn [andb negb]; split; try discriminate;
      try (intros [H1 H2]; congruence); auto. }
  split; [|split; [|split; [|split; [|split; [|split; [|split; [|split;
    [|split; [|split; [|split; [|split; [|split; [|split]]]]]]]]]]]]].
  - intros Hplay. rewrite (update_score d s s' Hwf Hplay Hup).
    rewrite (loop_awards_tick d s _ Hplay) by (intros x Hx; exact Hx).
    reflexivity.
  - intros Hin Hplay.
    destruct (visit_listed d s r Hwf Hplay Hin) as (o & Ho & Hv & Hc).
    exists o. split; [exact Ho|]. split; [exact Hv|]. split; [exact Hc|].
    destruct (update_moves d s s' Hwf Hplay Hup) as (Hsp & Hob & _).
    destruct (before_loops_obstacle d s r Hwf Hin) as [Hin0 Hst].
    rewrite Ho in Hst. rewrite (Hob r o Hin0 Hst), Hsp.
    destruct (before_loops_facts d s) as (_ & _ & _ & _ & _ & _ & Hp).
    rewrite Hp. destruct (player_update_x (player s)) as [-> _].
    reflexivity.
  - intros [Hin | Hplay].
    + apply (tick_award_unlisted d s r Hin).
    + unfold tick_award, visit. rewrite Hplay. reflexivity.
  - exact Ha.
  - exact H5.
  - exact Hf.
  - exact Hwf'.
  - exact Hr'.
  - intros Hfl d'' s'' Hsteps.
    apply (flagged_no_award d'' s' s'' r Hwf' Hr' Hfl Hsteps).
  - intros H. apply H5 in H as [_ H]. rewrite Hf, H. apply orb_true_r.
  - intros ds. apply trace_length, Hwf.
  - intros ds i. apply trace_award_first; assumption.
  - intros ds i a. apply trace_award_range; assumption.
  - intros ds i j Hi Hj.
    apply (trace_award_first r ds s i Hwf Hr) in Hi as (_ & Hi & Hi').
    apply (trace_award_first r ds s j Hwf Hr) in Hj as (_ & Hj & Hj').
    destruct (Nat.lt_trichotomy i j) as [Hlt | [Heq | Hlt]];
      [|exact Heq|].
    + rewrite (Hj' i Hlt) in Hi. discriminate Hi.
    + rewrite (Hi' j Hlt) in Hj. discriminate Hj.
  - intros x Hplay Hin Hnew.
    apply (tick_new_obstacle d s s' x Hwf Hplay Hup Hin Hnew).
Qed.

(** An obstacle whose right edge is at 104 after the move, left of the
    player at 120: 5 points in that tick, the flag is set, and nothing in
    the tick after. *)
Lemma C4_pass_award_once_witness :
  exists s',
    update Sample.draws (Sample.session 6 0 70 600 700 "shield") = Some s' /\
    tick_award Sample.draws (Sample.session 6 0 70 600 700 "shield") 0%nat
    = 5 /\
    flagged s' 0%nat = true /\
    tick_award Sample.draws s' 0%nat = 0.
Proof.
  destruct (update_total Sample.draws
              (Sample.session 6 0 70 600 700 "shield")
              (wf_session _ _ _ _ _ _)) as (s' & Hup & _).
  exists s'. split; [exact Hup|].
  destruct (C4_pass_award_once Sample.draws
              (Sample.session 6 0 70 600 700 "shield") s' 0%nat)
    as (_ & _ & _ & Ha & _ & Hf & _ & _ & Hnever & _).
  - apply wf_session.
  - exact Hup.
  - vm_compute. lia.
  - assert (Hc : tick_crosses Sample.draws
                   (Sample.session 6 0 70 600 700 "shield") 0%nat = true)
      by (vm_compute; reflexivity).
    rewrite Hc in Ha, Hf. rewrite orb_true_r in Hf.
    split; [exact Ha|]. split; [exact Hf|].
    apply (Hnever Hf Sample.draws s'), steps_refl.
Defined.

(** ** The player over the ticks *)

Lemma player_update_shield (p : Player.t) :
  0 <= Player.shield p ->
  Player.shield (Player.update p) = Z.max 0 (Player.shield p - 1).
Proof.
  intros H. unfold Player.update. cbv zeta. cbn [Player.shield].
  destruct (Z.ltb_spec 0 (Player.shield p)); lia.
Qed.

Lemma player_update_shield_iter (k : nat) (p : Player.t) :
  0 <= Player.shield p ->
  Player.shield (Nat.iter k Player.update p)
  = Z.max 0 (Player.shield p - Z.of_nat k).
Proof.
  intros H. induction k as [|k IH].
  - change (Player.shield p = Z.max 0 (Player.shield p - 0)). lia.
  - rewrite Nat.iter_succ, player_update_shield; rewrite IH; lia.
Qed.

(** X8: a shield picked up lasts 180 ticks: after the write of line 295
    the timer is positive through the next 179 calls of [Player.update]
    and 0 from the 180th on; [Player.jump] leaves the timer alone. *)
Theorem X8_shield_lasts_180_ticks (k : nat) (p : Player.t) :
  let q := Nat.iter k Player.update (Player.set_shield (FPS * 3) p) in
  Player.shield q = Z.max 0 (180 - Z.of_nat k) /\
  ((k < 180)%nat <-> 0 < Player.shield q) /\
  Player.shield (Player.jump q) = Player.shield q.
Proof.
  cbv zeta.
  assert (Hj : forall q, Player.shield (Player.jump q) = Player.shield q).
  { intros q. unfold Player.jump.
    destruct (Player.on_ground q); [reflexivity|].
    destruct (Player.double_jump_allowed q); reflexivity. }
  assert (Hk : Player.shield
                 (Nat.iter k Player.update (Player.set_shield (FPS * 3) p))
               = Z.max 0 (180 - Z.of_nat k)).
  { rewrite player_update_shield_iter;
      cbn [Player.shield Player.set_shield]; unfold FPS; lia. }
  split; [exact Hk|]. split; [rewrite Hk; lia | apply Hj].
Qed.

(** The ticks, counted from the jump, in which a jump from the ground is in
    the air. *)
Lemma jump_airborne_ticks :
  forallb (fun k => negb (Player.on_ground
                            (Nat.iter k Player.update
                               (Player.jump Player.init))))
    (seq 0 35) = true.
Proof. vm_compute. reflexivity. Qed.

(** X9: a single jump from the ground takes 35 ticks: the player is in
    the air after each of the first 34 calls of [Player.update] and back on
    the ground, at rest and with the double jump allowed again, after the
    35th. *)
Theorem X9_jump_takes_35_ticks (k : nat) :
  let q := Nat.iter k Player.update (Player.jump Player.init) in
  ((k < 35)%nat -> Player.on_ground q = false) /\
  (k = 35%nat ->
   Player.on_ground q = true /\
   (Player.y q == inject_Z (GROUND_Y - Player.height))%Q /\
   (Player.dy q == 0)%Q /\ Player.double_jump_allowed q = true).
Proof.
  cbv zeta. split.
  - intros Hk. pose proof jump_airborne_ticks as H.
    rewrite forallb_forall in H.
    specialize (H k ltac:(apply in_seq; lia)).
    apply negb_true_iff in H. exact H.
  - intros ->. vm_compute. repeat split; reflexivity.
Qed.

Lemma X9_jump_takes_35_ticks_witness :
  Player.on_ground
    (Nat.iter 34 Player.update (Player.jump Player.init)) = false.
Proof.
  apply (X9_jump_takes_35_ticks 34). lia.
Defined.

(** ** [reset] and the spawn methods *)

(** X10: [reset] brings the session back to what [__init__] builds for
    the same high score, in every attribute but [running], [playing] and
    the background; it leaves the session well formed, doing it twice
    changes nothing more, and on a new session it changes nothing. *)
Theorem X10_reset_restores_the_start (s : t) :
  set_background Background.init
    (set_playing false (set_running true (reset s)))
  = mk true false Player.init Background.init 6 0 0 0 [] [] [] 0 0
       (highscore s) false
       (obstacle_store s) (coin_store s) (powerup_store s) (next_ref s) /\
  reset (reset s) = reset s /\
  wf (reset s) /\
  (forall hs, reset (init hs) = init hs) /\
  running (reset s) = running s /\ playing (reset s) = playing s /\
  background (reset s) = background s.
Proof.
  split; [reflexivity|]. split; [reflexivity|].
  split; [split; [|split]; apply refs_ok_nil|].
  split; [reflexivity|]. repeat split.
Qed.

(** X11: [spawn_obstacle] appends to the list a new obstacle, standing on
    the ground, with the current scroll speed, not yet passed and, for the
    values [random.randint] can return, entirely to the right of the
    screen; the obstacles already there stay as they are. *)
Theorem X11_spawn_obstacle_off_screen (d : Draws) (s : t) :
  wf s -> draws_in_range d ->
  let s' := spawn_obstacle (ob_w d) (ob_h d) (ob_dx d) s in
  exists o,
    obstacles s' = obstacles s ++ [next_ref s] /\
    obstacle_store s' !! next_ref s = Some o /\
    WIDTH < Rect.x (Obstacle.rect o) /\
    Rect.bottom (Obstacle.rect o) = GROUND_Y /\
    Obstacle.speed o = scroll_speed s /\ Obstacle.passed o = false /\
    Rect.colliderect (Obstacle.rect o) (Player.rect Player.init) = false /\
    (forall r, r ∈ obstacles s ->
       obstacle_store s' !! r = obstacle_store s !! r) /\
    wf s'.
Proof.
  intros Hwf (Hw & Hh & Hdx & _). cbv zeta.
  exists (Obstacle.init (WIDTH + ob_dx d) (ob_w d) (ob_h d) (scroll_speed s)).
  split; [reflexivity|].
  split; [session_simpl; apply lookup_insert_eq|].
  unfold Rect.bottom.
  cbn [Obstacle.init Obstacle.rect Obstacle.speed Obstacle.passed Rect.x
       Rect.y Rect.h].
  split; [lia|]. split; [lia|]. split; [reflexivity|].
  split; [reflexivity|]. split.
  - unfold Rect.colliderect, Player.init, Player.width, Player.height,
      Player.floor_y, GROUND_Y, HEIGHT, WIDTH, PLAYER_X.
    cbn [Player.rect Rect.x Rect.y Rect.w Rect.h].
    repeat match goal with
           | |- context [?a =? ?b] => destruct (Z.eqb_spec a b); try lia
           end.
    cbn [orb]. apply andb_false_iff. left. apply andb_false_iff. left.
    apply andb_false_iff. left. apply Z.ltb_ge. lia.
  - split; [|apply wf_spawn_obstacle, Hwf].
    intros r Hr. destruct Hwf as ([_ Hok] & _).
    destruct (keeps_spawn_obstacle (ob_w d) (ob_h d) (ob_dx d) s)
      as (_ & Hst & _).
    apply Hst, Hok, Hr.
Qed.

Lemma X11_spawn_obstacle_off_screen_witness :
  exists o,
    obstacle_store (spawn_obstacle 40 50 60 (init 0)) !! 0%nat = Some o /\
    WIDTH < Rect.x (Obstacle.rect o).
Proof.
  destruct (X11_spawn_obstacle_off_screen Sample.draws (init 0))
    as (o & _ & Ho & Hx & _).
  - apply wf_init.
  - unfold draws_in_range, GROUND_Y, HEIGHT. cbn. lia.
  - exists o. split; [exact Ho | exact Hx].
Defined.

(** ** Distance, background and spawn timers *)

Lemma ramp_globals (s : t) :
  distance (ramp s)
  = (distance s + (scroll_speed s + difficulty_increment) / 10)%Q /\
  background (ramp s)
  = Background.update (scroll_speed s + difficulty_increment)%Q
      (background s) /\
  spawn_timer (ramp s) = spawn_timer s /\
  coin_timer (ramp s) = coin_timer s /\
  power_timer (ramp s) = power_timer s /\
  scroll_speed (ramp s) = (scroll_speed s + difficulty_increment)%Q.
Proof. unfold ramp. cbv zeta. session_simpl. repeat split. Qed.

Lemma tick_spawn_timer_effect (d : Draws) (s : t) :
  spawn_timer (tick_spawn_timer d s)
  = (if Z.max 18 (70 - py_int (scroll_speed s * 3)%Q) <? spawn_timer s + 1
     then 0 else spawn_timer s + 1) /\
  obstacles (tick_spawn_timer d s)
  = (if Z.max 18 (70 - py_int (scroll_speed s * 3)%Q) <? spawn_timer s + 1
     then obstacles s ++ [next_ref s] else obstacles s) /\
  coin_timer (tick_spawn_timer d s) = coin_timer s /\
  power_timer (tick_spawn_timer d s) = power_timer s /\
  coins (tick_spawn_timer d s) = coins s /\
  powerups (tick_spawn_timer d s) = powerups s /\
  distance (tick_spawn_timer d s) = distance s /\
  background (tick_spawn_timer d s) = background s /\
  scroll_speed (tick_spawn_timer d s) = scroll_speed s.
Proof.
  unfold tick_spawn_timer. cbv zeta. session_simpl.
  case_match; session_simpl; repeat split.
Qed.

Lemma tick_coin_timer_effect (d : Draws) (s : t) :
  coin_timer (tick_coin_timer d s)
  = (if 40 <? coin_timer s + 1 then 0 else coin_timer s + 1) /\
  coins (tick_coin_timer d s)
  = (if 40 <? coin_timer s + 1
     then coins s ++ [next_ref s] else coins s) /\
  spawn_timer (tick_coin_timer d s) = spawn_timer s /\
  power_timer (tick_coin_timer d s) = power_timer s /\
  obstacles (tick_coin_timer d s) = obstacles s /\
  powerups (tick_coin_timer d s) = powerups s /\
  distance (tick_coin_timer d s) = distance s /\
  background (tick_coin_timer d s) = background s /\
  scroll_speed (tick_coin_timer d s) = scroll_speed s.
Proof.
  unfold tick_coin_timer. cbv zeta. session_simpl.
  case_match; session_simpl; repeat split.
Qed.

Lemma tick_power_timer_effect (d : Draws) (s : t) :
  power_timer (tick_power_timer d s)
  = (if 900 <? power_timer s + 1 then 0 else power_timer s + 1) /\
  powerups (tick_power_timer d s)
  = (if 900 <? power_timer s + 1
     then powerups s ++ [next_ref s] else powerups s) /\
  spawn_timer (tick_power_timer d s) = spawn_timer s /\
  coin_timer (tick_power_timer d s) = coin_timer s /\
  obstacles (tick_power_timer d s) = obstacles s /\
  coins (tick_power_timer d s) = coins s /\
  distance (tick_power_timer d s) = distance s /\
  background (tick_power_timer d s) = background s /\
  scroll_speed (tick_power_timer d s) = scroll_speed s.
Proof.
  unfold tick_power_timer. cbv zeta. session_simpl.
  case_match; session_simpl; repeat split.
Qed.

Lemma update_player_globals (s : t) :
  spawn_timer (update_player s) = spawn_timer s /\
  coin_timer (update_player s) = coin_timer s /\
  power_timer (update_player s) = power_timer s /\
  obstacles (update_player s) = obstacles s /\
  coins (update_player s) = coins s /\
  powerups (update_player s) = powerups s /\
  distance (update_player s) = distance s /\
  background (update_player s) = background s.
Proof. unfold update_player. session_simpl. repeat split. Qed.

(** Lines 227-248: what they do to the distance, the background and the
    three timers. *)
Lemma before_loops_globals (d : Draws) (s : t) :
  distance (before_loops d s)
  = (distance s + (scroll_speed s + difficulty_increment) / 10)%Q /\
  background (before_loops d s)
  = Background.update (scroll_speed s + difficulty_increment)%Q
      (background s) /\
  spawn_timer (before_loops d s)
  = (if Z.max 18
          (70 - py_int ((scroll_speed s + difficulty_increment) * 3)%Q)
        <? spawn_timer s + 1
     then 0 else spawn_timer s + 1) /\
  coin_timer (before_loops d s)
  = (if 40 <? coin_timer s + 1 then 0 else coin_timer s + 1) /\
  power_timer (before_loops d s)
  = (if 900 <? power_timer s + 1 then 0 else power_timer s + 1) /\
  (exists r,
     obstacles (before_loops d s)
     = if Z.max 18
            (70 - py_int ((scroll_speed s + difficulty_increment) * 3)%Q)
          <? spawn_timer s + 1
       then obstacles s ++ [r] else obstacles s) /\
  (exists r,
     coins (before_loops d s)
     = if 40 <? coin_timer s + 1 then coins s ++ [r] else coins s) /\
  (exists r,
     powerups (before_loops d s)
     = if 900 <? power_timer s + 1 then powerups s ++ [r] else powerups s).
Proof.
  unfold before_loops, spawn_phase.
  destruct (ramp_globals s) as (R1 & R2 & R3 & R4 & R5 & R6).
  revert R1 R2 R3 R4 R5 R6.
  assert (Ro : obstacles (ramp s) = obstacles s) by reflexivity.
  assert (Rc : coins (ramp s) = coins s) by reflexivity.
  assert (Rp : powerups (ramp s) = powerups s) by reflexivity.
  revert Ro Rc Rp. generalize (ramp s).
  intros sr Ro Rc Rp R1 R2 R3 R4 R5 R6.
  destruct (tick_spawn_timer_effect d sr)
    as (A1 & A2 & A3 & A4 & A5 & A6 & A7 & A8 & A9).
  revert A1 A2 A3 A4 A5 A6 A7 A8 A9.
  generalize (next_ref sr). generalize (tick_spawn_timer d sr).
  intros sa ra A1 A2 A3 A4 A5 A6 A7 A8 A9.
  destruct (tick_coin_timer_effect d sa)
    as (B1 & B2 & B3 & B4 & B5 & B6 & B7 & B8 & B9).
  revert B1 B2 B3 B4 B5 B6 B7 B8 B9.
  generalize (next_ref sa). generalize (tick_coin_timer d sa).
  intros sb rb B1 B2 B3 B4 B5 B6 B7 B8 B9.
  destruct (tick_power_timer_effect d sb)
    as (K1 & K2 & K3 & K4 & K5 & K6 & K7 & K8 & K9).
  revert K1 K2 K3 K4 K5 K6 K7 K8 K9.
  generalize (next_ref sb). generalize (tick_power_timer d sb).
  intros sc rc K1 K2 K3 K4 K5 K6 K7 K8 K9.
  destruct (update_player_globals sc)
    as (U1 & U2 & U3 & U4 & U5 & U6 & U7 & U8).
  rewrite U1, U2, U3, U4, U5, U6, U7, U8.
  rewrite K1, K2, K3, K4, K5, K6, K7, K8.
  rewrite B1, B2, B3, B4, B5, B6, B7, B8.
  rewrite A1, A2, A3, A4, A5, A6, A7, A8.
  rewrite R1, R2, R3, R4, R5, R6, Ro, Rc, Rp.
  split; [reflexivity|]. split; [reflexivity|]. split; [reflexivity|].
  split; [reflexivity|]. split; [reflexivity|].
  split; [exists ra; reflexivity|].
  split; [exists rb; reflexivity | exists rc; reflexivity].
Qed.

Lemma speed_bonus_globals (s : t) :
  distance (speed_bonus s) = distance s /\
  background (speed_bonus s) = background s /\
  spawn_timer (speed_bonus s) = spawn_timer s /\
  coin_timer (speed_bonus s) = coin_timer s /\
  power_timer (speed_bonus s) = power_timer s.
Proof. unfold speed_bonus. session_simpl. repeat split. Qed.

(** The loops and the bonus leave the distance, the background and the
    timers as lines 227-248 left them. *)
Lemma loops_globals (s0 s1 s2 s3 : t) :
  obstacle_loop s0 = Some s1 -> coin_loop s1 = Some s2 ->
  powerup_loop s2 = Some s3 ->
  distance (speed_bonus s3) = distance s0 /\
  background (speed_bonus s3) = background s0 /\
  spawn_timer (speed_bonus s3) = spawn_timer s0 /\
  coin_timer (speed_bonus s3) = coin_timer s0 /\
  power_timer (speed_bonus s3) = power_timer s0.
Proof.
  intros H1 H2 H3.
  destruct (obstacle_loop_frame _ _ _ H1)
    as ((_ & _ & _ & _ & D1 & G1 & S1 & K1 & P1 & _) & _).
  destruct (coin_loop_frame _ _ _ H2)
    as ((_ & _ & _ & _ & D2 & G2 & S2 & K2 & P2 & _) & _).
  destruct (powerup_loop_frame _ _ _ H3)
    as ((_ & _ & _ & _ & D3 & G3 & S3 & K3 & P3 & _) & _).
  destruct (speed_bonus_globals s3) as (D4 & G4 & S4 & K4 & P4).
  rewrite D4, G4, S4, K4, P4, D3, G3, S3, K3, P3, D2, G2, S2, K2, P2,
    D1, G1, S1, K1, P1.
  repeat split.
Qed.

Lemma update_globals (d : Draws) (s s' : t) :
  wf s -> playing s = true -> update d s = Some s' ->
  distance s' = (distance s + scroll_speed s' / 10)%Q /\
  background s' = Background.update (scroll_speed s') (background s) /\
  spawn_timer s'
  = (if Z.max 18 (70 - py_int (scroll_speed s' * 3)%Q) <? spawn_timer s + 1
     then 0 else spawn_timer s + 1) /\
  coin_timer s'
  = (if 40 <? coin_timer s + 1 then 0 else coin_timer s + 1) /\
  power_timer s'
  = (if 900 <? power_timer s + 1 then 0 else power_timer s + 1).
Proof.
  intros Hwf Hplay Hup.
  destruct (update_moves d s s' Hwf Hplay Hup) as (Hv & _).
  rewrite Hv.
  destruct (update_playing_run d s s' Hwf Hplay Hup)
    as (s1 & s2 & s3 & H1 & H2 & H3 & -> & _).
  destruct (before_loops_globals d s) as (D & G & S & C & P & _).
  revert H1 D G S C P. generalize (before_loops d s).
  intros s0 H1 D G S C P.
  destruct (loops_globals _ _ _ _ H1 H2 H3) as (-> & -> & -> & -> & ->).
  rewrite D, G, S, C, P. repeat split.
Qed.

Lemma py_int_lower (z : Z) (q : Q) :
  0 <= z -> (inject_Z z <= q)%Q -> z <= py_int q.
Proof.
  intros Hz Hq.
  assert (H0 : (0 <= q)%Q).
  { apply Qle_trans with (inject_Z z); [|exact Hq].
    change 0%Q with (inject_Z 0). rewrite <- Zle_Qle. exact Hz. }
  rewrite (py_int_floor q H0), <- (Qfloor_Z z).
  apply Qfloor_resp_le, Hq.
Qed.

Lemma update_layer_bounds (v : Q) (l : Background.layer) :
  (0 <= v)%Q ->
  - WIDTH < Background.lx l <= 0 /\ (0 <= Background.lspeed l)%Q ->
  - WIDTH < Background.lx (Background.update_layer v l) <= 0 /\
  (0 <= Background.lspeed (Background.update_layer v l))%Q.
Proof.
  intros Hv [Hx Hs]. unfold Background.update_layer. cbv zeta.
  cbn [Background.lx Background.lspeed]. split; [|exact Hs].
  assert (Hp : 0 <= py_int (v * Background.lspeed l)%Q).
  { apply py_int_nonneg, Qmult_le_0_compat; assumption. }
  destruct (_ <=? _) eqn:E;
    [apply Z.leb_le in E | apply Z.leb_gt in E]; unfold WIDTH in *; lia.
Qed.

Lemma background_update_bounds (v : Q) (b : Background.t) :
  (0 <= v)%Q ->
  Forall (fun l => - WIDTH < Background.lx l <= 0 /\
                   (0 <= Background.lspeed l)%Q) b ->
  Forall (fun l => - WIDTH < Background.lx l <= 0 /\
                   (0 <= Background.lspeed l)%Q) (Background.update v b) /\
  length (Background.update v b) = length b.
Proof.
  intros Hv Hb. unfold Background.update. split; [|apply length_map].
  induction Hb as [|l b Hl Hb IH]; cbn [map]; constructor.
  - apply update_layer_bounds; assumption.
  - exact IH.
Qed.

Lemma game_over_screen_background (s : t) (f : HighscoreFile.t) :
  background (fst (game_over_screen s f)) = background s /\
  spawn_timer (fst (game_over_screen s f)) = spawn_timer s /\
  coin_timer (fst (game_over_screen s f)) = coin_timer s /\
  power_timer (fst (game_over_screen s f)) = power_timer s.
Proof.
  destruct (game_over_screen_frame s f) as [-> | ->]; repeat split.
Qed.

(** The three layers stay within one screen width. *)
Lemma reachable_background (s : t) :
  reachable s ->
  Forall (fun l => - WIDTH < Background.lx l <= 0 /\
                   (0 <= Background.lspeed l)%Q) (background s) /\
  length (background s) = 3%nat.
Proof.
  induction 1 as [hs | s s' Hr IH Hst].
  - split; [|reflexivity].
    cbn [background init]. unfold Background.init. cbn [map].
    repeat constructor; cbn [Background.lx Background.lspeed];
      unfold WIDTH; try lia; vm_compute; discriminate.
  - destruct Hst as [d s s' Hup|s|s|s|s|f s]; try exact IH.
    + destruct (playing s) eqn:Hplay.
      * destruct (update_globals d s s' (reachable_wf s Hr) Hplay Hup)
          as (_ & -> & _).
        pose proof (reachable_scroll_speed s'
                      (reach_step _ _ Hr (step_update d s s' Hup))) as Hv.
        destruct IH as [IH1 IH2].
        destruct (background_update_bounds (scroll_speed s') (background s)
                    ltac:(lra) IH1) as [B1 B2].
        split; [exact B1|]. rewrite B2. exact IH2.
      * rewrite (update_not_playing d s Hplay) in Hup.
        injection Hup as <-. exact IH.
    + destruct (game_over_screen_background s f) as (-> & _). exact IH.
Qed.

(** X12: a tick of a reachable session in play adds a tenth of the
    scroll speed of the tick to the distance, which therefore grows, and
    scrolls the background by that speed; each of the three layers keeps
    its offset within one screen width, in (-WIDTH, 0]. *)
Theorem X12_distance_and_background (d : Draws) (s s' : t) :
  reachable s -> playing s = true -> update d s = Some s' ->
  distance s' = (distance s + scroll_speed s' / 10)%Q /\
  (distance s < distance s')%Q /\
  background s' = Background.update (scroll_speed s') (background s) /\
  length (background s') = 3%nat /\
  Forall (fun l => - WIDTH < Background.lx l <= 0) (background s').
Proof.
  intros Hr Hplay Hup.
  destruct (update_globals d s s' (reachable_wf s Hr) Hplay Hup)
    as (Hd & Hb & _).
  pose proof (reach_step _ _ Hr (step_update d s s' Hup)) as Hr'.
  pose proof (reachable_scroll_speed s' Hr') as Hv.
  destruct (reachable_background s' Hr') as [B1 B2].
  split; [exact Hd|]. split.
  - rewrite Hd.
    assert (0 < scroll_speed s' / 10)%Q; [|lra].
    apply Qlt_shift_div_l; [reflexivity | lra].
  - split; [exact Hb|]. split; [exact B2|].
    eapply Forall_impl; [exact B1|]. intros l [Hl _]. exact Hl.
Qed.

Lemma X12_distance_and_background_witness :
  exists s',
    update Sample.draws (set_playing true (init 0)) = Some s' /\
    (distance (set_playing true (init 0)) < distance s')%Q.
Proof.
  destruct (update_total Sample.draws (set_playing true (init 0))
              (wf_init 0)) as (s' & Hup & _).
  exists s'. split; [exact Hup|].
  apply (X12_distance_and_background Sample.draws
           (set_playing true (init 0)) s'
           (reach_step _ _ (reach_init 0) (step_playing (init 0)))
           eq_refl Hup).
Defined.

Lemma reachable_timers (s : t) :
  reachable s ->
  0 <= spawn_timer s <= 52 /\ 0 <= coin_timer s <= 40 /\
  0 <= power_timer s <= 900.
Proof.
  induction 1 as [hs | s s' Hr IH Hst].
  - cbn [spawn_timer coin_timer power_timer init]. lia.
  - destruct Hst as [d s s' Hup|s|s|s|s|f s]; try exact IH.
    + destruct (playing s) eqn:Hplay.
      * destruct (update_globals d s s' (reachable_wf s Hr) Hplay Hup)
          as (_ & _ & -> & -> & ->).
        pose proof (reachable_scroll_speed s'
                      (reach_step _ _ Hr (step_update d s s' Hup))) as Hv.
        assert (H18 : 18 <= py_int (scroll_speed s' * 3)%Q).
        { apply py_int_lower; [lia|].
          change (inject_Z 18) with (18 # 1)%Q. lra. }
        destruct IH as (I1 & I2 & I3).
        repeat case_match; lia.
      * rewrite (update_not_playing d s Hplay) in Hup.
        injection Hup as <-. exact IH.
    + cbn [spawn_timer coin_timer power_timer reset]. lia.
    + destruct (game_over_screen_background s f) as (_ & -> & -> & ->).
      exact IH.
Qed.

(** X13: the three spawn timers.  In a tick of a reachable session in
    play each timer is incremented, and when it then exceeds its threshold
    (max(18, 70 - int(3 * speed)) for obstacles, 40 for coins, 900 for
    power-ups) it is set back to 0 and exactly one object is appended to
    its list, otherwise the list is as before when the loops start; the
    timers stay within 0..52, 0..40 and 0..900. *)
Theorem X13_spawn_timers (d : Draws) (s s' : t) :
  reachable s -> playing s = true -> update d s = Some s' ->
  (0 <= spawn_timer s <= 52 /\ 0 <= coin_timer s <= 40 /\
   0 <= power_timer s <= 900) /\
  spawn_timer s'
  = (if Z.max 18 (70 - py_int (scroll_speed s' * 3)%Q) <? spawn_timer s + 1
     then 0 else spawn_timer s + 1) /\
  coin_timer s'
  = (if 40 <? coin_timer s + 1 then 0 else coin_timer s + 1) /\
  power_timer s'
  = (if 900 <? power_timer s + 1 then 0 else power_timer s + 1) /\
  (exists r,
     obstacles (before_loops d s)
     = if Z.max 18 (70 - py_int (scroll_speed s' * 3)%Q) <? spawn_timer s + 1
       then obstacles s ++ [r] else obstacles s) /\
  (exists r,
     coins (before_loops d s)
     = if 40 <? coin_timer s + 1 then coins s ++ [r] else coins s) /\
  (exists r,
     powerups (before_loops d s)
     = if 900 <? power_timer s + 1 then powerups s ++ [r] else powerups s).
Proof.
  intros Hr Hplay Hup. pose proof (reachable_wf s Hr) as Hwf.
  split; [exact (reachable_timers s Hr)|].
  destruct (update_globals d s s' Hwf Hplay Hup) as (_ & _ & S & C & P).
  destruct (update_moves d s s' Hwf Hplay Hup) as (Hv & _).
  destruct (before_loops_globals d s)
    as (_ & _ & _ & _ & _ & Lo & Lc & Lp).
  rewrite Hv in *.
  split; [exact S|]. split; [exact C|]. split; [exact P|].
  split; [exact Lo|]. split; [exact Lc | exact Lp].
Qed.

Lemma X13_spawn_timers_witness :
  exists s',
    update Sample.draws (set_playing true (init 0)) = Some s' /\
    spawn_timer s' = 1 /\ coin_timer s' = 1 /\ power_timer s' = 1.
Proof.
  destruct (update_total Sample.draws (set_playing true (init 0))
              (wf_init 0)) as (s' & Hup & _).
  exists s'. split; [exact Hup|].
  destruct (X13_spawn_timers Sample.draws (set_playing true (init 0)) s'
              (reach_step _ _ (reach_init 0) (step_playing (init 0)))
              eq_refl Hup) as (_ & S & C & P & _).
  destruct (update_moves Sample.draws (set_playing true (init 0)) s'
              (wf_init 0) eq_refl Hup) as (Hv & _).
  rewrite Hv in S. rewrite S, C, P. vm_compute. repeat split.
Defined.

(** ** Events *)

(** X14: what a key does.  On the start screen only SPACE acts: it starts
    the game.  When the game is over only R and Q act: R resets the session
    and puts it in play, Q ends the loop.  Otherwise SPACE makes the player
    jump, also while the game is paused, P toggles the pause, so that two
    P in a row change nothing, and no other key acts. *)
Theorem X14_key_handling (w : Main.world) :
  (Main.in_start w = true ->
   Main.handle_event w (Main.KEYDOWN Main.K_SPACE)
   = Main.set_in_start false
       (Main.set_game (set_playing true (Main.game w)) w) /\
   forall k, k <> Main.K_SPACE ->
     Main.handle_event w (Main.KEYDOWN k) = w) /\
  (Main.in_start w = false ->
   playing (Main.game w) = false -> game_over (Main.game w) = true ->
   Main.handle_event w (Main.KEYDOWN Main.K_r)
   = Main.set_game (set_playing true (reset (Main.game w))) w /\
   Main.handle_event w (Main.KEYDOWN Main.K_q)
   = Main.set_game (set_running false (Main.game w)) w /\
   forall k, k <> Main.K_r -> k <> Main.K_q ->
     Main.handle_event w (Main.KEYDOWN k) = w) /\
  (Main.in_start w = false ->
   playing (Main.game w) = true \/ game_over (Main.game w) = false ->
   Main.handle_event w (Main.KEYDOWN Main.K_SPACE)
   = Main.set_game
       (set_player (Player.jump (player (Main.game w))) (Main.game w)) w /\
   Main.handle_event w (Main.KEYDOWN Main.K_p)
   = Main.set_paused (negb (Main.paused w)) w /\
   Main.handle_event (Main.handle_event w (Main.KEYDOWN Main.K_p))
     (Main.KEYDOWN Main.K_p) = w /\
   forall k, k <> Main.K_SPACE -> k <> Main.K_p ->
     Main.handle_event w (Main.KEYDOWN k) = w).
Proof.
  destruct w as [g st pa f]. cbn [Main.in_start Main.game Main.paused].
  split; [|split].
  - intros ->. split; [reflexivity|].
    intros k Hk. destruct k; try reflexivity. contradiction.
  - intros -> Hp Hg. unfold Main.handle_event.
    cbn [Main.in_start Main.game]. rewrite Hp, Hg. cbn [negb andb].
    split; [reflexivity|]. split; [reflexivity|].
    intros k Hr Hq. destruct k; try reflexivity; contradiction.
  - intros -> Hc.
    assert (Hb : negb (playing g) && game_over g = false).
    { destruct Hc as [-> | ->]; [reflexivity | apply andb_false_r]. }
    unfold Main.handle_event.
    cbn [Main.in_start Main.game Main.paused Main.set_paused Main.file].
    rewrite Hb.
    split; [reflexivity|]. split; [reflexivity|].
    split.
    { cbn [Main.in_start Main.game Main.paused Main.set_paused Main.file].
      rewrite ?Hb. destruct pa; reflexivity. }
    intros k Hs Hp. destruct k; try reflexivity; contradiction.
Qed.

Lemma handle_event_running (w : Main.world) (e : Main.event) :
  running (Main.game w) = false \/ e = Main.QUIT ->
  running (Main.game (Main.handle_event w e)) = false.
Proof.
  destruct w as [g st pa f]. cbn [Main.game]. intros H.
  unfold Main.handle_event.
  destruct e as [|k|];
    cbn [Main.game Main.in_start Main.paused Main.file Main.set_game
         Main.set_in_start Main.set_paused].
  - reflexivity.
  - destruct H as [H | H]; [|discriminate].
    destruct st.
    + destruct k; exact H.
    + destruct (negb (playing g) && game_over g); destruct k;
        first [exact H | reflexivity].
  - destruct H as [H | H]; [exact H | discriminate].
Qed.

Lemma handle_events_running (es : list Main.event) (w : Main.world) :
  running (Main.game w) = false \/ Main.QUIT ∈ es ->
  running (Main.game (foldl Main.handle_event w es)) = false.
Proof.
  revert w. induction es as [|e es IH]; intros w H.
  - destruct H as [H | H]; [exact H|]. apply elem_of_nil in H. contradiction.
  - cbn [foldl]. apply IH. destruct H as [H | H].
    + left. apply handle_event_running. left. exact H.
    + apply elem_of_cons in H as [<- | H]; [|right; exact H].
      left. apply handle_event_running. right. reflexivity.
Qed.

Lemma tick_running (d : Draws) (w w' : Main.world) :
  wf (Main.game w) -> Main.tick d w = Some w' ->
  running (Main.game w') = running (Main.game w).
Proof.
  intros Hwf Hw'. destruct (tick_run d w Hwf) as (w1 & Hw1 & Hc).
  rewrite Hw' in Hw1. injection Hw1 as <-.
  destruct Hc as [[_ ->] | (_ & _ & g1 & Hg1 & _ & _ & Hc)]; [reflexivity|].
  assert (Hr : running g1 = running (Main.game w)).
  { destruct (playing (Main.game w)).
    - apply (update_highscore d _ _ Hwf Hg1).
    - rewrite Hg1. reflexivity. }
  destruct Hc as [(_ & -> & _) | (_ & -> & _)]; [exact Hr|].
  destruct (game_over_screen_frame g1 (Main.file w)) as [-> | ->]; exact Hr.
Qed.

(** X15: closing the window ends the loop: an iteration whose events hold
    a QUIT returns with [running] false, whatever the other events are,
    and [while game.running] then stops there. *)
Theorem X15_quit_ends_the_loop (es : list Main.event) (d : Draws)
    (rest : list (list Main.event * Draws)) (w : Main.world) :
  Main.reachable w -> running (Main.game w) = true -> Main.QUIT ∈ es ->
  exists w',
    Main.frame es d w = Some w' /\ running (Main.game w') = false /\
    Main.run ((es, d) :: rest) w = Some w'.
Proof.
  intros Hr Hrun Hq. destruct (frame_total es d w Hr) as (w' & Hw').
  exists w'. split; [exact Hw'|].
  assert (Hstop : running (Main.game w') = false).
  { unfold Main.frame in Hw'.
    rewrite (tick_running d _ _
               (reachable_wf _
                  (handle_events_reachable es w (main_reachable_game w Hr)))
               Hw').
    apply handle_events_running. right. exact Hq. }
  split; [exact Hstop|].
  cbn [Main.run]. rewrite Hrun, Hw'. cbn [mbind option_bind].
  destruct rest as [|[es' d'] rest]; cbn [Main.run]; [reflexivity|].
  rewrite Hstop. reflexivity.
Qed.

Lemma X15_quit_ends_the_loop_witness :
  exists w',
    Main.run [([Main.KEYDOWN Main.K_SPACE; Main.QUIT], Sample.draws);
              ([Main.KEYDOWN Main.K_SPACE], Sample.draws)]
      {| Main.game := init 0; Main.in_start := true; Main.paused := false;
         Main.file := {| HighscoreFile.content := Some (HighscoreFile.of_string "0");
                         HighscoreFile.writable := true;
                         HighscoreFile.touchable := true |} |} = Some w' /\
    running (Main.game w') = false.
Proof.
  destruct (X15_quit_ends_the_loop
              [Main.KEYDOWN Main.K_SPACE; Main.QUIT] Sample.draws
              [([Main.KEYDOWN Main.K_SPACE], Sample.draws)]
              {| Main.game := init 0; Main.in_start := true;
                 Main.paused := false;
                 Main.file := {| HighscoreFile.content := Some (HighscoreFile.of_string "0");
                                 HighscoreFile.writable := true;
                                 HighscoreFile.touchable := true |} |})
    as (w' & _ & Hstop & Hrun).
  - apply (Main.reach_startup
             {| HighscoreFile.content := Some (HighscoreFile.of_string "0");
                HighscoreFile.writable := true;
                HighscoreFile.touchable := true |}).
    vm_compute. reflexivity.
  - reflexivity.
  - right. left.
  - exists w'. split; [exact Hrun | exact Hstop].
Defined.

Lemma X8_shield_lasts_180_ticks_witness :
  Player.shield
    (Nat.iter 179 Player.update (Player.set_shield (FPS * 3) Player.init))
  = 1.
Proof.
  destruct (X8_shield_lasts_180_ticks 179 Player.init) as (H & _).
  rewrite H. reflexivity.
Defined.

Lemma X14_key_handling_witness :
  Main.handle_event
    {| Main.game := init 0; Main.in_start := true; Main.paused := false;
       Main.file := {| HighscoreFile.content := None;
                       HighscoreFile.writable := true;
                       HighscoreFile.touchable := true |} |}
    (Main.KEYDOWN Main.K_p)
  = {| Main.game := init 0; Main.in_start := true; Main.paused := false;
       Main.file := {| HighscoreFile.content := None;
                       HighscoreFile.writable := true;
                       HighscoreFile.touchable := true |} |}.
Proof.
  destruct (X14_key_handling
              {| Main.game := init 0; Main.in_start := true;
                 Main.paused := false;
                 Main.file := {| HighscoreFile.content := None;
                                 HighscoreFile.writable := true;
                                 HighscoreFile.touchable := true |} |})
    as (Hstart & _).
  destruct (Hstart eq_refl) as [_ Hk]. apply Hk. discriminate.
Defined.

(** ** Start of the program *)

(** X16: the program starts exactly when [touch] does not raise: when
    [os.utime] succeeds on the path, or else the file can be opened for
    writing; so it starts on a directory and on a file of its owner that
    cannot be written, and it does not start on a file of somebody else
    that cannot be written.  It then is on the start screen, not paused,
    with a new session whose high score is what [load_highscore] reads
    from the path as it was, 0 when nothing can be read there; a path where
    [os.utime] succeeds or a text can be read is left as it is, a file that
    is created is empty, and a second [touch] changes nothing. *)
Theorem X16_startup (f : HighscoreFile.t) :
  (is_Some (Main.startup f) <->
   HighscoreFile.touchable f = true \/ HighscoreFile.writable f = true) /\
  (HighscoreFile.touchable f = false -> HighscoreFile.writable f = false ->
   Main.startup f = None) /\
  (forall w, Main.startup f = Some w ->
     Main.in_start w = true /\ Main.paused w = false /\
     Main.game w = init (HighscoreFile.load_highscore f) /\
     HighscoreFile.load_highscore (Main.file w)
     = HighscoreFile.load_highscore f /\
     playing (Main.game w) = false /\ game_over (Main.game w) = false /\
     score (Main.game w) = 0 /\
     (HighscoreFile.touchable f = true \/
      is_Some (HighscoreFile.content f) -> Main.file w = f) /\
     (HighscoreFile.touchable f = false ->
      HighscoreFile.content f = None ->
      Main.file w
      = {| HighscoreFile.content := Some [];
           HighscoreFile.writable := true;
           HighscoreFile.touchable := true |}) /\
     (HighscoreFile.content f = None -> highscore (Main.game w) = 0) /\
     HighscoreFile.touch (Main.file w) = Some (Main.file w) /\
     Main.startup (Main.file w) = Some w).
Proof.
  split; [|split].
  - unfold Main.startup, HighscoreFile.touch.
    destruct f as [c wr [|]];
      cbn [HighscoreFile.content HighscoreFile.writable
           HighscoreFile.touchable mbind option_bind].
    + split; [intros _; left; reflexivity | intros _; eexists; reflexivity].
    + destruct wr.
      * split; [intros _; right; reflexivity|]. intros _.
        destruct c; eexists; reflexivity.
      * split; [intros [x Hx]; discriminate Hx|].
        intros [H | H]; discriminate H.
  - intros Ht Hw. unfold Main.startup, HighscoreFile.touch.
    rewrite Ht, Hw. reflexivity.
  - intros w Hst.
    destruct (startup_file f w Hst) as (H1 & H2 & Hg & Hl & Hj & Hsame).
    rewrite Hl in Hg.
    split; [exact H1|]. split; [exact H2|]. split; [exact Hg|].
    split; [exact Hl|].
    split; [rewrite Hg; reflexivity|].
    split; [rewrite Hg; reflexivity|].
    split; [rewrite Hg; reflexivity|].
    split; [exact Hsame|].
    assert (Htouch : HighscoreFile.touch (Main.file w) = Some (Main.file w)).
    { revert Hst. unfold Main.startup, HighscoreFile.touch.
      destruct f as [c wr [|]];
        cbn [HighscoreFile.content HighscoreFile.writable
             HighscoreFile.touchable mbind option_bind].
      - intros [= <-]. reflexivity.
      - destruct wr; [|discriminate].
        destruct c; intros [= <-]; reflexivity. }
    split; [|split; [|split]].
    + intros Ht Hc. revert Hst. unfold Main.startup, HighscoreFile.touch.
      rewrite Ht, Hc. destruct (HighscoreFile.writable f); [|discriminate].
      intros [= <-]. reflexivity.
    + intros Hc. rewrite Hg. unfold HighscoreFile.load_highscore.
      rewrite Hc. reflexivity.
    + exact Htouch.
    + unfold Main.startup. rewrite Htouch. cbn [mbind option_bind].
      f_equal. apply world_ext; cbn [Main.game Main.in_start Main.paused
                                      Main.file];
        [rewrite Hg, Hl; reflexivity | symmetry; exact H1
        | symmetry; exact H2 | reflexivity].
Qed.

(** ** Obstacles that stay *)

Lemma obstacle_loop_stays (r : nat) (o : Obstacle.t) (xs : list nat)
    (s s' : t) :
  NoDup xs -> r ∈ xs -> obstacle_store s !! r = Some o ->
  for_each obstacle_body xs s = Some s' ->
  r ∈ obstacles s ->
  -50 <= Rect.right (Obstacle.rect (moved_obstacle (scroll_speed s) o)) ->
  Rect.colliderect (Obstacle.rect (moved_obstacle (scroll_speed s) o))
    (Player.rect (player s)) = false \/
  Player.shield (player s) <= 0 ->
  r ∈ obstacles s'.
Proof.
  intros Hnd Hin Ho Hrun Hlive Hon Hsafe.
  apply list_elem_of_split in Hin as (pre & post & ->).
  apply NoDup_app in Hnd as (_ & Hpre & Hpost).
  apply NoDup_cons in Hpost as [Hpost _].
  assert (Hrpre : r ∉ pre).
  { intros Hx. apply (Hpre r Hx). left. }
  rewrite for_each_app in Hrun.
  destruct (for_each obstacle_body pre s) as [sa|] eqn:Ha; [|discriminate].
  cbn [mbind option_bind for_each] in Hrun.
  destruct (obstacle_body r sa) as [sb|] eqn:Hb; [|discriminate].
  cbn [mbind option_bind] in Hrun.
  destruct (obstacle_loop_frame _ _ _ Ha) as (Hg & Hpl & _).
  destruct Hg as (_ & Hv & _).
  apply obstacle_body_eq in Hb as (o0 & Ho0 & ->).
  rewrite (obstacle_loop_store_other r pre s sa Hrpre Ha), Ho in Ho0.
  injection Ho0 as <-.
  apply (obstacle_loop_other r post _ s' Hpost Hrun).
  pose proof (obstacle_loop_other r pre s sa Hrpre Ha Hlive) as Hlive'.
  session_simpl. rewrite Hv, Hpl.
  assert (E1 : (Rect.right
                  (Obstacle.rect (moved_obstacle (scroll_speed s) o))
                <? -50) = false) by (apply Z.ltb_ge; exact Hon).
  rewrite E1.
  destruct Hsafe as [E2 | E2].
  - rewrite E2. cbn [andb]. exact Hlive'.
  - assert (E3 : (Player.shield (player s) <=? 0) = true)
      by (apply Z.leb_le; exact E2).
    rewrite E3. cbn [negb]. rewrite andb_false_r. exact Hlive'.
Qed.

(** X17: in a tick of a session in play, an obstacle of the list is
    still in the list when the tick ends exactly when, after its move, its
    right edge is not left of -50 and it does not overlap the player while
    the shield timer is positive. *)
Theorem X17_obstacle_stays (d : Draws) (s s' : t) (r : nat)
    (o : Obstacle.t) :
  wf s -> playing s = true -> update d s = Some s' ->
  let s0 := before_loops d s in
  let o' := moved_obstacle (scroll_speed s0) o in
  r ∈ obstacles s0 -> obstacle_store s0 !! r = Some o ->
  (r ∈ obstacles s' <->
   -50 <= Rect.right (Obstacle.rect o') /\
   (Rect.colliderect (Obstacle.rect o') (Player.rect (player s0)) = false \/
    Player.shield (player s0) <= 0)).
Proof.
  intros Hwf Hplay Hup. cbv zeta.
  destruct (update_playing_run d s s' Hwf Hplay Hup)
    as (s1 & s2 & s3 & H1 & H2 & H3 & -> & _).
  destruct (wf_before_loops d s Hwf) as ([Hnd0 _] & _).
  revert H1 Hnd0. generalize (before_loops d s).
  intros s0 H1 Hnd0 Hin Ho.
  destruct (obstacle_loop_at r o _ _ _ Hnd0 Hin Ho H1)
    as (_ & _ & Hbroken & Hoff).
  destruct (after_obstacle_loop _ _ _ H2 H3) as (_ & _ & -> & _).
  split.
  - intros Hstay. split.
    + destruct (Z.lt_ge_cases
                  (Rect.right
                     (Obstacle.rect (moved_obstacle (scroll_speed s0) o)))
                  (-50)) as [Hlt | Hge]; [|exact Hge].
      exfalso. exact (Hoff Hnd0 Hlt Hstay).
    + destruct (Rect.colliderect _ _) eqn:Hhit; [|left; reflexivity].
      right.
      destruct (Z.lt_ge_cases 0 (Player.shield (player s0)))
        as [Hsh | Hsh]; [|exact Hsh].
      exfalso. exact (Hbroken Hnd0 eq_refl Hsh Hstay).
  - intros [Hon Hsafe].
    exact (obstacle_loop_stays r o _ _ _ Hnd0 Hin Ho H1 Hin Hon Hsafe).
Qed.

Lemma X17_obstacle_stays_witness :
  exists s',
    update Sample.draws (Sample.session 6 0 500 600 700 "shield")
    = Some s' /\
    (0%nat ∈ obstacles s').
Proof.
  destruct (update_total Sample.draws
              (Sample.session 6 0 500 600 700 "shield")
              (wf_session _ _ _ _ _ _)) as (s' & Hup & _).
  exists s'. split; [exact Hup|].
  apply (X17_obstacle_stays Sample.draws
           (Sample.session 6 0 500 600 700 "shield") s' 0%nat
           (Obstacle.init 500 40 50 6) (wf_session _ _ _ _ _ _)
           eq_refl Hup).
  - vm_compute. left.
  - vm_compute. reflexivity.
  - split; [vm_compute; discriminate | left; vm_compute; reflexivity].
Defined.

(** ** Pause *)

(** X18: on the start screen and while the game is paused an iteration
    of the loop changes nothing after the events: no update, no write of
    the file; and a pause lasts until the next P: the events of a paused
    game can still make the player jump, but only P ends the pause. *)
Theorem X18_pause_freezes_the_world (d : Draws) (w : Main.world) :
  Main.in_start w = true \/ Main.paused w = true ->
  Main.tick d w = Some w /\
  (forall e, e <> Main.KEYDOWN Main.K_p ->
     Main.paused (Main.handle_event w e) = Main.paused w).
Proof.
  intros H. destruct w as [g st pa f].
  cbn [Main.in_start Main.paused] in H. split.
  - unfold Main.tick. cbn [Main.in_start Main.paused].
    destruct H as [-> | ->]; [reflexivity|]. destruct st; reflexivity.
  - intros e He. unfold Main.handle_event.
    destruct e as [|k|];
      cbn [Main.game Main.in_start Main.paused Main.file Main.set_game
           Main.set_in_start Main.set_paused];
      [reflexivity | | reflexivity].
    destruct st.
    + destruct k; reflexivity.
    + destruct (negb (playing g) && game_over g); destruct k;
        try reflexivity; contradiction.
Qed.

Lemma X18_pause_freezes_the_world_witness :
  Main.tick Sample.draws
    {| Main.game := set_playing true (init 0); Main.in_start := false;
       Main.paused := true;
       Main.file := {| HighscoreFile.content := None;
                       HighscoreFile.writable := true;
                       HighscoreFile.touchable := true |} |}
  = Some {| Main.game := set_playing true (init 0); Main.in_start := false;
            Main.paused := true;
            Main.file := {| HighscoreFile.content := None;
                            HighscoreFile.writable := true;
                            HighscoreFile.touchable := true |} |}.
Proof.
  apply X18_pause_freezes_the_world. right. reflexivity.
Defined.
